(** * go-gg [table]: ordered, grouped two dimensional relations

    A shallow embedding of [table/table.go] and [table/sort.go]: Tables
    live in a store because [Table.Column] writes its constant-column
    cache into the receiver, and the same [*Table] is shared between
    Groupings. *)

From stdpp Require Import gmap strings list fin_maps.
From Stdlib Require Import ZArith Lia.

Set Warnings "-clear-no-such-hyp".

Local Open Scope Z_scope.
Local Open Scope nat_scope.

(** ** Go values *)

(** The dynamic types ([reflect.Type]) of the element kinds the model
    covers. [bool] stands for the kinds without a natural order. *)
Inductive GoType := TInt | TString | TBool.

Global Instance GoType_eq_dec : EqDecision GoType.
Proof. solve_decision. Defined.

(** A scalar held in an [interface{}] (the value of a constant column). *)
Inductive Value :=
  | VInt (z : Z)
  | VString (s : string)
  | VBool (b : bool).

Global Instance Value_eq_dec : EqDecision Value.
Proof. solve_decision. Defined.

(** [type Slice interface{}]: a Go slice value; homogeneous by typing. *)
Inductive Slice :=
  | SInt (l : list Z)
  | SString (l : list string)
  | SBool (l : list bool).

Global Instance Slice_eq_dec : EqDecision Slice.
Proof. solve_decision. Defined.

(** What a caller can pass for a parameter of type [interface{}]. *)
Inductive Any :=
  | ANil
  | AValue (v : Value)
  | ASlice (s : Slice).

(** [reflect.TypeOf(v)] for a scalar. *)
Definition typeOf (v : Value) : GoType :=
  match v with
  | VInt _ => TInt
  | VString _ => TString
  | VBool _ => TBool
  end.

(** [reflect.TypeOf(s).Elem()]. *)
Definition elemType (s : Slice) : GoType :=
  match s with
  | SInt _ => TInt
  | SString _ => TString
  | SBool _ => TBool
  end.

(** [reflect.ValueOf(s).Len()]. *)
Definition sliceLen (s : Slice) : nat :=
  match s with
  | SInt l => length l
  | SString l => length l
  | SBool l => length l
  end.

(** The elements of a slice, boxed. *)
Definition elems (s : Slice) : list Value :=
  match s with
  | SInt l => VInt <$> l
  | SString l => VString <$> l
  | SBool l => VBool <$> l
  end.

(** ** Panics *)

Inductive Panic :=
  | NilDereference
  | IndexOutOfRange
  (** [&generic.TypeError{rv.Type(), nil, "is not a slice"}] *)
  | NotASlice (ty : option GoType)
  (** ["cannot add column %q with %d elements to table with %d rows"] *)
  | LengthMismatch (name : string) (dataLen tableLen : nat)
  (** ["unknown column %q"] *)
  | UnknownColumn (name : string)
  (** ["table missing column %q"] *)
  | MissingColumn (col : string)
  (** [&generic.TypeError{t0, t1, "for column %q are not the same"}] *)
  | TypeMismatch (col : string) (t0 t1 : option GoType)
  (** ["table has extra column %q"] *)
  | ExtraColumn (col : string)
  (** [generic.Sorter] on a slice whose elements have no order *)
  | NotOrderable (ty : GoType).

Global Instance Panic_eq_dec : EqDecision Panic.
Proof. solve_decision. Defined.

(** ** The external helpers of package [generic] *)

(** Modelled from the spec: [generic.Repeat], of this repository's package
    [generic], which is not among the sources. "for a constant column c
    with value v and Table length L, Column(c) yields a sequence of length
    L where every element equals v". *)
Definition Repeat (v : Value) (n : nat) : Slice :=
  match v with
  | VInt z => SInt (replicate n z)
  | VString s => SString (replicate n s)
  | VBool b => SBool (replicate n b)
  end.

(** [l[i]] for every [i] of [perm]; [None] is Go's index-out-of-range. *)
Definition multiIndex {A} (l : list A) (perm : list nat) : option (list A) :=
  mapM (λ i, l !! i) perm.

(** Modelled from the spec: [generic.MultiIndex], of package [generic],
    which is not among the sources. "Apply the resulting permutation to
    every column ..., producing a new Table with the same column names and
    element types, each column re-ordered by the permutation". *)
Definition MultiIndex (s : Slice) (perm : list nat) : option Slice :=
  match s with
  | SInt l => SInt <$> multiIndex l perm
  | SString l => SString <$> multiIndex l perm
  | SBool l => SBool <$> multiIndex l perm
  end.

(** ** Package [sort] *)

(** A [sort.Interface] as its readers use it: [Len] and [Less]. *)
Record SortInterface := mkSorter { sLen : nat; sLess : nat → nat → bool }.

Inductive Result (A : Type) : Type :=
  | Ok (a : A)
  | Panicked (e : Panic).
Arguments Ok {A} a.
Arguments Panicked {A} e.

(** Modelled from the spec: [generic.Sorter], of package [generic], which
    is not among the sources. "obtain an order-comparison capability over
    that column's values: ... the type's natural order if the element type
    supports it; otherwise fail with a type error". Integers are ordered
    by [<], strings bytewise. *)
Definition Sorter (s : Slice) : Result SortInterface :=
  match s with
  | SInt l => Ok (mkSorter (length l) (λ i j, Z.ltb (nth i l 0%Z) (nth j l 0%Z)))
  | SString l => Ok (mkSorter (length l) (λ i j, String.ltb (nth i l EmptyString) (nth j l EmptyString)))
  | SBool _ => Panicked (NotOrderable TBool)
  end.

(** [sort.IsSorted]: no element is less than the one before it. *)
Definition IsSorted (data : SortInterface) : bool :=
  forallb (λ i, negb (sLess data (S i) i)) (seq 0 (sLen data - 1)).

(** One pass of the inner loop of Go's [insertionSort]: [x] moves towards
    the front while it is less than its predecessor. The part already
    sorted is held last element first. *)
Fixpoint insertBack {A} (less : A → A → bool) (x : A) (done : list A) : list A :=
  match done with
  | [] => [x]
  | y :: rest => if less x y then y :: insertBack less x rest else x :: y :: rest
  end.

(** [sort.Stable] on a sequence whose [Less(i, j)] compares the elements at
    [i] and [j] with [less]: Go's insertion sort (which is all that
    [sort.Stable] runs up to 20 elements; beyond that it merges sorted
    blocks, keeping equal elements in order). *)
Definition Stable {A} (less : A → A → bool) (l : list A) : list A :=
  reverse (foldl (λ done x, insertBack less x done) [] l).

(** ** Tables *)

(** [type Table struct]. A nil map reads like an empty one, and no Table
    with nil maps is ever written to, so both are the empty [gmap];
    [colNames] keeps the difference between nil and an empty slice, which
    [isEmpty] tests. Constant values are scalars. *)
Record Table := mkTable {
  cols : gmap string Slice;
  consts : gmap string Value;
  colNames : option (list string);
  len : nat
}.

(** [&Table{}], the zero value. *)
Definition emptyTable : Table := mkTable ∅ ∅ None 0.

(** The elements of a possibly nil slice of names. *)
Definition names (l : option (list string)) : list string := default [] l.

(** [append(l, x)]. *)
Definition append (l : option (list string)) (x : string) : option (list string) :=
  Some (names l ++ [x]).

(** A [*Table] that is not nil. *)
Abbreviation loc := nat.

(** The store of Tables: [h !! l] is the Table at address [l]. *)
Abbreviation heap := (list Table).

(** Computations that read and write the store and may panic. *)
Definition M (A : Type) : Type := heap → Result A * heap.

Definition ret {A} (a : A) : M A := λ h, (Ok a, h).

Definition bind {A B} (m : M A) (k : A → M B) : M B :=
  λ h, match m h with
       | (Ok a, h') => k a h'
       | (Panicked e, h') => (Panicked e, h')
       end.

Definition panic {A} (e : Panic) : M A := λ h, (Panicked e, h).

Notation "'let*' x := m 'in' k" := (bind m (λ x, k))
  (at level 10, x name, m at level 100, k at level 200, only parsing).

(** Reading through a [*Table]. *)
Definition load (t : loc) : M Table :=
  λ h, match h !! t with
       | Some tv => (Ok tv, h)
       | None => (Panicked NilDereference, h)
       end.

Definition store (t : loc) (tv : Table) : M unit :=
  λ h, (Ok tt, <[t := tv]> h).

(** [&Table{...}]: a fresh address. *)
Definition alloc (tv : Table) : M loc :=
  λ h, (Ok (length h), h ++ [tv]).

(** Dereferencing a pointer that may be nil. *)
Definition nonNil (p : option loc) : M loc :=
  match p with
  | Some t => ret t
  | None => panic NilDereference
  end.

(** [for _, x := range l { acc = f(acc, x) }]. *)
Fixpoint foldM {A B} (f : A → B → M A) (acc : A) (l : list B) : M A :=
  match l with
  | [] => ret acc
  | x :: l' => let* acc' := f acc x in foldM f acc' l'
  end.

(** One iteration of the loop of [cloneSans]. *)
Definition cloneStep (t : Table) (name : string) (nt : Table) (name2 : string) : Table :=
  if decide (name = name2) then nt
  else
    let cols1 := match cols t !! name2 with
                 | Some c => <[name2 := c]> (cols nt)
                 | None => cols nt
                 end in
    let consts1 := match consts t !! name2 with
                   | Some cv => <[name2 := cv]> (consts nt)
                   | None => consts nt
                   end in
    mkTable cols1 consts1 (append (colNames nt) name2) (len nt).

(** [cloneSans] returns a clone of [t] without column [name]. The clone
    is private to its caller until returned, so it is a value here and
    gets its address when the caller returns it. *)
Definition cloneSans (t : Table) (name : string) : Table :=
  foldl (cloneStep t name) (mkTable ∅ ∅ (Some []) (len t)) (names (colNames t)).

(** [reflectSlice]. *)
Definition reflectSlice (data : Any) : Result Slice :=
  match data with
  | ASlice s => Ok s
  | AValue v => Panicked (NotASlice (Some (typeOf v)))
  | ANil => Panicked (NotASlice None)
  end.

(** [Table.Add]. *)
Definition Table_Add (t : loc) (name : string) (data : Any) : M loc :=
  let* tv := load t in
  match data with
  | ANil =>
      if bool_decide (cols tv !! name = None ∧ consts tv !! name = None)
      then ret t
      else if bool_decide (length (names (colNames tv)) = 1)
      then alloc emptyTable
      else alloc (cloneSans tv name)
  | _ =>
      let nt := cloneSans tv name in
      match reflectSlice data with
      | Panicked e => panic e
      | Ok s =>
          let dataLen := sliceLen s in
          if bool_decide (size (cols nt) = 0)
          then alloc (mkTable (<[name := s]> (cols nt)) (consts nt)
                              (append (colNames nt) name) dataLen)
          else if bool_decide (len nt ≠ dataLen)
          then panic (LengthMismatch name dataLen (len nt))
          else alloc (mkTable (<[name := s]> (cols nt)) (consts nt)
                              (append (colNames nt) name) (len nt))
      end
  end.

(** [Table.AddConst]. *)
Definition Table_AddConst (t : loc) (name : string) (val : Value) : M loc :=
  let* tv := load t in
  let nt := cloneSans tv name in
  alloc (mkTable (cols nt) (<[name := val]> (consts nt))
                 (append (colNames nt) name) (len nt)).

(** [Table.Len]. *)
Definition Table_Len (t : loc) : M nat :=
  let* tv := load t in ret (len tv).

(** [Table.Columns]. *)
Definition Table_Columns (t : loc) : M (option (list string)) :=
  let* tv := load t in ret (colNames tv).

(** [Table.Column]; [None] is the nil [Slice]. *)
Definition Table_Column (t : loc) (name : string) : M (option Slice) :=
  let* tv := load t in
  match cols tv !! name with
  | Some c => ret (Some c)
  | None =>
      match consts tv !! name with
      | Some cv =>
          let expanded := Repeat cv (len tv) in
          let* _ := store t (mkTable (<[name := expanded]> (cols tv)) (consts tv)
                                     (colNames tv) (len tv)) in
          ret (Some expanded)
      | None => ret None
      end
  end.

(** [Table.MustColumn]. *)
Definition Table_MustColumn (t : loc) (name : string) : M Slice :=
  let* c := Table_Column t name in
  match c with
  | Some c => ret c
  | None => panic (UnknownColumn name)
  end.

(** [Table.Const]. *)
Definition Table_Const (t : loc) (name : string) : M (option Value * bool) :=
  let* tv := load t in
  ret (consts tv !! name, bool_decide (is_Some (consts tv !! name))).

(** [Table.isEmpty]. *)
Definition Table_isEmpty (t : loc) : M bool :=
  let* tv := load t in ret (bool_decide (colNames tv = None)).

(** ** Groupings *)

(** Modelled from the spec: [GroupID] and [RootGroupID], declared in a file
    of this package that is not among the sources. "an opaque ...
    equality-comparable token distinguishing groups within a Grouping; one
    reserved value, the root group id": a path of labels, the root being
    the empty path. *)
Abbreviation GroupID := (list string).
Definition RootGroupID : GroupID := [].

(** [type groupedTable struct]. *)
Record groupedTable := mkGrouped {
  tables : gmap GroupID loc;
  groups : list GroupID;
  gcolNames : option (list string)
}.

(** The two implementations of [type Grouping interface]. A
    [*groupedTable] is never written to after it is returned, so it is
    held by value. *)
Inductive Grouping :=
  | GTable (t : loc)
  | GGrouped (g : groupedTable).

(** [Table.Tables]. *)
Definition Table_Tables (t : loc) : M (list GroupID) :=
  let* e := Table_isEmpty t in
  if e then ret [] else ret [RootGroupID].

(** [Table.Table]. *)
Definition Table_Table (t : loc) (gid : GroupID) : M (option loc) :=
  if decide (gid = RootGroupID) then
    let* e := Table_isEmpty t in
    if e then ret None else ret (Some t)
  else ret None.

(** The type [AddTable] compares for column [col] of the first group:
    [reflect.TypeOf] of nil is the nil type. *)
Definition baseType (tBase : Table) (col : string) : option GoType :=
  match cols tBase !! col with
  | Some c => Some (elemType c)
  | None => typeOf <$> consts tBase !! col
  end.

(** The type [AddTable] computes for column [col] of the added Table. *)
Definition addedType (t : Table) (col : string) : Result GoType :=
  match cols t !! col with
  | Some c => Ok (elemType c)
  | None =>
      match consts t !! col with
      | Some cv => Ok (typeOf cv)
      | None => Panicked (MissingColumn col)
      end
  end.

(** The loop of [AddTable] over the schema: the first column that is
    missing or whose types differ panics. *)
Fixpoint checkColumns (tBase t : Table) (colNames : list string) : Result unit :=
  match colNames with
  | [] => Ok tt
  | col :: rest =>
      let t0 := baseType tBase col in
      match addedType t col with
      | Panicked e => Panicked e
      | Ok t1 =>
          if decide (t0 = Some t1) then checkColumns tBase t rest
          else Panicked (TypeMismatch col t0 (Some t1))
      end
  end.

(** The last check of [AddTable]. Go ranges over the map [t.cols] in an
    unspecified order; here the first extra name in key order is the one
    reported. *)
Definition checkExtra (t : Table) (colNames : list string) : Result unit :=
  if bool_decide (size (cols t) ≠ length colNames) then
    let colSet : gset string := list_to_set colNames in
    match filter (λ col, col ∉ colSet) (map_to_list (cols t)).*1 with
    | [] => Ok tt
    | col :: _ => Panicked (ExtraColumn col)
    end
  else Ok tt.

Definition liftResult {A} (r : Result A) : M A :=
  match r with
  | Ok a => ret a
  | Panicked e => panic e
  end.

(** One iteration of the first loop of [groupedTable.AddTable]. *)
Definition evictStep (g : groupedTable) (gid : GroupID) (ng : groupedTable) (gid2 : GroupID)
  : groupedTable :=
  if decide (gid = gid2) then ng
  else mkGrouped (match tables g !! gid2 with
                  | Some t2 => <[gid2 := t2]> (tables ng)
                  | None => tables ng
                  end)
                 (groups ng ++ [gid2]) (gcolNames ng).

(** The first loop of [groupedTable.AddTable]: the groups other than
    [gid], in order. *)
Definition evict (g : groupedTable) (gid : GroupID) : groupedTable :=
  foldl (evictStep g gid) (mkGrouped ∅ [] (gcolNames g)) (groups g).

(** [groupedTable.AddTable]; [t = None] is the nil [*Table]. *)
Definition groupedTable_AddTable (g : groupedTable) (gid : GroupID) (t : option loc)
  : M groupedTable :=
  match t with
  | None =>
      let ng := evict g gid in
      if bool_decide (length (groups ng) = 0)
      then ret (mkGrouped (tables ng) (groups ng) None)
      else ret ng
  | Some t =>
      let* tv := load t in
      if bool_decide (colNames tv = None) then ret g
      else
        let ng := evict g gid in
        match groups ng with
        | [] => ret (mkGrouped (<[gid := t]> (tables ng)) (groups ng ++ [gid]) (colNames tv))
        | gid0 :: _ =>
            let tBase := tables ng !! gid0 in
            let* _ := match names (gcolNames ng) with
                      | [] => ret tt
                      | schema =>
                          let* tBase := nonNil tBase in
                          let* tBasev := load tBase in
                          liftResult (checkColumns tBasev tv schema)
                      end in
            let* _ := liftResult (checkExtra tv (names (gcolNames ng))) in
            ret (mkGrouped (<[gid := t]> (tables ng)) (groups ng ++ [gid]) (gcolNames ng))
        end
  end.

(** [Table.AddTable]. *)
Definition Table_AddTable (t : loc) (gid : GroupID) (t2 : option loc) : M Grouping :=
  match t2 with
  | None =>
      if decide (gid = RootGroupID)
      then let* e := alloc emptyTable in ret (GTable e)
      else ret (GTable t)
  | Some t2' =>
      let* e := Table_isEmpty t2' in
      if e then ret (GTable t)
      else if decide (gid = RootGroupID) then ret (GTable t2')
      else
        let g := mkGrouped ∅ [] None in
        let* g1 := groupedTable_AddTable g RootGroupID (Some t) in
        let* g2 := groupedTable_AddTable g1 gid t2 in
        ret (GGrouped g2)
  end.

(** The methods of the interface [Grouping]. *)
Definition Grouping_Columns (g : Grouping) : M (option (list string)) :=
  match g with
  | GTable t => Table_Columns t
  | GGrouped g => ret (gcolNames g)
  end.

Definition Grouping_Tables (g : Grouping) : M (list GroupID) :=
  match g with
  | GTable t => Table_Tables t
  | GGrouped g => ret (groups g)
  end.

Definition Grouping_Table (g : Grouping) (gid : GroupID) : M (option loc) :=
  match g with
  | GTable t => Table_Table t gid
  | GGrouped g => ret (tables g !! gid)
  end.

Definition Grouping_AddTable (g : Grouping) (gid : GroupID) (t : option loc) : M Grouping :=
  match g with
  | GTable t0 => Table_AddTable t0 gid t
  | GGrouped g => let* ng := groupedTable_AddTable g gid t in ret (GGrouped ng)
  end.

(** ** Sorting *)

(** [type permSort struct]. *)
Record permSort := mkPermSort { perm : list nat; keys : list SortInterface }.

(** What [permSort.Less] answers on the rows [a = s.perm[i]] and
    [b = s.perm[j]] when it does not panic. With no key, Go's
    [s.keys[:len(s.keys)-1]] panics ([permSort_Less] has the panics);
    [SortBy] never sorts with no key. *)
Fixpoint rowLess (keys : list SortInterface) (a b : nat) : bool :=
  match keys with
  | [] => false
  | [key] => sLess key a b
  | key :: rest =>
      if sLess key a b then true
      else if sLess key b a then false
      else rowLess rest a b
  end.

(** [key.Less(a, b)] of a sorter over a slice of [sLen key] elements:
    an index that is not in the slice panics. *)
Definition keyLess (key : SortInterface) (a b : nat) : Result bool :=
  if bool_decide (a < sLen key ∧ b < sLen key) then Ok (sLess key a b)
  else Panicked IndexOutOfRange.

(** The loop of [permSort.Less] over [s.keys[:len(s.keys)-1]] and its
    last line, on the rows [a] and [b]: a key is asked only if the keys
    before it did not decide. [IndexOutOfRange] stands for Go's run-time
    panics on an index and on the bound of a slice expression. *)
Fixpoint keysLess (keys : list SortInterface) (a b : nat) : Result bool :=
  match keys with
  | [] => Panicked IndexOutOfRange
  | [key] => keyLess key a b
  | key :: rest =>
      match keyLess key a b with
      | Panicked e => Panicked e
      | Ok true => Ok true
      | Ok false =>
          match keyLess key b a with
          | Panicked e => Panicked e
          | Ok true => Ok false
          | Ok false => keysLess rest a b
          end
      end
  end.

(** [permSort.Less]: [s.keys[:len(s.keys)-1]] panics without keys, and
    [s.perm[i]], [s.perm[j]] panic on a position that is not in [perm]. *)
Definition permSort_Less (s : permSort) (i j : nat) : Result bool :=
  match keys s with
  | [] => Panicked IndexOutOfRange
  | _ =>
      match perm s !! i, perm s !! j with
      | Some a, Some b => keysLess (keys s) a b
      | _, _ => Panicked IndexOutOfRange
      end
  end.

(** [sort.Stable(&permSort{perm, sorters})]: [Less(i, j)] compares the
    rows at positions [i] and [j], [Swap] exchanges them. *)
Definition sortPerm (s : permSort) : list nat :=
  Stable (rowLess (keys s)) (perm s).

(** One iteration of the loop of [makeSorters]. *)
Definition sorterStep (t : loc) (sorters : list SortInterface) (col : string)
  : M (list SortInterface) :=
  let* seq := Table_MustColumn t col in
  let* sorter := liftResult (Sorter seq) in
  if IsSorted sorter then ret sorters
  else ret (sorters ++ [sorter]).

(** The loop of [SortBy] that creates the sorters of one group. *)
Definition makeSorters (t : loc) (cols : list string) : M (list SortInterface) :=
  foldM (sorterStep t) [] cols.

(** One iteration of the loop of [SortBy] that permutes the columns. *)
Definition permuteColumn (t : loc) (perm : list nat) (nt : loc) (name : string) : M loc :=
  let* seq := Table_Column t name in
  match seq with
  | None => panic (NotASlice None)
  | Some seq =>
      match MultiIndex seq perm with
      | None => panic IndexOutOfRange
      | Some seq' => Table_Add nt name (ASlice seq')
      end
  end.

(** The loop of [SortBy] that permutes all columns of [t]. *)
Definition permuteColumns (t : loc) (perm : list nat) (nt : loc) (columns : list string)
  : M loc :=
  foldM (permuteColumn t perm) nt columns.

(** The part of the body of the loop of [SortBy] that sorts the
    permutation sequence and permutes all columns of [t]. *)
Definition permuteTable (t : loc) (sorters : list SortInterface) : M loc :=
  let* n := Table_Len t in
  let perm := sortPerm (mkPermSort (seq 0 n) sorters) in
  let* nt := alloc emptyTable in
  let* columns := Table_Columns t in
  permuteColumns t perm nt (names columns).

(** What the body of the loop of [SortBy] binds to [gid] for the group
    [t]: [t] itself when no sorter is left, else the permuted Table. *)
Definition sortTable (t : option loc) (cols : list string) : M (option loc) :=
  let* sorters :=
    match cols with
    | [] => ret []
    | _ => let* t := nonNil t in makeSorters t cols
    end in
  match sorters with
  | [] => ret t
  | _ =>
      let* t := nonNil t in
      let* nt := permuteTable t sorters in
      ret (Some nt)
  end.

(** The body of the loop of [SortBy] over the groups. *)
Definition sortGroup (g : Grouping) (cols : list string) (out : Grouping) (gid : GroupID)
  : M Grouping :=
  let* t := Grouping_Table g gid in
  let* t' := sortTable t cols in
  Grouping_AddTable out gid t'.

(** [SortBy]. *)
Definition SortBy (g : Grouping) (cols : list string) : M Grouping :=
  let* e := alloc emptyTable in
  let* gids := Grouping_Tables g in
  foldM (sortGroup g cols) (GTable e) gids.

(** ** Programs over Tables *)

(** The calls a client can make on Tables, starting from [new(Table)]. *)
Inductive TableOp :=
  | OpNew
  | OpAdd (t : loc) (name : string) (data : Any)
  | OpAddConst (t : loc) (name : string) (val : Value)
  | OpColumn (t : loc) (name : string)
  | OpMustColumn (t : loc) (name : string)
  | OpConst (t : loc) (name : string)
  | OpLen (t : loc)
  | OpColumns (t : loc).

(** The store after one call; a panic leaves the store as it was when it
    was raised. *)
Definition execOp (op : TableOp) (h : heap) : heap :=
  match op with
  | OpNew => (alloc emptyTable h).2
  | OpAdd t name data => (Table_Add t name data h).2
  | OpAddConst t name val => (Table_AddConst t name val h).2
  | OpColumn t name => (Table_Column t name h).2
  | OpMustColumn t name => (Table_MustColumn t name h).2
  | OpConst t name => (Table_Const t name h).2
  | OpLen t => (Table_Len t h).2
  | OpColumns t => (Table_Columns t h).2
  end.

(** The stores a client can build. *)
Definition reachable (h : heap) : Prop :=
  ∃ ops : list TableOp, h = foldl (λ h op, execOp op h) [] ops.

(** ** Observations and invariants *)

(** What [Table.Column] returns for [name], as a function of the Table. *)
Definition columnView (t : Table) (name : string) : option Slice :=
  match cols t !! name with
  | Some c => Some c
  | None => (λ cv, Repeat cv (len t)) <$> consts t !! name
  end.

(** The invariant of a Table: names are listed once and are exactly the
    keys of the two maps; every slice of [cols] has [len] elements; a name
    in both maps is a constant whose expansion [Column] has cached; only
    the zero value has nil [colNames]. *)
Record table_inv (t : Table) : Prop := mkTableInv {
  inv_nodup : NoDup (names (colNames t));
  inv_names : ∀ n, n ∈ names (colNames t) ↔ is_Some (cols t !! n) ∨ is_Some (consts t !! n);
  inv_len : ∀ n s, cols t !! n = Some s → sliceLen s = len t;
  inv_cache : ∀ n s v, cols t !! n = Some s → consts t !! n = Some v → s = Repeat v (len t);
  inv_nil : colNames t = None → len t = 0;
  inv_nonempty : colNames t ≠ Some []
}.

Definition heap_inv (h : heap) : Prop := ∀ l tv, h !! l = Some tv → table_inv tv.



(** The names of [t] other than [name], in order. *)
Definition otherNames (t : Table) (name : string) : list string :=
  filter (λ n, name ≠ n) (names (colNames t)).

(** The Table [Add] builds from a Table [t] that satisfies the invariant:
    [t] without [name], then [name] bound to [s], with row count [n]. *)
Definition withColumn (t : Table) (name : string) (s : Slice) (n : nat) : Table :=
  mkTable (<[name := s]> (delete name (cols t))) (delete name (consts t))
          (Some (otherNames t name ++ [name])) n.

(** The Table [AddConst] builds from such a [t]. *)
Definition withConst (t : Table) (name : string) (v : Value) : Table :=
  mkTable (delete name (cols t)) (<[name := v]> (delete name (consts t)))
          (Some (otherNames t name ++ [name])) (len t).

(** The Table [Add(name, nil)] builds from such a [t] that has other
    columns than [name]. *)
Definition withoutColumn (t : Table) (name : string) : Table :=
  mkTable (delete name (cols t)) (delete name (consts t))
          (Some (otherNames t name)) (len t).

(** [t] after [Column] has cached the expansion of its constant [name]. *)
Definition withCache (t : Table) (name : string) (cv : Value) : Table :=
  mkTable (<[name := Repeat cv (len t)]> (cols t)) (consts t) (colNames t) (len t).

(** ** Order of positions *)

(** Some [a] stands before some [b] in [l]. *)
Definition before {A} (l : list A) (a b : A) : Prop :=
  ∃ i j, i < j ∧ l !! i = Some a ∧ l !! j = Some b.

(** No element of [l] is less than the one after it (the order in which
    [insertBack] holds the sorted part). *)
Inductive descSorted {A} (less : A → A → bool) : list A → Prop :=
  | descSorted_nil : descSorted less []
  | descSorted_one x : descSorted less [x]
  | descSorted_cons x y l :
      less x y = false → descSorted less (y :: l) → descSorted less (x :: y :: l).

(** ** The orders of the specification *)

(** The natural order of the values of one type. *)
Definition valueLess (a b : Value) : bool :=
  match a, b with
  | VInt x, VInt y => Z.ltb x y
  | VString x, VString y => String.ltb x y
  | _, _ => false
  end.

(** "the lexicographic (tuple) order of the named columns (col1 most
    significant)". *)
Fixpoint tupleLess (a b : list Value) : bool :=
  match a, b with
  | x :: a', y :: b' =>
      if valueLess x y then true
      else if valueLess y x then false
      else tupleLess a' b'
  | _, _ => false
  end.

(** Row [i] of the named columns, as a tuple. *)
Definition rowOf (columns : list Slice) (i : nat) : option (list Value) :=
  mapM (λ c, elems c !! i) columns.

(** The rows are in tuple order: no row is less than an earlier one. *)
Definition lexSorted (columns : list Slice) : Prop :=
  ∀ i j a b, i < j → rowOf columns i = Some a → rowOf columns j = Some b →
             tupleLess b a = false.

(** ** Scenarios *)

(** Columns [a = [1, 2]] and [b = [2, 1]], then [SortBy(t, "a", "b")]:
    the columns [a] and [b] of the root group of the result. *)
Definition sortSortedThenUnsorted : M (option Slice * option Slice) :=
  let* e := alloc emptyTable in
  let* t1 := Table_Add e "a" (ASlice (SInt [1; 2]%Z)) in
  let* t2 := Table_Add t1 "b" (ASlice (SInt [2; 1]%Z)) in
  let* g := SortBy (GTable t2) ["a"; "b"] in
  let* t := Grouping_Table g RootGroupID in
  let* t := nonNil t in
  let* a := Table_Column t "a" in
  let* b := Table_Column t "b" in
  ret (a, b).

(** A constant column [c], optionally read with [Column], then
    [Add("x", [1, 2, 3])]: the row count of the result. *)
Definition addAfterConst (read : bool) : M nat :=
  let* e := alloc emptyTable in
  let* t := Table_AddConst e "c" (VInt 5) in
  let* _ := if read then Table_Column t "c" else ret None in
  let* t' := Table_Add t "x" (ASlice (SInt [1; 2; 3]%Z)) in
  Table_Len t'.

(** Group [a] is [x = [1, 2]]; the Table added as group [b] has [x] and a
    constant column [k] besides: the column names of both groups. *)
Definition addTableExtraConst : M (option (list string) * option (list string)) :=
  let* e := alloc emptyTable in
  let* ta := Table_Add e "x" (ASlice (SInt [1; 2]%Z)) in
  let* tb := Table_Add e "x" (ASlice (SInt [3; 4]%Z)) in
  let* tb := Table_AddConst tb "k" (VInt 7) in
  let* g := Grouping_AddTable (GTable e) ["a"] (Some ta) in
  let* g := Grouping_AddTable g ["b"] (Some tb) in
  let* a := Grouping_Table g ["a"] in
  let* a := nonNil a in
  let* b := Grouping_Table g ["b"] in
  let* b := nonNil b in
  let* ca := Table_Columns a in
  let* cb := Table_Columns b in
  ret (ca, cb).

(** Group [a] has [x = [1, 2]] and the constant [c]; the Table added as
    group [b] has [x], [c] and a regular column [y] besides. *)
Definition addTableExtraRegular : M (option (list string) * option (list string)) :=
  let* e := alloc emptyTable in
  let* ta := Table_Add e "x" (ASlice (SInt [1; 2]%Z)) in
  let* ta := Table_AddConst ta "c" (VInt 1) in
  let* tb := Table_Add e "x" (ASlice (SInt [3; 4]%Z)) in
  let* tb := Table_Add tb "y" (ASlice (SInt [5; 6]%Z)) in
  let* tb := Table_AddConst tb "c" (VInt 2) in
  let* g := Grouping_AddTable (GTable e) ["a"] (Some ta) in
  let* g := Grouping_AddTable g ["b"] (Some tb) in
  let* a := Grouping_Table g ["a"] in
  let* a := nonNil a in
  let* b := Grouping_Table g ["b"] in
  let* b := nonNil b in
  let* ca := Table_Columns a in
  let* cb := Table_Columns b in
  ret (ca, cb).


(** [x = [1, 2, 3]], then the constant [c], then [Add("x", nil)]: the
    Table that is left. *)
Definition removeRegularKeepConst : M loc :=
  let* e := alloc emptyTable in
  let* t := Table_Add e "x" (ASlice (SInt [1; 2; 3]%Z)) in
  let* t := Table_AddConst t "c" (VInt 5) in
  Table_Add t "x" ANil.

(** What a client sees of a Table: its column names, row count, and for
    each of the names [ns] what [Column] and [Const] return. *)
Definition observe (t : loc) (ns : list string)
  : M (option (list string) * nat * list (option Slice * (option Value * bool))) :=
  let* columns := Table_Columns t in
  let* n := Table_Len t in
  let* views := foldM (λ acc name,
                         let* c := Table_Column t name in
                         let* k := Table_Const t name in
                         ret (acc ++ [(c, k)])) [] ns in
  ret (columns, n, views).

(** [t.Add("x", [5, 6]).Add("x", nil)] on [t] with [x = [1, 2]] and
    [y = [3, 4]]: what is seen of [t] and of the result. *)
Definition roundTripExisting :=
  let* e := alloc emptyTable in
  let* t := Table_Add e "x" (ASlice (SInt [1; 2]%Z)) in
  let* t := Table_Add t "y" (ASlice (SInt [3; 4]%Z)) in
  let* t1 := Table_Add t "x" (ASlice (SInt [5; 6]%Z)) in
  let* t2 := Table_Add t1 "x" ANil in
  let* before := observe t ["x"; "y"] in
  let* after := observe t2 ["x"; "y"] in
  ret (before, after).

(** [t.Add("x", [1, 2, 3]).Add("x", nil)] on [t] with the single constant
    column [c]: what is seen of [t] and of the result. *)
Definition roundTripConstOnly :=
  let* e := alloc emptyTable in
  let* t := Table_AddConst e "c" (VInt 5) in
  let* t1 := Table_Add t "x" (ASlice (SInt [1; 2; 3]%Z)) in
  let* t2 := Table_Add t1 "x" ANil in
  let* before := observe t ["c"] in
  let* after := observe t2 ["c"] in
  ret (before, after).

(** ** What [SortBy] computes for one Table *)

(** [tv'] is [tv] after [Column] has cached some expansions. *)
Record cached (tv tv' : Table) : Prop := mkCached {
  cached_names : colNames tv' = colNames tv;
  cached_consts : consts tv' = consts tv;
  cached_len : len tv' = len tv;
  cached_cols : ∀ n s, cols tv !! n = Some s → cols tv' !! n = Some s;
  cached_view : ∀ n, columnView tv' n = columnView tv n
}.

(** The sorter [SortBy] keeps for column [col] of [t]: none if the
    column is sorted already. *)
Definition keptSorter (t : Table) (col : string) : option SortInterface :=
  match columnView t col with
  | Some seq =>
      match Sorter seq with
      | Ok sorter => if IsSorted sorter then None else Some sorter
      | Panicked _ => None
      end
  | None => None
  end.

Definition keptSorters (t : Table) (cols : list string) : list SortInterface :=
  omap (keptSorter t) cols.

(** The permutation [SortBy] applies to the rows of [t]. *)
Definition rowPerm (t : Table) (cols : list string) : list nat :=
  sortPerm (mkPermSort (seq 0 (len t)) (keptSorters t cols)).

(** One column of [t] permuted into [nt]. *)
Definition permuteStep (t : Table) (perm : list nat) (nt : Table) (name : string) : Table :=
  match columnView t name ≫= (λ s, MultiIndex s perm) with
  | Some s' => withColumn nt name s' (length perm)
  | None => nt
  end.

(** The Table [SortBy] builds from [t] and the permutation [perm]. *)
Definition permutedTable (t : Table) (perm : list nat) : Table :=
  foldl (permuteStep t perm) emptyTable (names (colNames t)).

(** [t] after [Column(name)]. *)
Definition afterColumn (t : Table) (name : string) : Table :=
  match cols t !! name, consts t !! name with
  | None, Some cv => withCache t name cv
  | _, _ => t
  end.

(** Column [col] of [t] exists and its elements have an order. *)
Definition sortable (t : Table) (col : string) : Prop :=
  ∃ seq sorter, columnView t col = Some seq ∧ Sorter seq = Ok sorter.

(** The invariant of the Table that the loop builds. *)
Definition building (perm : list nat) (ntv : Table) : Prop :=
  table_inv ntv ∧ (cols ntv ≠ ∅ → len ntv = length perm).

(** ** Well-formed Groupings *)

(** The invariant of a [groupedTable]: the group ids are listed once and
    are exactly the keys of [tables]. *)
Definition grouped_wf (g : groupedTable) : Prop :=
  NoDup (groups g) ∧ ∀ gid, gid ∈ groups g ↔ is_Some (tables g !! gid).

(** A Grouping whose Tables are in the store, below address [n], and, in a
    [groupedTable], not empty. *)
Definition grouping_wf (h : heap) (n : nat) (g : Grouping) : Prop :=
  match g with
  | GTable t => t < n ∧ is_Some (h !! t)
  | GGrouped g =>
      grouped_wf g
      ∧ ∀ gid t, tables g !! gid = Some t →
                 t < n ∧ ∃ tv, h !! t = Some tv ∧ colNames tv ≠ None
  end.

(** The groups of [g] other than [gid], as [evict] leaves them when [g]
    is well formed. *)
Definition withoutGroup (g : groupedTable) (gid : GroupID) : groupedTable :=
  mkGrouped (delete gid (tables g)) (filter (λ gid2, gid ≠ gid2) (groups g)) (gcolNames g).

(** The store only grew and cached expansions. *)
Definition heap_ext (h h' : heap) : Prop :=
  length h ≤ length h'
  ∧ ∀ l tv, h !! l = Some tv → ∃ tv', h' !! l = Some tv' ∧ cached tv tv'.

(** The checks of [groupedTable.AddTable] on the Table [tv], added to the
    groups [ng] that are left after the eviction. *)
Definition validate (h : heap) (ng : groupedTable) (tv : Table) : Result unit :=
  match groups ng with
  | [] => Ok tt
  | gid0 :: _ =>
      match
        match names (gcolNames ng) with
        | [] => Ok tt
        | schema =>
            match tables ng !! gid0 with
            | None => Panicked NilDereference
            | Some tBase =>
                match h !! tBase with
                | None => Panicked NilDereference
                | Some tBasev => checkColumns tBasev tv schema
                end
            end
        end
      with
      | Panicked e => Panicked e
      | Ok _ => checkExtra tv (names (gcolNames ng))
      end
  end.

(** The [groupedTable] that [AddTable] returns when the checks pass. *)
Definition withGroup (ng : groupedTable) (gid : GroupID) (t : loc) (tv : Table)
  : groupedTable :=
  mkGrouped (<[gid := t]> (tables ng)) (groups ng ++ [gid])
            (match groups ng with [] => colNames tv | _ => gcolNames ng end).

(** A Grouping seen as a [groupedTable]: a Table is its root group, if it
    is not empty. *)
Definition asGrouped (h : heap) (g : Grouping) : option groupedTable :=
  match g with
  | GGrouped g => Some g
  | GTable t =>
      tv ← h !! t;
      Some (match colNames tv with
            | None => mkGrouped ∅ [] None
            | Some _ => mkGrouped {[RootGroupID := t]} [RootGroupID] (colNames tv)
            end)
  end.

(** ** The groups of [SortBy] *)

(** The Table at [l] is one [SortBy] passes through and does not write
    to: its sort columns are in [cols] and sorted. *)
Definition settled (cs : list string) (h : heap) (l : loc) : Prop :=
  ∃ tv, h !! l = Some tv
        ∧ (∀ col, col ∈ cs → is_Some (cols tv !! col))
        ∧ keptSorters tv cs = [].

(** [SortBy] of a Grouping whose Tables are below [n0] does not write to
    the Table at [l]. *)
Definition frozen (n0 : nat) (cs : list string) (h : heap) (l : loc) : Prop :=
  l < length h ∧ (n0 ≤ l ∨ settled cs h l).

(** The Tables [binds] added to [og], one group after the other. *)
Fixpoint replay (h : heap) (og : groupedTable) (binds : list (GroupID * loc))
  : Result groupedTable :=
  match binds with
  | [] => Ok og
  | (gid, t) :: rest =>
      match (groupedTable_AddTable og gid (Some t) h).1 with
      | Ok og1 => replay h og1 rest
      | Panicked e => Panicked e
      end
  end.

(** Group [gid] of [g] is a Table below [n0] that is not empty. *)
Definition input_ok (g : Grouping) (n0 : nat) (h : heap) (gid : GroupID) : Prop :=
  ∃ t tv, Grouping_Table g gid h = (Ok (Some t), h) ∧ t < n0
          ∧ h !! t = Some tv ∧ colNames tv ≠ None.

(** What [SortBy] binds for a group [t] with contents [tv]: [t] itself
    when no sorter is kept, else a new Table with the rows permuted. *)
Definition sortedAs (cs : list string) (n0 : nat) (tv : Table) (t t' : loc) (h' : heap)
  : Prop :=
  match keptSorters tv cs with
  | [] => t' = t
  | _ => n0 ≤ t' ∧ h' !! t' = Some (permutedTable tv (rowPerm tv cs))
  end.

(** What [SortBy], started in store [h] and finished in [h'], has bound
    to the group [b.1]: the Table [b.2]. *)
Definition groupResult (g : Grouping) (cs : list string) (n0 : nat) (h h' : heap)
    (b : GroupID * loc) : Prop :=
  ∃ t tv, Grouping_Table g b.1 h = (Ok (Some t), h) ∧ t < n0 ∧ h !! t = Some tv
          ∧ colNames tv ≠ None
          ∧ (∀ col, col ∈ cs → sortable tv col)
          ∧ sortedAs cs n0 tv t b.2 h'
          ∧ frozen n0 cs h' b.2
          ∧ ∃ tv', h' !! b.2 = Some tv' ∧ colNames tv' ≠ None.

(** Some sort column of [t] is not sorted: [SortBy] permutes the group. *)
Definition unsorted (t : Table) (cs : list string) : Prop :=
  ∃ col seq sorter, col ∈ cs ∧ columnView t col = Some seq
                    ∧ Sorter seq = Ok sorter ∧ IsSorted sorter = false.

(** A store with the Table [k = [3, 1, 2]], [c] constant 7 at address 2,
    and [SortBy] of that Table by [k]. *)
Definition sortScenarioHeap : heap :=
  foldl (λ h op, execOp op h) []
        [OpNew; OpAdd 0 "k" (ASlice (SInt [3; 1; 2]%Z)); OpAddConst 1 "c" (VInt 7)].

Definition sortScenario : Result Grouping * heap :=
  SortBy (GTable 2) ["k"] sortScenarioHeap.

(** The Grouping a run has returned. *)
Definition returned (r : Result Grouping * heap) : Grouping :=
  match r.1 with
  | Ok g => g
  | Panicked _ => GTable 0
  end.

(** [groupedTable.addTableUpdate]: the receiver after the call, for a
    [t] that is not nil. *)
Definition groupedTable_addTableUpdate (g : groupedTable) (gid : GroupID) (t : loc)
  : M groupedTable :=
  match groups g with
  | [] =>
      let* columns := Table_Columns t in
      ret (mkGrouped {[gid := t]} [gid] columns)
  | _ =>
      ret (mkGrouped (<[gid := t]> (tables g))
                     (match tables g !! gid with
                      | Some _ => groups g
                      | None => groups g ++ [gid]
                      end)
                     (gcolNames g))
  end.

(** A store with two Tables of the same columns, [x = [1, 2]] at address
    1 and [x = [3]] at address 2, and the [groupedTable] that binds the
    first to group [a]. *)
Definition groupScenarioHeap : heap :=
  foldl (λ h op, execOp op h) []
        [OpNew; OpAdd 0 "x" (ASlice (SInt [1; 2]%Z)); OpAdd 0 "x" (ASlice (SInt [3]%Z))].

Definition groupScenario : groupedTable :=
  mkGrouped {[ ["a"] := 1 ]} [["a"]] (Some ["x"]).

(** The sort columns of [t] that [SortBy] keeps a sorter for: those that
    are not sorted already. *)
Definition keptNames (t : Table) (cols : list string) : list string :=
  filter (λ col, is_Some (keptSorter t col)) cols.

(** Each row is not less, in tuple order, than the row before it (what
    [sort.IsSorted] tests). *)
Definition rowsSorted (columns : list Slice) : Prop :=
  ∀ i a b, rowOf columns i = Some a → rowOf columns (S i) = Some b →
           tupleLess b a = false.

(** Row [i] of the columns [columns] of [t] is the tuple [r]. *)
Definition rowAt (t : Table) (columns : list string) (i : nat) (r : list Value) : Prop :=
  Forall2 (λ col x, ∃ s, columnView t col = Some s ∧ elems s !! i = Some x) columns r.

(** [permSort.Len]. *)
Definition permSort_Len (s : permSort) : nat := length (perm s).

(** [permSort.Swap]: the receiver after the call; an index out of range
    panics. *)
Definition permSort_Swap (s : permSort) (i j : nat) : Result permSort :=
  match perm s !! i, perm s !! j with
  | Some a, Some b => Ok (mkPermSort (<[j := a]> (<[i := b]> (perm s))) (keys s))
  | _, _ => Panicked IndexOutOfRange
  end.

(** The inner loop of [insertionSort(data, a, b)] of package [sort], run
    on a [permSort] through its methods:
    [for j := i; j > a && data.Less(j, j-1); j-- { data.Swap(j, j-1) }]. *)
Fixpoint sift (s : permSort) (a j : nat) : Result permSort :=
  match j with
  | 0 => Ok s
  | S j' =>
      if a <? j then
        match permSort_Less s j j' with
        | Panicked e => Panicked e
        | Ok true =>
            match permSort_Swap s j j' with
            | Ok s' => sift s' a j'
            | Panicked e => Panicked e
            end
        | Ok false => Ok s
        end
      else Ok s
  end.

(** [insertionSort(data, a, b)]: [for i := a + 1; i < b; i++], which is
    what [sort.Stable] runs on up to 20 elements with [a = 0] and
    [b = data.Len()]. *)
Definition insertionSort (s : permSort) (a b : nat) : Result permSort :=
  foldl (λ r i, match r with
                | Ok s => sift s a i
                | Panicked e => Panicked e
                end)
        (Ok s) (seq (a + 1) (b - (a + 1))).

(** A store with the Table [k = [2, 1, 2, 1]], [v = [a, b, c, d]] at
    address 2, in which the rows 0 and 2 and the rows 1 and 3 have equal
    sort keys, and [SortBy] of that Table by [k]. *)
Definition tiedScenarioHeap : heap :=
  foldl (λ h op, execOp op h) []
        [OpNew; OpAdd 0 "k" (ASlice (SInt [2; 1; 2; 1]%Z));
         OpAdd 1 "v" (ASlice (SString ["a"; "b"; "c"; "d"]))].

Definition tiedScenario : Result Grouping * heap :=
  SortBy (GTable 2) ["k"] tiedScenarioHeap.

(** Row [a] is in the slice of every key. *)
Definition inKeys (ks : list SortInterface) (a : nat) : Prop :=
  Forall (λ key, a < sLen key) ks.

(** * Proofs *)

Arguments groupedTable_AddTable : simpl never.
Arguments Grouping_AddTable : simpl never.
Arguments Table_AddTable : simpl never.
Arguments validate : simpl never.
Arguments evict : simpl never.
Arguments sortTable : simpl never.

(** ** The monad *)

Ltac dec_solve :=
  repeat case_decide; try done;
  repeat match goal with
         | H : context [_ ∈ _ :: _] |- _ => rewrite elem_of_cons in H
         end;
  rewrite ?elem_of_cons; naive_solver.

Ltac munfold :=
  unfold bind, ret, panic, load, store, alloc, nonNil, liftResult in *.

(** ** [cloneSans] *)

Section CloneSans.
Context (t : Table) (name : string).

Lemma cloneStep_fold_colNames l acc a :
  colNames acc = Some a →
  colNames (foldl (cloneStep t name) acc l) = Some (a ++ filter (λ n, name ≠ n) l).
Proof.
  revert acc a. induction l as [|x l IH]; intros acc a Ha; simpl.
  - by rewrite app_nil_r.
  - unfold cloneStep at 2. destruct (decide (name = x)) as [->|Hne].
    + rewrite filter_cons_False by naive_solver. by apply IH.
    + rewrite filter_cons_True by done.
      erewrite IH; [|simpl; unfold append; rewrite Ha; reflexivity].
      simpl. by rewrite <- app_assoc.
Qed.

Lemma cloneStep_fold_len l acc :
  len (foldl (cloneStep t name) acc l) = len acc.
Proof.
  revert acc. induction l as [|x l IH]; intros acc; simpl; [done|].
  rewrite IH. unfold cloneStep. by destruct (decide (name = x)).
Qed.

Lemma cloneStep_fold_cols l acc k :
  cols (foldl (cloneStep t name) acc l) !! k =
    if decide (k ≠ name ∧ k ∈ l)
    then match cols t !! k with Some c => Some c | None => cols acc !! k end
    else cols acc !! k.
Proof.
  revert acc. induction l as [|x l IH]; intros acc; simpl.
  - case_decide as H; [|done]. destruct H as [_ H]. by apply elem_of_nil in H.
  - rewrite IH. unfold cloneStep. destruct (decide (name = x)) as [->|Hne].
    + dec_solve.
    + simpl. destruct (decide (k = x)) as [->|Hkx].
      * destruct (cols t !! x) eqn:Hx.
        -- rewrite lookup_insert_eq. dec_solve.
        -- dec_solve.
      * assert (Hins : (match cols t !! x with
                        | Some c => <[x:=c]> (cols acc)
                        | None => cols acc end) !! k = cols acc !! k).
        { destruct (cols t !! x); [by rewrite lookup_insert_ne|done]. }
        rewrite Hins. dec_solve.
Qed.

Lemma cloneStep_fold_consts l acc k :
  consts (foldl (cloneStep t name) acc l) !! k =
    if decide (k ≠ name ∧ k ∈ l)
    then match consts t !! k with Some c => Some c | None => consts acc !! k end
    else consts acc !! k.
Proof.
  revert acc. induction l as [|x l IH]; intros acc; simpl.
  - case_decide as H; [|done]. destruct H as [_ H]. by apply elem_of_nil in H.
  - rewrite IH. unfold cloneStep. destruct (decide (name = x)) as [->|Hne].
    + dec_solve.
    + simpl. destruct (decide (k = x)) as [->|Hkx].
      * destruct (consts t !! x) eqn:Hx.
        -- rewrite lookup_insert_eq. dec_solve.
        -- dec_solve.
      * assert (Hins : (match consts t !! x with
                        | Some c => <[x:=c]> (consts acc)
                        | None => consts acc end) !! k = consts acc !! k).
        { destruct (consts t !! x); [by rewrite lookup_insert_ne|done]. }
        rewrite Hins. dec_solve.
Qed.

Lemma cloneSans_colNames :
  colNames (cloneSans t name) = Some (filter (λ n, name ≠ n) (names (colNames t))).
Proof. unfold cloneSans. by rewrite (cloneStep_fold_colNames _ _ []). Qed.

Lemma cloneSans_len : len (cloneSans t name) = len t.
Proof. unfold cloneSans. by rewrite cloneStep_fold_len. Qed.

Lemma cloneSans_cols_lookup k :
  cols (cloneSans t name) !! k =
    if decide (k ≠ name ∧ k ∈ names (colNames t)) then cols t !! k else None.
Proof.
  unfold cloneSans. rewrite cloneStep_fold_cols. simpl.
  case_decide; [|done]. by destruct (cols t !! k).
Qed.

Lemma cloneSans_consts_lookup k :
  consts (cloneSans t name) !! k =
    if decide (k ≠ name ∧ k ∈ names (colNames t)) then consts t !! k else None.
Proof.
  unfold cloneSans. rewrite cloneStep_fold_consts. simpl.
  case_decide; [|done]. by destruct (consts t !! k).
Qed.

Lemma cloneSans_cols : table_inv t → cols (cloneSans t name) = delete name (cols t).
Proof.
  intros Hinv. apply map_eq. intros k. rewrite cloneSans_cols_lookup.
  destruct (decide (k = name)) as [->|Hk].
  - rewrite lookup_delete_eq. case_decide; naive_solver.
  - rewrite lookup_delete_ne by done. case_decide as H; [done|].
    destruct (cols t !! k) eqn:Hc; [|done].
    exfalso. apply H. split; [done|]. apply (inv_names _ Hinv). left. by eexists.
Qed.

Lemma cloneSans_consts : table_inv t → consts (cloneSans t name) = delete name (consts t).
Proof.
  intros Hinv. apply map_eq. intros k. rewrite cloneSans_consts_lookup.
  destruct (decide (k = name)) as [->|Hk].
  - rewrite lookup_delete_eq. case_decide; naive_solver.
  - rewrite lookup_delete_ne by done. case_decide as H; [done|].
    destruct (consts t !! k) eqn:Hc; [|done].
    exfalso. apply H. split; [done|]. apply (inv_names _ Hinv). right. by eexists.
Qed.
End CloneSans.

(** ** The invariant of Tables *)

Lemma sliceLen_Repeat v n : sliceLen (Repeat v n) = n.
Proof. destruct v; simpl; by rewrite length_replicate. Qed.

Lemma elemType_Repeat v n : elemType (Repeat v n) = typeOf v.
Proof. by destruct v. Qed.

Lemma emptyTable_inv : table_inv emptyTable.
Proof.
  split; simpl; try done.
  - constructor.
  - intros n. rewrite !lookup_empty. split.
    + intros H. by apply elem_of_nil in H.
    + intros [[? ?]|[? ?]]; done.
Qed.

Lemma elem_of_otherNames t name n :
  n ∈ otherNames t name ↔ n ≠ name ∧ n ∈ names (colNames t).
Proof. unfold otherNames. rewrite list_elem_of_filter. naive_solver. Qed.

Lemma cloneSans_eq t name :
  table_inv t → cloneSans t name = withoutColumn t name.
Proof.
  intros Hinv. unfold withoutColumn.
  rewrite <- (cloneSans_cols t name Hinv), <- (cloneSans_consts t name Hinv).
  rewrite <- (cloneSans_len t name). unfold otherNames.
  rewrite <- (cloneSans_colNames t name). by destruct (cloneSans t name).
Qed.

Lemma withColumn_inv t name s n :
  table_inv t → sliceLen s = n →
  (delete name (cols t) ≠ ∅ → len t = n) →
  table_inv (withColumn t name s n).
Proof.
  intros Hinv Hs Hn. split; simpl.
  - apply NoDup_app. split; [|split].
    + unfold otherNames. apply NoDup_filter, Hinv.
    + intros x Hx Hx'. apply elem_of_otherNames in Hx.
      apply list_elem_of_singleton in Hx'. naive_solver.
    + apply NoDup_singleton.
  - intros k. rewrite elem_of_app, elem_of_otherNames, list_elem_of_singleton.
    rewrite (inv_names _ Hinv). destruct (decide (k = name)) as [->|Hk].
    + rewrite lookup_insert_eq. naive_solver.
    + rewrite lookup_insert_ne, !lookup_delete_ne by done. naive_solver.
  - intros k s' Hk. destruct (decide (k = name)) as [->|Hne].
    + rewrite lookup_insert_eq in Hk. by simplify_eq.
    + rewrite lookup_insert_ne in Hk by done.
      rewrite <- Hn.
      * rewrite lookup_delete_ne in Hk by done. by eapply inv_len.
      * intros He. by rewrite He, lookup_empty in Hk.
  - intros k s' v Hk Hv. destruct (decide (k = name)) as [->|Hne].
    + by rewrite lookup_delete_eq in Hv.
    + rewrite lookup_insert_ne in Hk by done.
      rewrite <- Hn.
      * rewrite lookup_delete_ne in Hk by done.
        rewrite lookup_delete_ne in Hv by done. by eapply inv_cache.
      * intros He. by rewrite He, lookup_empty in Hk.
  - done.
  - intros H. simplify_eq. by destruct (otherNames t name).
Qed.

Lemma withConst_inv t name v : table_inv t → table_inv (withConst t name v).
Proof.
  intros Hinv. split; simpl.
  - apply NoDup_app. split; [|split].
    + unfold otherNames. apply NoDup_filter, Hinv.
    + intros x Hx Hx'. apply elem_of_otherNames in Hx.
      apply list_elem_of_singleton in Hx'. naive_solver.
    + apply NoDup_singleton.
  - intros k. rewrite elem_of_app, elem_of_otherNames, list_elem_of_singleton.
    rewrite (inv_names _ Hinv). destruct (decide (k = name)) as [->|Hk].
    + rewrite lookup_insert_eq. naive_solver.
    + rewrite lookup_insert_ne, !lookup_delete_ne by done. naive_solver.
  - intros k s' Hk. apply lookup_delete_Some in Hk as [_ Hk]. by eapply inv_len.
  - intros k s' v' Hk Hv. apply lookup_delete_Some in Hk as [Hne Hk].
    rewrite lookup_insert_ne, lookup_delete_ne in Hv by done. by eapply inv_cache.
  - done.
  - intros H. simplify_eq. by destruct (otherNames t name).
Qed.

Lemma withoutColumn_inv t name :
  table_inv t → otherNames t name ≠ [] → table_inv (withoutColumn t name).
Proof.
  intros Hinv Hne. split; simpl.
  - unfold otherNames. apply NoDup_filter, Hinv.
  - intros k. rewrite elem_of_otherNames, (inv_names _ Hinv).
    destruct (decide (k = name)) as [->|Hk].
    + rewrite !lookup_delete_eq. split; [naive_solver|]. intros [[? ?]|[? ?]]; done.
    + rewrite !lookup_delete_ne by done. naive_solver.
  - intros k s' Hk. apply lookup_delete_Some in Hk as [_ Hk]. by eapply inv_len.
  - intros k s' v' Hk Hv. apply lookup_delete_Some in Hk as [? Hk].
    apply lookup_delete_Some in Hv as [_ Hv]. by eapply inv_cache.
  - done.
  - congruence.
Qed.

Lemma withCache_inv t name cv :
  table_inv t → consts t !! name = Some cv → table_inv (withCache t name cv).
Proof.
  intros Hinv Hc. split; simpl; try apply Hinv.
  - intros k. rewrite (inv_names _ Hinv). destruct (decide (k = name)) as [->|Hk].
    + rewrite lookup_insert_eq, Hc. naive_solver.
    + by rewrite lookup_insert_ne.
  - intros k s Hk. destruct (decide (k = name)) as [->|Hne].
    + rewrite lookup_insert_eq in Hk. simplify_eq. apply sliceLen_Repeat.
    + rewrite lookup_insert_ne in Hk by done. by eapply inv_len.
  - intros k s v Hk Hv. destruct (decide (k = name)) as [->|Hne].
    + rewrite lookup_insert_eq in Hk. by simplify_eq.
    + rewrite lookup_insert_ne in Hk by done. by eapply inv_cache.
Qed.

(** A name that is a column, among two or more, leaves other names. *)
Lemma otherNames_nonempty t name :
  table_inv t → name ∈ names (colNames t) → length (names (colNames t)) ≠ 1 →
  otherNames t name ≠ [].
Proof.
  intros Hinv Hin Hlen Hnil.
  destruct (names (colNames t)) as [|a [|b l]] eqn:Hn; [by apply elem_of_nil in Hin|done|].
  assert (Hab : a ≠ b).
  { pose proof (inv_nodup _ Hinv) as Hnd. rewrite Hn in Hnd.
    apply NoDup_cons in Hnd as [Hnd _]. intros ->. apply Hnd. by left. }
  assert (Ha : a ∈ otherNames t name ∨ b ∈ otherNames t name).
  { rewrite !elem_of_otherNames, Hn. destruct (decide (a = name)) as [->|].
    - right. split; [done|]. right. by left.
    - left. split; [done|]. by left. }
  rewrite Hnil in Ha. destruct Ha as [Ha|Ha]; by apply elem_of_nil in Ha.
Qed.

(** ** The methods of [Table] on a store that satisfies the invariant *)

Lemma heap_inv_nil : heap_inv [].
Proof. intros l tv H. by rewrite lookup_nil in H. Qed.

Lemma heap_inv_alloc (h : heap) tv : heap_inv h → table_inv tv → heap_inv (h ++ [tv]).
Proof.
  intros Hh Htv l tv' Hl. apply lookup_app_Some in Hl as [Hl|[_ Hl]].
  - by eapply Hh.
  - apply list_lookup_singleton_Some in Hl as [_ <-]. done.
Qed.

Lemma heap_inv_store (h : heap) t tv : heap_inv h → table_inv tv → heap_inv (<[t := tv]> h).
Proof.
  intros Hh Htv l tv' Hl. apply list_lookup_insert_Some in Hl as [(-> & <- & _)|[_ Hl]].
  - done.
  - by eapply Hh.
Qed.

Lemma Table_Add_slice (h : heap) t tv name s :
  h !! t = Some tv → table_inv tv →
  Table_Add t name (ASlice s) h =
    if decide (delete name (cols tv) = ∅)
    then (Ok (length h), h ++ [withColumn tv name s (sliceLen s)])
    else if decide (len tv = sliceLen s)
    then (Ok (length h), h ++ [withColumn tv name s (len tv)])
    else (Panicked (LengthMismatch name (sliceLen s) (len tv)), h).
Proof.
  intros Ht Hinv. unfold Table_Add. munfold. rewrite Ht. simpl.
  rewrite (cloneSans_eq _ _ Hinv). simpl.
  destruct (decide (delete name (cols tv) = ∅)) as [He|He].
  - rewrite bool_decide_eq_true_2; [done|]. by apply map_size_empty_iff.
  - rewrite bool_decide_eq_false_2; [|by rewrite map_size_empty_iff].
    destruct (decide (len tv = sliceLen s)).
    + by rewrite bool_decide_eq_false_2 by naive_solver.
    + by rewrite bool_decide_eq_true_2 by done.
Qed.

Lemma Table_Add_nil (h : heap) t tv name :
  h !! t = Some tv → table_inv tv →
  Table_Add t name ANil h =
    if decide (name ∈ names (colNames tv))
    then if decide (length (names (colNames tv)) = 1)
         then (Ok (length h), h ++ [emptyTable])
         else (Ok (length h), h ++ [withoutColumn tv name])
    else (Ok t, h).
Proof.
  intros Ht Hinv. unfold Table_Add. munfold. rewrite Ht. simpl.
  destruct (decide (name ∈ names (colNames tv))) as [Hin|Hin].
  - rewrite bool_decide_eq_false_2.
    + destruct (decide (length (names (colNames tv)) = 1)).
      * by rewrite bool_decide_eq_true_2.
      * rewrite bool_decide_eq_false_2 by done. by rewrite (cloneSans_eq _ _ Hinv).
    + intros [Hc Hv]. apply (inv_names _ Hinv) in Hin.
      rewrite Hc, Hv in Hin. destruct Hin as [[? ?]|[? ?]]; done.
  - rewrite bool_decide_eq_true_2; [done|].
    rewrite (inv_names _ Hinv) in Hin.
    split; apply eq_None_not_Some; naive_solver.
Qed.

Lemma Table_Add_value (h : heap) t tv name v :
  h !! t = Some tv →
  Table_Add t name (AValue v) h = (Panicked (NotASlice (Some (typeOf v))), h).
Proof. intros Ht. unfold Table_Add. munfold. by rewrite Ht. Qed.

Lemma Table_AddConst_spec (h : heap) t tv name v :
  h !! t = Some tv → table_inv tv →
  Table_AddConst t name v h = (Ok (length h), h ++ [withConst tv name v]).
Proof.
  intros Ht Hinv. unfold Table_AddConst. munfold. rewrite Ht. simpl.
  by rewrite (cloneSans_eq _ _ Hinv).
Qed.

Lemma Table_Column_spec (h : heap) t tv name :
  h !! t = Some tv →
  Table_Column t name h =
    match cols tv !! name with
    | Some c => (Ok (Some c), h)
    | None =>
        match consts tv !! name with
        | Some cv => (Ok (Some (Repeat cv (len tv))), <[t := withCache tv name cv]> h)
        | None => (Ok None, h)
        end
    end.
Proof.
  intros Ht. unfold Table_Column. munfold. rewrite Ht.
  destruct (cols tv !! name); [done|]. by destruct (consts tv !! name).
Qed.

(** [Column] returns the view, whatever it caches. *)
Lemma Table_Column_view (h : heap) t tv name :
  h !! t = Some tv → (Table_Column t name h).1 = Ok (columnView tv name).
Proof.
  intros Ht. rewrite (Table_Column_spec _ _ _ _ Ht). unfold columnView.
  destruct (cols tv !! name); [done|]. by destruct (consts tv !! name).
Qed.

Lemma load_None {A} (h : heap) t (k : Table → M A) :
  h !! t = None → bind (load t) k h = (Panicked NilDereference, h).
Proof. intros Ht. munfold. by rewrite Ht. Qed.

Lemma Table_Add_heap_inv (h : heap) t name data :
  heap_inv h → heap_inv (Table_Add t name data h).2.
Proof.
  intros Hh. destruct (h !! t) as [tv|] eqn:Ht.
  - pose proof (Hh _ _ Ht) as Hinv. destruct data as [|v|s].
    + rewrite (Table_Add_nil _ _ _ _ Ht Hinv). repeat case_decide; simpl; try done.
      * apply heap_inv_alloc; [done|apply emptyTable_inv].
      * apply heap_inv_alloc; [done|]. apply withoutColumn_inv; [done|].
        by apply otherNames_nonempty.
    + by rewrite (Table_Add_value _ _ _ _ _ Ht).
    + rewrite (Table_Add_slice _ _ _ _ _ Ht Hinv). repeat case_decide; simpl; try done.
      * apply heap_inv_alloc; [done|]. by apply withColumn_inv.
      * apply heap_inv_alloc; [done|]. by apply withColumn_inv.
  - unfold Table_Add. by rewrite load_None.
Qed.

Lemma Table_AddConst_heap_inv (h : heap) t name v :
  heap_inv h → heap_inv (Table_AddConst t name v h).2.
Proof.
  intros Hh. destruct (h !! t) as [tv|] eqn:Ht.
  - pose proof (Hh _ _ Ht) as Hinv. rewrite (Table_AddConst_spec _ _ _ _ _ Ht Hinv).
    apply heap_inv_alloc; [done|]. by apply withConst_inv.
  - unfold Table_AddConst. by rewrite load_None.
Qed.

Lemma Table_Column_heap_inv (h : heap) t name :
  heap_inv h → heap_inv (Table_Column t name h).2.
Proof.
  intros Hh. destruct (h !! t) as [tv|] eqn:Ht.
  - pose proof (Hh _ _ Ht) as Hinv. rewrite (Table_Column_spec _ _ _ _ Ht).
    destruct (cols tv !! name); [done|]. destruct (consts tv !! name) eqn:Hc; [|done].
    apply heap_inv_store; [done|]. by apply withCache_inv.
  - unfold Table_Column. by rewrite load_None.
Qed.

Lemma Table_MustColumn_heap (h : heap) t name :
  (Table_MustColumn t name h).2 = (Table_Column t name h).2.
Proof.
  unfold Table_MustColumn, bind. destruct (Table_Column t name h) as [[[c|]|e] h']; done.
Qed.

Lemma execOp_heap_inv op h : heap_inv h → heap_inv (execOp op h).
Proof.
  intros Hh. destruct op; simpl.
  - apply heap_inv_alloc; [done|apply emptyTable_inv].
  - by apply Table_Add_heap_inv.
  - by apply Table_AddConst_heap_inv.
  - by apply Table_Column_heap_inv.
  - rewrite Table_MustColumn_heap. by apply Table_Column_heap_inv.
  - unfold Table_Const. munfold. by destruct (h !! t).
  - unfold Table_Len. munfold. by destruct (h !! t).
  - unfold Table_Columns. munfold. by destruct (h !! t).
Qed.

Lemma reachable_heap_inv h : reachable h → heap_inv h.
Proof.
  intros [ops ->]. induction ops as [|op ops IH] using rev_ind.
  - apply heap_inv_nil.
  - rewrite foldl_app. simpl. by apply execOp_heap_inv.
Qed.

(** ** Claims on Tables *)

(** C2 (code bug). The cache that [Column] fills is not transparent: on
    the Table with the single constant column [c], [Add("x", [1, 2, 3])]
    returns a Table of 3 rows, but after [Column("c")] the same call
    panics with a length mismatch, because the cached expansion counts as a
    regular column of 0 rows. *)
Theorem Column_cache_changes_Add :
  (addAfterConst false []).1 = Ok 3
  ∧ (addAfterConst true []).1 = Panicked (LengthMismatch "x" 3 0).
Proof. split; reflexivity. Qed.

(** C5 (counterexample). After [Column] has read the constant column [c]
    of a Table built by [AddConst], [c] is a key of both [cols] and
    [consts]. *)
Lemma cached_constant_in_both_maps :
  ∃ h tv, reachable h ∧ h !! 1 = Some tv
          ∧ colNames tv = Some ["c"]
          ∧ cols tv !! "c" = Some (SInt [])
          ∧ consts tv !! "c" = Some (VInt 5).
Proof.
  eexists _, _. split; [|split].
  - by exists [OpNew; OpAddConst 0 "c" (VInt 5); OpColumn 1 "c"].
  - reflexivity.
  - done.
Qed.

(** C5 (amended). In every Table of a store built from nothing by [Add],
    [AddConst] and the read operations, each column name is listed once
    and is a key of [cols] or of [consts]; a name is a key of both only as
    a constant column with its cached expansion, the constant repeated
    [len] times. *)
Theorem reachable_table_columns h t tv :
  reachable h → h !! t = Some tv →
  NoDup (names (colNames tv))
  ∧ (∀ n, n ∈ names (colNames tv) ↔ is_Some (cols tv !! n) ∨ is_Some (consts tv !! n))
  ∧ (∀ n s v, cols tv !! n = Some s → consts tv !! n = Some v → s = Repeat v (len tv)).
Proof.
  intros Hr Ht. pose proof (reachable_heap_inv _ Hr _ _ Ht) as Hinv.
  split; [apply Hinv|]. split; [apply Hinv|]. apply Hinv.
Qed.

Lemma reachable_table_columns_witness :
  let tv := withCache (withConst emptyTable "c" (VInt 5)) "c" (VInt 5) in
  NoDup (names (colNames tv))
  ∧ (∀ n, n ∈ names (colNames tv) ↔ is_Some (cols tv !! n) ∨ is_Some (consts tv !! n))
  ∧ (∀ n s v, cols tv !! n = Some s → consts tv !! n = Some v → s = Repeat v (len tv)).
Proof.
  apply (reachable_table_columns
           (foldl (λ h op, execOp op h) []
                  [OpNew; OpAddConst 0 "c" (VInt 5); OpColumn 1 "c"]) 1).
  - eexists. reflexivity.
  - reflexivity.
Defined.

(** ** Claims on Groupings *)

(** C3 (code bug). [AddTable] accepts a Table with a column the schema
    does not have: an extra constant column is never looked for, and an
    extra regular column goes unseen when a schema column is constant in
    the added Table, since only [len(t.cols)] is compared with the number
    of schema columns. The groups of the result have different columns. *)
Theorem AddTable_accepts_extra_column :
  (addTableExtraConst []).1 = Ok (Some ["x"], Some ["x"; "k"])
  ∧ (addTableExtraRegular []).1 = Ok (Some ["x"; "c"], Some ["x"; "y"; "c"]).
Proof. split; reflexivity. Qed.

(** ** Claims on [SortBy] *)

(** C1 (code bug). With [a = [1, 2]] and [b = [2, 1]] the rows are in
    tuple order of [(a, b)] already, yet [SortBy(t, "a", "b")] returns
    [a = [2, 1]], [b = [1, 2]]: the sorted column [a] is skipped and the
    rows are sorted by [b] alone. *)
Theorem SortBy_skips_sorted_key :
  lexSorted [SInt [1; 2]%Z; SInt [2; 1]%Z]
  ∧ (sortSortedThenUnsorted []).1 = Ok (Some (SInt [2; 1]%Z), Some (SInt [1; 2]%Z))
  ∧ ¬ lexSorted [SInt [2; 1]%Z; SInt [1; 2]%Z].
Proof.
  split; [|split].
  - intros i j a b Hij Ha Hb.
    destruct i as [|[|i]], j as [|[|j]]; try lia;
      vm_compute in Ha, Hb; by simplify_eq.
  - reflexivity.
  - intros H. by specialize (H 0 1 _ _ (Nat.lt_0_1) eq_refl eq_refl).
Qed.

(** ** More claims on Tables *)




Lemma otherNames_id t name :
  name ∉ names (colNames t) → otherNames t name = names (colNames t).
Proof.
  intros Hn. unfold otherNames. induction (names (colNames t)) as [|x l IH]; [done|].
  rewrite filter_cons_True.
  - f_equal. apply IH. intros H. apply Hn. by right.
  - intros ->. apply Hn. by left.
Qed.

Lemma otherNames_withColumn t name s n :
  otherNames (withColumn t name s n) name = otherNames t name.
Proof.
  unfold otherNames at 1. simpl. rewrite filter_app.
  rewrite filter_cons_False, filter_nil, app_nil_r by naive_solver.
  unfold otherNames. rewrite list_filter_filter. apply list_filter_iff. naive_solver.
Qed.

Lemma names_nil_emptyTable t :
  table_inv t → colNames t = None → t = emptyTable.
Proof.
  intros Hinv Hn. destruct t as [c k cn l]. simpl in *. subst cn.
  pose proof (inv_nil _ Hinv eq_refl) as Hl. simpl in Hl. subst l.
  pose proof (inv_names _ Hinv) as Hnames. simpl in Hnames.
  unfold emptyTable. f_equal.
  - apply map_eq. intros n. rewrite lookup_empty. apply eq_None_not_Some.
    intros H. assert (n ∈ []) as Hin by (apply Hnames; by left). by apply elem_of_nil in Hin.
  - apply map_eq. intros n. rewrite lookup_empty. apply eq_None_not_Some.
    intros H. assert (n ∈ []) as Hin by (apply Hnames; by right). by apply elem_of_nil in Hin.
Qed.

Lemma delete_notin_names_cols t name :
  table_inv t → name ∉ names (colNames t) → delete name (cols t) = cols t.
Proof.
  intros Hinv Hn. apply delete_id. apply eq_None_not_Some. intros H.
  apply Hn, (inv_names _ Hinv). by left.
Qed.

Lemma delete_notin_names_consts t name :
  table_inv t → name ∉ names (colNames t) → delete name (consts t) = consts t.
Proof.
  intros Hinv Hn. apply delete_id. apply eq_None_not_Some. intros H.
  apply Hn, (inv_names _ Hinv). by right.
Qed.

(** [Add(name, s)] then [Add(name, nil)], on a Table that satisfies the
    invariant. *)
Lemma Add_then_remove_spec (h : heap) t tv name s t1 h1 :
  h !! t = Some tv → table_inv tv →
  Table_Add t name (ASlice s) h = (Ok t1, h1) →
  let n := if decide (delete name (cols tv) = ∅) then sliceLen s else len tv in
  let tv2 := if decide (otherNames tv name = []) then emptyTable
             else mkTable (delete name (cols tv)) (delete name (consts tv))
                          (Some (otherNames tv name)) n in
  Table_Add t1 name ANil h1 = (Ok (length h1), h1 ++ [tv2]) ∧ h1 !! t = Some tv.
Proof.
  intros Ht Hinv Hadd n tv2.
  rewrite (Table_Add_slice _ _ _ _ _ Ht Hinv) in Hadd.
  assert (∃ tv1, t1 = length h ∧ h1 = h ++ [tv1] ∧ tv1 = withColumn tv name s n
                 ∧ table_inv tv1) as (tv1 & -> & -> & Htv1 & Hinv1).
  { subst n. destruct (decide (delete name (cols tv) = ∅)).
    - simplify_eq. eexists. split; [done|]. split; [done|]. split; [done|].
      apply withColumn_inv; naive_solver.
    - destruct (decide (len tv = sliceLen s)); simplify_eq.
      eexists. split; [done|]. split; [done|]. split; [done|].
      apply withColumn_inv; naive_solver. }
  assert (Hl1 : (h ++ [tv1]) !! length h = Some tv1).
  { rewrite lookup_app_r by lia. by rewrite Nat.sub_diag. }
  split; [|by apply lookup_app_l_Some].
  rewrite (Table_Add_nil _ _ _ _ Hl1 Hinv1).
  assert (Hnames : names (colNames tv1) = otherNames tv name ++ [name]) by by subst tv1.
  rewrite decide_True by (rewrite Hnames, elem_of_app, list_elem_of_singleton; by right).
  subst tv2. destruct (decide (otherNames tv name = [])) as [He|He].
  - rewrite decide_True; [done|]. by rewrite Hnames, He.
  - rewrite decide_False.
    + unfold withoutColumn. subst tv1. rewrite otherNames_withColumn. simpl.
      by rewrite delete_insert_eq, !delete_delete_eq.
    + rewrite Hnames, length_app. simpl. destruct (otherNames tv name); simpl; [done|lia].
Qed.

(** C6 (counterexample). [t.Add("x", d).Add("x", nil)] is not [t] when
    [x] is one of several columns of [t] (the result has lost [x]), nor
    when [t] has constant columns only (the result has the rows of [d]:
    [Len] is 3, not 0, and [Column("c")] has 3 elements, not none). *)
Lemma Add_then_remove_differs :
  (roundTripExisting []).1
  = Ok ((Some ["x"; "y"], 2,
         [(Some (SInt [1; 2]%Z), (None, false)); (Some (SInt [3; 4]%Z), (None, false))]),
        (Some ["y"], 2,
         [(None, (None, false)); (Some (SInt [3; 4]%Z), (None, false))]))
  ∧ (roundTripConstOnly []).1
    = Ok ((Some ["c"], 0, [(Some (SInt []), (Some (VInt 5), true))]),
          (Some ["c"], 3, [(Some (SInt [5; 5; 5]%Z), (Some (VInt 5), true))])).
Proof. split; reflexivity. Qed.

(** C6 (amended). When [t.Add(name, s)] succeeds, [Add(name, nil)] on the
    result succeeds and leaves [t] as it was. The Table it returns is the
    empty Table if [t] has no column other than [name]. If [name] is not
    a column of [t], it is [t] itself, field by field, when [t] has a
    slice in [cols], and [t] with row count [len(s)] when [t] has
    constant columns only. If [name] is one of several columns of [t], it
    is [t] without [name] when [cols] holds a slice under another name,
    and [t] without [name] but with row count [len(s)] when it holds none
    (the other columns are constants without a cached expansion). *)
Theorem Add_then_remove h t tv name s t1 h1 :
  reachable h → h !! t = Some tv →
  Table_Add t name (ASlice s) h = (Ok t1, h1) →
  ∃ t2 h2 tv2,
    Table_Add t1 name ANil h1 = (Ok t2, h2) ∧ h2 !! t2 = Some tv2 ∧ h2 !! t = Some tv
    ∧ (otherNames tv name = [] → tv2 = emptyTable)
    ∧ (name ∉ names (colNames tv) → colNames tv ≠ None →
         (cols tv ≠ ∅ → tv2 = tv)
         ∧ (cols tv = ∅ → tv2 = mkTable ∅ (consts tv) (colNames tv) (sliceLen s)))
    ∧ (name ∈ names (colNames tv) → otherNames tv name ≠ [] →
         (delete name (cols tv) ≠ ∅ → tv2 = withoutColumn tv name)
         ∧ (delete name (cols tv) = ∅ →
            tv2 = mkTable ∅ (delete name (consts tv)) (Some (otherNames tv name))
                          (sliceLen s))).
Proof.
  intros Hr Ht Hadd. pose proof (reachable_heap_inv _ Hr _ _ Ht) as Hinv.
  destruct (Add_then_remove_spec _ _ _ _ _ _ _ Ht Hinv Hadd) as [Hrm Hkeep].
  eexists _, _, _. split; [exact Hrm|]. split.
  { rewrite lookup_app_r by lia. by rewrite Nat.sub_diag. }
  split; [by apply lookup_app_l_Some|]. split; [|split].
  - intros He. by rewrite decide_True.
  - intros Hn Hcn.
    assert (Hon : otherNames tv name = names (colNames tv)) by by apply otherNames_id.
    assert (Hne : otherNames tv name ≠ []).
    { rewrite Hon. destruct (colNames tv) as [[|]|] eqn:E; try done.
      by destruct (inv_nonempty _ Hinv). }
    rewrite decide_False by done.
    rewrite (delete_notin_names_cols _ _ Hinv Hn), (delete_notin_names_consts _ _ Hinv Hn), Hon.
    assert (Hsome : Some (names (colNames tv)) = colNames tv) by by destruct (colNames tv).
    rewrite Hsome. split; intros Hc.
    + rewrite decide_False by done. by destruct tv.
    + rewrite decide_True by done. by rewrite Hc.
  - intros Hn Hne. rewrite decide_False by done. split; intros Hc.
    + by rewrite decide_False by done.
    + rewrite decide_True by done. by rewrite Hc.
Qed.

Lemma Add_then_remove_witness :
  let tv := withConst (withColumn emptyTable "x" (SInt [1; 2]%Z) 2) "c" (VInt 5) in
  let s := SInt [7; 8; 9]%Z in
  let h1 := [emptyTable; withColumn emptyTable "x" (SInt [1; 2]%Z) 2; tv;
             withColumn tv "x" s 3] in
  ∃ t2 h2 tv2,
    Table_Add 3 "x" ANil h1 = (Ok t2, h2) ∧ h2 !! t2 = Some tv2 ∧ h2 !! 2 = Some tv
    ∧ (otherNames tv "x" = [] → tv2 = emptyTable)
    ∧ ("x" ∉ names (colNames tv) → colNames tv ≠ None →
         (cols tv ≠ ∅ → tv2 = tv)
         ∧ (cols tv = ∅ → tv2 = mkTable ∅ (consts tv) (colNames tv) (sliceLen s)))
    ∧ ("x" ∈ names (colNames tv) → otherNames tv "x" ≠ [] →
         (delete "x" (cols tv) ≠ ∅ → tv2 = withoutColumn tv "x")
         ∧ (delete "x" (cols tv) = ∅ →
            tv2 = mkTable ∅ (delete "x" (consts tv)) (Some (otherNames tv "x"))
                          (sliceLen s))).
Proof.
  apply (Add_then_remove
           (foldl (λ h op, execOp op h) []
                  [OpNew; OpAdd 0 "x" (ASlice (SInt [1; 2]%Z)); OpAddConst 1 "c" (VInt 5)])
           2 _ "x" (SInt [7; 8; 9]%Z) 3).
  - eexists. reflexivity.
  - reflexivity.
  - reflexivity.
Defined.

(** C8 (counterexample). After [x = [1, 2, 3]], the constant [c] and
    [Add("x", nil)], the Table is not empty, its only column is the
    constant [c], and [Len] returns 3. *)
Lemma Len_of_constants_only_table :
  ∃ t h tv, removeRegularKeepConst [] = (Ok t, h) ∧ h !! t = Some tv
            ∧ colNames tv = Some ["c"] ∧ cols tv = ∅
            ∧ consts tv !! "c" = Some (VInt 5)
            ∧ Table_Len t h = (Ok 3, h).
Proof. eexists _, _, _. repeat split; reflexivity. Qed.

(** C8 (amended). [Len] returns the row count [len], which is 0 for the
    empty Table and the length of every slice in [cols]; [AddConst] keeps
    it, and so does the removal of a column unless the empty Table is
    returned. Hence a Table with constant columns only has 0 rows if it
    was built by [AddConst] alone, and otherwise the rows of the Table it
    was derived from. *)
Theorem Len_rule h t tv :
  reachable h → h !! t = Some tv →
  Table_Len t h = (Ok (len tv), h)
  ∧ (colNames tv = None → len tv = 0)
  ∧ (∀ n s, cols tv !! n = Some s → len tv = sliceLen s)
  ∧ (∀ n v, ∃ t' h' tv', Table_AddConst t n v h = (Ok t', h') ∧ h' !! t' = Some tv'
                         ∧ len tv' = len tv)
  ∧ (∀ n, ∃ t' h' tv', Table_Add t n ANil h = (Ok t', h') ∧ h' !! t' = Some tv'
                       ∧ (colNames tv' ≠ None → len tv' = len tv)).
Proof.
  intros Hr Ht. pose proof (reachable_heap_inv _ Hr _ _ Ht) as Hinv.
  split; [|split; [|split; [|split]]].
  - unfold Table_Len. munfold. by rewrite Ht.
  - apply Hinv.
  - intros n s Hs. symmetry. by eapply inv_len.
  - intros n v. rewrite (Table_AddConst_spec _ _ _ _ _ Ht Hinv).
    eexists _, _, _. split; [reflexivity|]. split.
    + rewrite lookup_app_r by lia. by rewrite Nat.sub_diag.
    + done.
  - intros n. rewrite (Table_Add_nil _ _ _ _ Ht Hinv).
    destruct (decide (n ∈ names (colNames tv))).
    + destruct (decide (length (names (colNames tv)) = 1)).
      * eexists _, _, _. split; [reflexivity|]. split.
        -- rewrite lookup_app_r by lia. by rewrite Nat.sub_diag.
        -- done.
      * eexists _, _, _. split; [reflexivity|]. split.
        -- rewrite lookup_app_r by lia. by rewrite Nat.sub_diag.
        -- done.
    + eexists _, _, _. split; [reflexivity|]. split; [exact Ht|done].
Qed.

Lemma Len_rule_witness :
  let tv := withConst (withColumn emptyTable "x" (SInt [1; 2; 3]%Z) 3) "c" (VInt 5) in
  let h := [emptyTable; withColumn emptyTable "x" (SInt [1; 2; 3]%Z) 3; tv] in
  Table_Len 2 h = (Ok (len tv), h)
  ∧ (colNames tv = None → len tv = 0)
  ∧ (∀ n s, cols tv !! n = Some s → len tv = sliceLen s)
  ∧ (∀ n v, ∃ t' h' tv', Table_AddConst 2 n v h = (Ok t', h') ∧ h' !! t' = Some tv'
                         ∧ len tv' = len tv)
  ∧ (∀ n, ∃ t' h' tv', Table_Add 2 n ANil h = (Ok t', h') ∧ h' !! t' = Some tv'
                       ∧ (colNames tv' ≠ None → len tv' = len tv)).
Proof.
  apply (Len_rule
           (foldl (λ h op, execOp op h) []
                  [OpNew; OpAdd 0 "x" (ASlice (SInt [1; 2; 3]%Z)); OpAddConst 1 "c" (VInt 5)])
           2).
  - eexists. reflexivity.
  - reflexivity.
Defined.

(** ** [sort.Stable] *)

Section StableSort.
Context {A : Type} (less : A → A → bool).

Lemma before_cons (l : list A) x a b : before l a b → before (x :: l) a b.
Proof. intros (i & j & Hij & Ha & Hb). exists (S i), (S j). split; [lia|done]. Qed.

Lemma before_head (l : list A) a b : b ∈ l → before (a :: l) a b.
Proof.
  intros Hb. apply list_elem_of_lookup in Hb as [j Hj].
  exists 0, (S j). split; [lia|done].
Qed.

Lemma insertBack_perm x (l : list A) : insertBack less x l ≡ₚ x :: l.
Proof.
  induction l as [|y l IH]; simpl; [done|].
  destruct (less x y); [|done]. rewrite IH. apply Permutation_swap.
Qed.

Lemma insertBack_before_old x (l : list A) a b :
  before l a b → before (insertBack less x l) a b.
Proof.
  induction l as [|y l IH]; simpl.
  - intros (i & j & _ & Hi & _). by rewrite lookup_nil in Hi.
  - intros Hab. destruct (less x y); [|by apply before_cons].
    destruct Hab as (i & j & Hij & Ha & Hb). destruct i as [|i].
    + simpl in Ha. simplify_eq. destruct j as [|j]; [lia|]. simpl in Hb.
      apply before_head. rewrite insertBack_perm. right.
      apply list_elem_of_lookup. by exists j.
    + destruct j as [|j]; [lia|]. simpl in Ha, Hb.
      apply before_cons, IH. exists i, j. split; [lia|done].
Qed.

Lemma insertBack_before_new x (l : list A) y :
  y ∈ l → less x y = false → before (insertBack less x l) x y.
Proof.
  induction l as [|z l IH]; simpl; intros Hy Hxy.
  - by apply elem_of_nil in Hy.
  - destruct (less x z) eqn:Hxz.
    + apply elem_of_cons in Hy as [->|Hy]; [congruence|].
      apply before_cons. by apply IH.
    + by apply before_head.
Qed.

Lemma insertBack_sorted x (l : list A) :
  (∀ a b, less a b = true → less b a = false) →
  descSorted less l → descSorted less (insertBack less x l).
Proof.
  intros Hasym Hl. induction Hl as [|y|y z l Hyz Hl IH]; simpl.
  - constructor.
  - destruct (less x y) eqn:Hxy.
    + constructor; [by apply Hasym|constructor].
    + constructor; [done|constructor].
  - destruct (less x y) eqn:Hxy.
    + simpl in IH. destruct (less x z) eqn:Hxz.
      * by constructor.
      * constructor; [by apply Hasym|done].
    + constructor; [done|]. by constructor.
Qed.

(** The state of the sort after the elements of [l] are inserted into
    the sorted part [acc]. *)
Lemma insert_all_spec (l acc : list A) :
  let r := foldl (λ acc x, insertBack less x acc) acc l in
  r ≡ₚ l ++ acc
  ∧ (∀ a b, before acc a b → before r a b)
  ∧ (∀ x y, x ∈ l → y ∈ acc → less x y = false → before r x y)
  ∧ (∀ i j a b, i < j → l !! i = Some a → l !! j = Some b → less b a = false →
                before r b a).
Proof.
  revert acc. induction l as [|x l IH]; intros acc; simpl.
  - split; [done|]. split; [done|]. split.
    + intros x y Hx. by apply elem_of_nil in Hx.
    + intros i j a b _ Hi. by rewrite lookup_nil in Hi.
  - destruct (IH (insertBack less x acc)) as (Hperm & Hold & Hnew & Hin).
    split; [|split; [|split]].
    + rewrite Hperm, insertBack_perm. by rewrite Permutation_middle.
    + intros a b Hab. by apply Hold, insertBack_before_old.
    + intros x' y Hx' Hy Hless. apply elem_of_cons in Hx' as [->|Hx'].
      * by apply Hold, insertBack_before_new.
      * apply Hnew; [done| |done]. rewrite insertBack_perm. by right.
    + intros i j a b Hij Ha Hb Hless. destruct j as [|j]; [lia|]. simpl in Hb.
      destruct i as [|i].
      * simpl in Ha. simplify_eq. apply Hnew; [|rewrite insertBack_perm; by left|done].
        apply list_elem_of_lookup. by exists j.
      * simpl in Ha. apply (Hin i j); [lia|done..].
Qed.

Lemma Stable_perm (l : list A) : Stable less l ≡ₚ l.
Proof.
  unfold Stable. rewrite reverse_Permutation.
  destruct (insert_all_spec l []) as [H _]. by rewrite H, app_nil_r.
Qed.

Lemma Stable_length (l : list A) : length (Stable less l) = length l.
Proof. by rewrite Stable_perm. Qed.

(** [sort.Stable] keeps the order of elements of which the later is not
    less than the earlier. *)
Lemma Stable_stable (l : list A) i j a b :
  i < j → l !! i = Some a → l !! j = Some b → less b a = false →
  before (Stable less l) a b.
Proof.
  intros Hij Ha Hb Hless.
  destruct (insert_all_spec l []) as (_ & _ & _ & H).
  destruct (H i j a b Hij Ha Hb Hless) as (p & q & Hpq & Hp & Hq).
  set (r := foldl (λ acc x, insertBack less x acc) [] l) in *.
  pose proof (lookup_lt_Some _ _ _ Hp) as Hpl.
  pose proof (lookup_lt_Some _ _ _ Hq) as Hql.
  exists (length r - S q), (length r - S p). split; [lia|].
  unfold Stable. fold r. split; apply reverse_lookup_Some.
  - split; [|lia]. rewrite <- Hq. f_equal. lia.
  - split; [|lia]. rewrite <- Hp. f_equal. lia.
Qed.

Lemma descSorted_lookup (l : list A) i a b :
  descSorted less l → l !! i = Some a → l !! S i = Some b → less a b = false.
Proof.
  intros Hl. revert i. induction Hl as [|x|x y l Hxy Hl IH]; intros i Ha Hb.
  - by rewrite lookup_nil in Ha.
  - destruct i; simpl in Hb; by rewrite ?lookup_nil in Hb.
  - destruct i as [|i]; simpl in *; [by simplify_eq|]. by apply (IH i).
Qed.

Lemma insert_all_sorted (l acc : list A) :
  (∀ a b, less a b = true → less b a = false) →
  descSorted less acc →
  descSorted less (foldl (λ acc x, insertBack less x acc) acc l).
Proof.
  intros Hasym. revert acc. induction l as [|x l IH]; intros acc Hacc; simpl; [done|].
  apply IH. by apply insertBack_sorted.
Qed.

(** After [sort.Stable] no element is less than the one before it, if
    [less] is asymmetric. *)
Lemma Stable_sorted (l : list A) i a b :
  (∀ a b, less a b = true → less b a = false) →
  Stable less l !! i = Some a → Stable less l !! S i = Some b → less b a = false.
Proof.
  intros Hasym Ha Hb. unfold Stable in *.
  set (r := foldl (λ acc x, insertBack less x acc) [] l) in *.
  assert (Hr : descSorted less r).
  { apply insert_all_sorted; [done|constructor]. }
  apply reverse_lookup_Some in Ha as [Ha Hi].
  apply reverse_lookup_Some in Hb as [Hb Hi'].
  apply (descSorted_lookup r (length r - S (S i))); [done|done|].
  rewrite <- Ha. f_equal. lia.
Qed.
End StableSort.

(** ** [generic.MultiIndex] *)

Lemma multiIndex_Some {A} (l : list A) (perm : list nat) :
  Forall (λ i, i < length l) perm →
  ∃ l', multiIndex l perm = Some l' ∧ length l' = length perm
        ∧ ∀ p i, perm !! p = Some i → l' !! p = l !! i.
Proof.
  intros Hperm. unfold multiIndex.
  destruct (mapM (λ i, l !! i) perm) as [l'|] eqn:Hm.
  - exists l'. split; [done|]. pose proof (mapM_Some_1 _ _ _ Hm) as HF.
    split; [symmetry; by eapply Forall2_length|].
    intros p i Hp. destruct (Forall2_lookup_l _ _ _ _ _ HF Hp) as (y & Hy & Hl).
    by rewrite Hy, Hl.
  - exfalso. apply mapM_None_1 in Hm. apply Exists_exists in Hm as (i & Hi & Hnone).
    rewrite Forall_forall in Hperm. apply Hperm in Hi.
    apply lookup_ge_None in Hnone. lia.
Qed.

Lemma length_elems s : length (elems s) = sliceLen s.
Proof. destruct s; simpl; by rewrite length_fmap. Qed.

Lemma MultiIndex_Some s (perm : list nat) :
  Forall (λ i, i < sliceLen s) perm →
  ∃ s', MultiIndex s perm = Some s' ∧ sliceLen s' = length perm
        ∧ elemType s' = elemType s
        ∧ ∀ p i, perm !! p = Some i → elems s' !! p = elems s !! i.
Proof.
  intros Hperm. destruct s as [l|l|l]; simpl in *;
    destruct (multiIndex_Some l perm Hperm) as (l' & -> & Hlen & Hl);
    eexists; (split; [reflexivity|]); simpl; (split; [done|]); (split; [done|]);
    intros p i Hp; rewrite !list_lookup_fmap; by rewrite (Hl p i Hp).
Qed.

(** ** Cached expansions *)

Lemma cached_refl tv : cached tv tv.
Proof. by split. Qed.

Lemma cached_trans tv1 tv2 tv3 : cached tv1 tv2 → cached tv2 tv3 → cached tv1 tv3.
Proof.
  intros [] []. split; try congruence; eauto.
Qed.

Lemma withCache_cached tv name cv :
  cols tv !! name = None → consts tv !! name = Some cv → cached tv (withCache tv name cv).
Proof.
  intros Hc Hk. split; simpl; try done.
  - intros n s Hn. rewrite lookup_insert_ne; [done|]. congruence.
  - intros n. unfold columnView. simpl. destruct (decide (n = name)) as [->|Hne].
    + by rewrite lookup_insert_eq, Hc, Hk.
    + by rewrite lookup_insert_ne.
Qed.

Lemma keptSorters_cached tv tv' cols :
  cached tv tv' → keptSorters tv' cols = keptSorters tv cols.
Proof.
  intros Hc. unfold keptSorters. induction cols as [|col cols IH]; [done|].
  csimpl. rewrite IH. unfold keptSorter. by rewrite (cached_view _ _ Hc).
Qed.

Lemma afterColumn_cached tv name : cached tv (afterColumn tv name).
Proof.
  unfold afterColumn. destruct (cols tv !! name) eqn:Hc; [apply cached_refl|].
  destruct (consts tv !! name) eqn:Hk; [|apply cached_refl].
  by apply withCache_cached.
Qed.

Lemma afterColumn_inv tv name : table_inv tv → table_inv (afterColumn tv name).
Proof.
  intros Hinv. unfold afterColumn. destruct (cols tv !! name) eqn:Hc; [done|].
  destruct (consts tv !! name) eqn:Hk; [|done]. by apply withCache_inv.
Qed.

Lemma afterColumn_cols tv name s :
  columnView tv name = Some s → cols (afterColumn tv name) !! name = Some s.
Proof.
  unfold columnView, afterColumn. destruct (cols tv !! name) eqn:Hc; [by rewrite Hc|].
  destruct (consts tv !! name) eqn:Hk; [|done]. simpl. intros [= <-].
  apply lookup_insert_eq.
Qed.

Lemma afterColumn_id tv name :
  is_Some (cols tv !! name) → afterColumn tv name = tv.
Proof. intros [s Hs]. unfold afterColumn. by rewrite Hs. Qed.

(** [Column] in closed form. *)
Lemma Table_Column_eq (h : heap) t tv name :
  h !! t = Some tv →
  Table_Column t name h = (Ok (columnView tv name), <[t := afterColumn tv name]> h).
Proof.
  intros Ht. rewrite (Table_Column_spec _ _ _ _ Ht). unfold columnView, afterColumn.
  destruct (cols tv !! name); [by rewrite list_insert_id|].
  destruct (consts tv !! name); [done|]. by rewrite list_insert_id.
Qed.

Lemma Table_MustColumn_eq (h : heap) t tv name :
  h !! t = Some tv →
  Table_MustColumn t name h =
    (match columnView tv name with
     | Some c => Ok c
     | None => Panicked (UnknownColumn name)
     end, <[t := afterColumn tv name]> h).
Proof.
  intros Ht. unfold Table_MustColumn, bind. rewrite (Table_Column_eq _ _ _ _ Ht).
  by destruct (columnView tv name).
Qed.

Lemma bind_Ok {A B} (m : M A) (k : A → M B) h a h1 :
  m h = (Ok a, h1) → bind m k h = k a h1.
Proof. intros H. unfold bind. by rewrite H. Qed.

Lemma bind_Panicked {A B} (m : M A) (k : A → M B) h e h1 :
  m h = (Panicked e, h1) → bind m k h = (Panicked e, h1).
Proof. intros H. unfold bind. by rewrite H. Qed.

Lemma bind_Ok_inv {A B} (m : M A) (k : A → M B) h b h2 :
  bind m k h = (Ok b, h2) → ∃ a h1, m h = (Ok a, h1) ∧ k a h1 = (Ok b, h2).
Proof.
  unfold bind. destruct (m h) as [[a|e] h1]; [|done]. intros H. by exists a, h1.
Qed.

Lemma sorterStep_eq (h : heap) t tv sorters col :
  h !! t = Some tv →
  sorterStep t sorters col h =
    (match columnView tv col with
     | None => Panicked (UnknownColumn col)
     | Some seq =>
         match Sorter seq with
         | Panicked e => Panicked e
         | Ok sorter => Ok (sorters ++ if IsSorted sorter then [] else [sorter])
         end
     end, <[t := afterColumn tv col]> h).
Proof.
  intros Ht. unfold sorterStep, bind. rewrite (Table_MustColumn_eq _ _ _ _ Ht).
  destruct (columnView tv col) as [seq|]; [|done]. unfold liftResult.
  destruct (Sorter seq) as [sorter|e]; [|done]. unfold ret.
  destruct (IsSorted sorter); by rewrite ?app_nil_r.
Qed.

Lemma keptSorters_cons tv col cs seq sorter :
  columnView tv col = Some seq → Sorter seq = Ok sorter →
  keptSorters tv (col :: cs)
  = (if IsSorted sorter then [] else [sorter]) ++ keptSorters tv cs.
Proof.
  intros Hview Hsorter. unfold keptSorters. csimpl. unfold keptSorter at 1.
  rewrite Hview, Hsorter. by destruct (IsSorted sorter).
Qed.

Lemma makeSorters_fold t cs : ∀ acc (h : heap) tv sorters h',
  h !! t = Some tv → table_inv tv →
  foldM (sorterStep t) acc cs h = (Ok sorters, h') →
  ∃ tv', h' = <[t := tv']> h ∧ tv' = foldl afterColumn tv cs
         ∧ cached tv tv' ∧ table_inv tv'
         ∧ sorters = acc ++ keptSorters tv cs
         ∧ (∀ col, col ∈ cs → is_Some (cols tv' !! col) ∧ sortable tv col).
Proof.
  induction cs as [|col cs IH]; intros acc h tv sorters h' Ht Hinv Hrun.
  - simpl in Hrun. munfold. simplify_eq. exists tv.
    split; [by rewrite list_insert_id|]. split; [done|].
    split; [apply cached_refl|]. split; [done|].
    split; [by rewrite app_nil_r|]. intros col Hcol. by apply elem_of_nil in Hcol.
  - simpl in Hrun. apply bind_Ok_inv in Hrun as (acc1 & h1 & Hstep & Hrun1).
    rewrite (sorterStep_eq _ _ _ _ _ Ht) in Hstep.
    destruct (columnView tv col) as [seq|] eqn:Hview; [|done].
    destruct (Sorter seq) as [sorter|e] eqn:Hsorter; [|done].
    injection Hstep as <- <-.
    assert (Ht1 : <[t := afterColumn tv col]> h !! t = Some (afterColumn tv col)).
    { apply list_lookup_insert_eq. by eapply lookup_lt_Some. }
    pose proof (afterColumn_cached tv col) as Hc1.
    pose proof (afterColumn_inv tv col Hinv) as Hinv1.
    destruct (IH _ _ _ _ _ Ht1 Hinv1 Hrun1) as (tv' & -> & Htv' & Hc & Hinv' & -> & Hcols).
    exists tv'. rewrite list_insert_insert_eq.
    split; [done|]. split; [done|]. split; [by eapply cached_trans|]. split; [done|]. split.
    + rewrite (keptSorters_cached _ _ _ Hc1), (keptSorters_cons _ _ _ _ _ Hview Hsorter).
      by rewrite app_assoc.
    + intros c Hcin. apply elem_of_cons in Hcin as [->|Hcin].
      * split; [|by exists seq, sorter].
        eexists. eapply cached_cols; [exact Hc|]. by apply afterColumn_cols.
      * destruct (Hcols c Hcin) as [Hs (seq' & sorter' & Hv' & Hs')].
        split; [done|]. exists seq', sorter'. split; [|done].
        by rewrite <- (cached_view _ _ Hc1).
Qed.

(** The loop succeeds when every column exists and has an order. *)
Lemma makeSorters_fold_ok t cs : ∀ acc (h : heap) tv,
  h !! t = Some tv → table_inv tv →
  (∀ col, col ∈ cs → sortable tv col) →
  ∃ sorters h', foldM (sorterStep t) acc cs h = (Ok sorters, h').
Proof.
  induction cs as [|col cs IH]; intros acc h tv Ht Hinv Hcols.
  - by eexists _, _.
  - simpl. destruct (Hcols col) as (seq & sorter & Hview & Hsorter); [by left|].
    erewrite bind_Ok; [|rewrite (sorterStep_eq _ _ _ _ _ Ht), Hview, Hsorter; reflexivity].
    eapply IH.
    + apply list_lookup_insert_eq. by eapply lookup_lt_Some.
    + by apply afterColumn_inv.
    + intros c Hc. destruct (Hcols c) as (seq' & sorter' & Hv' & Hs'); [by right|].
      exists seq', sorter'. split; [|done].
      by rewrite (cached_view _ _ (afterColumn_cached tv col)).
Qed.

(** ** Permuting the columns of a Table *)

Lemma columnView_Some tv name :
  table_inv tv → name ∈ names (colNames tv) →
  ∃ s, columnView tv name = Some s ∧ sliceLen s = len tv.
Proof.
  intros Hinv Hin. apply (inv_names _ Hinv) in Hin. unfold columnView.
  destruct (cols tv !! name) as [c|] eqn:Hc.
  - exists c. split; [done|]. by eapply inv_len.
  - destruct Hin as [[? ?]|[v Hv]]; [done|]. rewrite Hv. simpl.
    eexists. split; [done|]. apply sliceLen_Repeat.
Qed.

Lemma columnView_len tv name s :
  table_inv tv → columnView tv name = Some s → sliceLen s = len tv.
Proof.
  intros Hinv. unfold columnView. destruct (cols tv !! name) eqn:Hc.
  - intros [= <-]. by eapply inv_len.
  - destruct (consts tv !! name); simpl; [|done]. intros [= <-]. apply sliceLen_Repeat.
Qed.

Lemma permuteStep_cached tv tv' perm nt name :
  cached tv tv' → permuteStep tv' perm nt name = permuteStep tv perm nt name.
Proof. intros Hc. unfold permuteStep. by rewrite (cached_view _ _ Hc). Qed.

Lemma permuteStep_fold_cached tv tv' perm columns nt :
  cached tv tv' →
  foldl (permuteStep tv' perm) nt columns = foldl (permuteStep tv perm) nt columns.
Proof.
  intros Hc. revert nt. induction columns as [|c columns IH]; intros nt; [done|].
  simpl. by rewrite IH, (permuteStep_cached _ _ _ _ _ Hc).
Qed.

Lemma permuteStep_building tv perm ntv name :
  table_inv tv → Forall (λ i, i < len tv) perm →
  building perm ntv → building perm (permuteStep tv perm ntv name).
Proof.
  intros Hinv Hperm [Hnt Hlen]. unfold permuteStep.
  destruct (columnView tv name) as [s|] eqn:Hview; simpl; [|done].
  destruct (MultiIndex s perm) as [s'|] eqn:Hs'; [|done].
  split; [|done]. apply withColumn_inv; [done| |].
  - rewrite <- (columnView_len _ _ _ Hinv Hview) in Hperm.
    destruct (MultiIndex_Some s perm Hperm) as (s'' & Hs'' & Hl & _). congruence.
  - intros Hne. apply Hlen. intros He. apply Hne. rewrite He. apply delete_empty.
Qed.

Lemma permuteColumn_eq (h : heap) t tv perm nt ntv name :
  h !! t = Some tv → table_inv tv → h !! nt = Some ntv → nt ≠ t →
  building perm ntv → Forall (λ i, i < len tv) perm →
  name ∈ names (colNames tv) →
  permuteColumn t perm nt name h
  = (Ok (length h), <[t := afterColumn tv name]> h ++ [permuteStep tv perm ntv name]).
Proof.
  intros Ht Hinv Hnt Hne [Hntinv Hlen] Hperm Hin.
  destruct (columnView_Some _ _ Hinv Hin) as (s & Hview & Hs).
  rewrite <- Hs in Hperm.
  destruct (MultiIndex_Some s perm Hperm) as (s' & Hs' & Hl & _).
  unfold permuteColumn. erewrite bind_Ok; [|by apply Table_Column_eq].
  rewrite Hview, Hs'. unfold permuteStep. rewrite Hview. simpl. rewrite Hs'.
  assert (Hnt1 : <[t := afterColumn tv name]> h !! nt = Some ntv)
    by by rewrite list_lookup_insert_ne.
  rewrite (Table_Add_slice _ _ _ _ _ Hnt1 Hntinv), length_insert.
  destruct (decide (delete name (cols ntv) = ∅)) as [He|He]; [by rewrite Hl|].
  assert (Hlen' : len ntv = length perm).
  { apply Hlen. intros He'. apply He. rewrite He'. apply delete_empty. }
  rewrite decide_True by congruence. by rewrite Hlen'.
Qed.

Lemma permuteColumns_fold t perm columns : ∀ (h : heap) tv nt ntv,
  heap_inv h → h !! t = Some tv → h !! nt = Some ntv → nt ≠ t →
  building perm ntv → Forall (λ i, i < len tv) perm →
  Forall (λ name, name ∈ names (colNames tv)) columns →
  ∃ nt' tv' h',
    foldM (permuteColumn t perm) nt columns h = (Ok nt', h')
    ∧ h' !! nt' = Some (foldl (permuteStep tv perm) ntv columns)
    ∧ h' !! t = Some tv' ∧ cached tv tv' ∧ heap_inv h'
    ∧ length h ≤ length h' ∧ nt ≤ nt'
    ∧ (∀ l, l < length h → l ≠ t → h' !! l = h !! l).
Proof.
  induction columns as [|name columns IH]; intros h tv nt ntv Hh Ht Hnt Hne Hb Hperm Hcols.
  - exists nt, tv, h. simpl. unfold ret. split; [done|]. split; [done|]. split; [done|].
    split; [apply cached_refl|]. done.
  - apply Forall_cons in Hcols as [Hname Hcols]. simpl.
    pose proof (Hh _ _ Ht) as Hinv.
    erewrite bind_Ok; [|by eapply permuteColumn_eq].
    set (tv1 := afterColumn tv name). set (ntv1 := permuteStep tv perm ntv name).
    set (h1 := <[t := tv1]> h ++ [ntv1]).
    pose proof (lookup_lt_Some _ _ _ Ht) as Htl.
    pose proof (lookup_lt_Some _ _ _ Hnt) as Hntl.
    pose proof (afterColumn_cached tv name) as Hc1.
    assert (Hb1 : building perm ntv1) by by apply permuteStep_building.
    assert (Hh1 : heap_inv h1).
    { apply heap_inv_alloc; [|apply Hb1]. apply heap_inv_store; [done|].
      by apply afterColumn_inv. }
    assert (Ht1 : h1 !! t = Some tv1).
    { subst h1. rewrite lookup_app_l by (rewrite length_insert; lia).
      by apply list_lookup_insert_eq. }
    assert (Hnt1 : h1 !! length h = Some ntv1).
    { subst h1. rewrite lookup_app_r by (rewrite length_insert; lia).
      by rewrite length_insert, Nat.sub_diag. }
    assert (Hperm1 : Forall (λ i, i < len tv1) perm).
    { replace (len tv1) with (len tv); [done|]. symmetry. apply Hc1. }
    assert (Hcols1 : Forall (λ name, name ∈ names (colNames tv1)) columns).
    { replace (colNames tv1) with (colNames tv); [done|]. symmetry. apply Hc1. }
    destruct (IH h1 tv1 (length h) ntv1 Hh1 Ht1 Hnt1 ltac:(lia) Hb1 Hperm1 Hcols1)
      as (nt' & tv' & h' & Hrun & Hres & Ht' & Hc' & Hh' & Hlen & Hle & Hsame).
    exists nt', tv', h'. split; [done|]. split.
    { by rewrite Hres, (permuteStep_fold_cached _ _ _ _ _ Hc1). }
    split; [done|]. split; [by eapply cached_trans|]. split; [done|].
    assert (Hl1 : length h1 = S (length h)).
    { subst h1. rewrite length_app, length_insert. simpl. lia. }
    split; [lia|]. split; [lia|].
    intros l Hl Hlt. rewrite Hsame by lia. subst h1.
    rewrite lookup_app_l by (rewrite length_insert; lia).
    by rewrite list_lookup_insert_ne.
Qed.

(** ** One group of [SortBy] *)

Lemma rowPerm_perm tv cs : rowPerm tv cs ≡ₚ seq 0 (len tv).
Proof. unfold rowPerm, sortPerm. simpl. apply Stable_perm. Qed.

Lemma rowPerm_bound tv cs : Forall (λ i, i < len tv) (rowPerm tv cs).
Proof.
  apply Forall_forall. intros i Hi. rewrite rowPerm_perm in Hi.
  apply elem_of_seq in Hi. lia.
Qed.

Lemma rowPerm_length tv cs : length (rowPerm tv cs) = len tv.
Proof. by rewrite rowPerm_perm, length_seq. Qed.

Lemma emptyTable_building perm : building perm emptyTable.
Proof. split; [apply emptyTable_inv|done]. Qed.

Lemma permuteTable_eq (h : heap) t tv cs :
  heap_inv h → h !! t = Some tv →
  ∃ nt tv' h',
    permuteTable t (keptSorters tv cs) h = (Ok nt, h')
    ∧ h' !! nt = Some (permutedTable tv (rowPerm tv cs))
    ∧ h' !! t = Some tv' ∧ cached tv tv' ∧ heap_inv h'
    ∧ length h ≤ length h' ∧ length h ≤ nt
    ∧ (∀ l, l < length h → l ≠ t → h' !! l = h !! l).
Proof.
  intros Hh Ht. pose proof (lookup_lt_Some _ _ _ Ht) as Htl.
  assert (Ht1 : (h ++ [emptyTable]) !! t = Some tv) by by apply lookup_app_l_Some.
  assert (Hnt1 : (h ++ [emptyTable]) !! length h = Some emptyTable).
  { rewrite lookup_app_r by lia. by rewrite Nat.sub_diag. }
  assert (Hh1 : heap_inv (h ++ [emptyTable])).
  { apply heap_inv_alloc; [done|apply emptyTable_inv]. }
  destruct (permuteColumns_fold t (rowPerm tv cs) (names (colNames tv))
              (h ++ [emptyTable]) tv (length h) emptyTable Hh1 Ht1 Hnt1 ltac:(lia)
              (emptyTable_building _) (rowPerm_bound tv cs))
    as (nt' & tv' & h' & Hrun & Hres & Ht' & Hc & Hh' & Hlen & Hle & Hsame).
  { by apply Forall_forall. }
  exists nt', tv', h'. split.
  { unfold permuteTable, Table_Len, Table_Columns, permuteColumns. munfold.
    rewrite Ht. simpl. rewrite Ht1. exact Hrun. }
  split; [done|]. split; [done|]. split; [done|]. split; [done|].
  rewrite length_app in Hlen. simpl in Hlen. split; [lia|]. split; [lia|].
  intros l Hl Hne. rewrite Hsame by (rewrite ?length_app; simpl; lia).
  by rewrite lookup_app_l by lia.
Qed.

Lemma sortTable_unfold t cs :
  sortTable (Some t) cs
  = bind (makeSorters t cs)
         (λ sorters, match sorters with
                     | [] => ret (Some t)
                     | _ => let* nt := permuteTable t sorters in ret (Some nt)
                     end).
Proof. destruct cs; reflexivity. Qed.

(** What a successful [sortTable] has done. *)
Lemma sortTable_spec (h : heap) t tv cs r h' :
  heap_inv h → h !! t = Some tv →
  sortTable (Some t) cs h = (Ok r, h') →
  ∃ tv', h' !! t = Some tv' ∧ cached tv tv' ∧ heap_inv h'
         ∧ length h ≤ length h'
         ∧ (∀ l, l < length h → l ≠ t → h' !! l = h !! l)
         ∧ (∀ col, col ∈ cs → is_Some (cols tv' !! col) ∧ sortable tv col)
         ∧ match keptSorters tv cs with
           | [] => r = Some t ∧ length h' = length h
           | _ => ∃ nt, r = Some nt ∧ length h ≤ nt
                        ∧ h' !! nt = Some (permutedTable tv (rowPerm tv cs))
           end.
Proof.
  intros Hh Ht Hrun. rewrite sortTable_unfold in Hrun.
  apply bind_Ok_inv in Hrun as (sorters & h1 & Hmk & Hrun).
  pose proof (lookup_lt_Some _ _ _ Ht) as Htl.
  destruct (makeSorters_fold _ _ _ _ _ _ _ Ht (Hh _ _ Ht) Hmk)
    as (tv1 & -> & _ & Hc1 & Hinv1 & -> & Hcols).
  simpl in Hrun. assert (Ht1 : <[t := tv1]> h !! t = Some tv1) by by apply list_lookup_insert_eq.
  assert (Hh1 : heap_inv (<[t := tv1]> h)) by by apply heap_inv_store.
  destruct (keptSorters tv cs) as [|sorter sorters] eqn:Hk.
  - unfold ret in Hrun. simplify_eq. exists tv1.
    split; [done|]. split; [done|]. split; [done|].
    rewrite length_insert. split; [done|]. split.
    { intros l _ Hne. by rewrite list_lookup_insert_ne. }
    split; [|done]. intros col Hcol. destruct (Hcols col Hcol) as [H1 H2]. split; [done|].
    done.
  - destruct (permuteTable_eq _ _ _ cs Hh1 Ht1)
      as (nt & tv' & h2 & Hperm & Hnt & Ht' & Hc & Hh' & Hlen & Hle & Hsame).
    rewrite (keptSorters_cached _ _ _ Hc1), Hk in Hperm.
    erewrite bind_Ok in Hrun by exact Hperm. unfold ret in Hrun. simplify_eq.
    rewrite length_insert in *.
    exists tv'. split; [done|]. split; [by eapply cached_trans|]. split; [done|].
    split; [done|]. split.
    { intros l Hl Hne. rewrite Hsame by done. by rewrite list_lookup_insert_ne. }
    split.
    { intros col Hcol. destruct (Hcols col Hcol) as [[s Hs] H2]. split; [|done].
      exists s. by eapply cached_cols. }
    exists nt. split; [done|]. split; [done|]. rewrite Hnt. f_equal.
    unfold permutedTable, rowPerm.
    rewrite (cached_names _ _ Hc1), (cached_len _ _ Hc1), (keptSorters_cached _ _ _ Hc1).
    by apply permuteStep_fold_cached.
Qed.

(** [sortTable] succeeds when every sort column exists and has an order. *)
Lemma sortTable_ok (h : heap) t tv cs :
  heap_inv h → h !! t = Some tv → (∀ col, col ∈ cs → sortable tv col) →
  ∃ r h', sortTable (Some t) cs h = (Ok r, h').
Proof.
  intros Hh Ht Hcols. rewrite sortTable_unfold.
  destruct (makeSorters_fold_ok t cs [] h tv Ht (Hh _ _ Ht) Hcols) as (sorters & h1 & Hmk).
  erewrite bind_Ok by exact Hmk.
  pose proof (lookup_lt_Some _ _ _ Ht) as Htl.
  destruct (makeSorters_fold _ _ _ _ _ _ _ Ht (Hh _ _ Ht) Hmk)
    as (tv1 & -> & _ & Hc1 & Hinv1 & -> & _).
  simpl. destruct (keptSorters tv cs) as [|sorter sorters] eqn:Hk; [by eexists _, _|].
  assert (Ht1 : <[t := tv1]> h !! t = Some tv1) by by apply list_lookup_insert_eq.
  assert (Hh1 : heap_inv (<[t := tv1]> h)) by by apply heap_inv_store.
  destruct (permuteTable_eq _ _ _ cs Hh1 Ht1) as (nt & tv' & h2 & Hperm & _).
  rewrite (keptSorters_cached _ _ _ Hc1), Hk in Hperm.
  erewrite bind_Ok by exact Hperm. by eexists _, _.
Qed.

(** ** [groupedTable.AddTable] *)

Section Evict.
Context (g : groupedTable) (gid : GroupID).

Lemma evict_fold_groups l acc :
  groups (foldl (evictStep g gid) acc l) = groups acc ++ filter (λ gid2, gid ≠ gid2) l.
Proof.
  revert acc. induction l as [|x l IH]; intros acc; simpl.
  - by rewrite app_nil_r.
  - rewrite IH. unfold evictStep. destruct (decide (gid = x)) as [->|Hne].
    + by rewrite filter_cons_False by naive_solver.
    + rewrite filter_cons_True by done. simpl. by rewrite <- app_assoc.
Qed.

Lemma evict_fold_colNames l acc :
  gcolNames (foldl (evictStep g gid) acc l) = gcolNames acc.
Proof.
  revert acc. induction l as [|x l IH]; intros acc; simpl; [done|].
  rewrite IH. unfold evictStep. by destruct (decide (gid = x)).
Qed.

Lemma evict_fold_tables l acc k :
  tables (foldl (evictStep g gid) acc l) !! k =
    if decide (k ≠ gid ∧ k ∈ l)
    then match tables g !! k with Some t => Some t | None => tables acc !! k end
    else tables acc !! k.
Proof.
  revert acc. induction l as [|x l IH]; intros acc; simpl.
  - case_decide as H; [|done]. destruct H as [_ H]. by apply elem_of_nil in H.
  - rewrite IH. unfold evictStep. destruct (decide (gid = x)) as [->|Hne].
    + dec_solve.
    + simpl. destruct (decide (k = x)) as [->|Hkx].
      * destruct (tables g !! x) eqn:Hx.
        -- rewrite lookup_insert_eq. dec_solve.
        -- dec_solve.
      * assert (Hins : (match tables g !! x with
                        | Some t => <[x:=t]> (tables acc)
                        | None => tables acc end) !! k = tables acc !! k).
        { destruct (tables g !! x); [by rewrite lookup_insert_ne|done]. }
        rewrite Hins. dec_solve.
Qed.

Lemma evict_eq : grouped_wf g → evict g gid = withoutGroup g gid.
Proof.
  intros [Hnd Hdom]. unfold evict.
  set (r := foldl (evictStep g gid) (mkGrouped ∅ [] (gcolNames g)) (groups g)).
  assert (Hg : groups r = filter (λ gid2, gid ≠ gid2) (groups g)).
  { subst r. by rewrite evict_fold_groups. }
  assert (Hc : gcolNames r = gcolNames g).
  { subst r. by rewrite evict_fold_colNames. }
  assert (Ht : tables r = delete gid (tables g)).
  { apply map_eq. intros k. subst r. rewrite evict_fold_tables. simpl.
    destruct (decide (k = gid)) as [->|Hk].
    - rewrite lookup_delete_eq. case_decide; naive_solver.
    - rewrite lookup_delete_ne by done. case_decide as H.
      + by destruct (tables g !! k).
      + destruct (tables g !! k) eqn:Hl; [|done]. exfalso. apply H. split; [done|].
        apply Hdom. by eexists. }
  unfold withoutGroup. rewrite <- Hg, <- Hc, <- Ht. by destruct r.
Qed.
End Evict.

Lemma withoutGroup_wf g gid : grouped_wf g → grouped_wf (withoutGroup g gid).
Proof.
  intros [Hnd Hdom]. split; simpl.
  - by apply NoDup_filter.
  - intros k. rewrite list_elem_of_filter, Hdom. destruct (decide (k = gid)) as [->|Hk].
    + rewrite lookup_delete_eq. split; [naive_solver|]. by intros [? ?].
    + rewrite lookup_delete_ne by done. naive_solver.
Qed.

Lemma withoutGroup_id g gid : grouped_wf g → gid ∉ groups g → withoutGroup g gid = g.
Proof.
  intros [Hnd Hdom] Hgid. unfold withoutGroup.
  rewrite delete_id.
  - replace (filter (λ gid2, gid ≠ gid2) (groups g)) with (groups g); [by destruct g|].
    clear Hnd Hdom. induction (groups g) as [|x l IH]; [done|].
    rewrite filter_cons_True.
    + f_equal. apply IH. intros H. apply Hgid. by right.
    + intros ->. apply Hgid. by left.
  - apply eq_None_not_Some. by rewrite <- Hdom.
Qed.

Lemma groupedTable_AddTable_eq (h : heap) g gid t tv :
  h !! t = Some tv → colNames tv ≠ None →
  groupedTable_AddTable g gid (Some t) h
  = (match validate h (evict g gid) tv with
     | Ok _ => Ok (withGroup (evict g gid) gid t tv)
     | Panicked e => Panicked e
     end, h).
Proof.
  intros Ht Hne. unfold groupedTable_AddTable. erewrite bind_Ok by (munfold; by rewrite Ht).
  rewrite bool_decide_eq_false_2 by done. unfold validate, withGroup.
  destruct (groups (evict g gid)) as [|gid0 gids] eqn:Hg; [done|].
  destruct (names (gcolNames (evict g gid))) as [|c schema] eqn:Hs.
  - munfold. by destruct (checkExtra tv []).
  - unfold bind, nonNil, load, liftResult, ret, panic.
    destruct (tables (evict g gid) !! gid0) as [tBase|]; [|done].
    destruct (h !! tBase) as [tBasev|]; [|done].
    destruct (checkColumns tBasev tv (c :: schema)); [|done].
    by destruct (checkExtra tv (c :: schema)).
Qed.

Lemma groupedTable_AddTable_empty (h : heap) g gid t tv :
  h !! t = Some tv → colNames tv = None →
  groupedTable_AddTable g gid (Some t) h = (Ok g, h).
Proof.
  intros Ht Hn. unfold groupedTable_AddTable. erewrite bind_Ok by (munfold; by rewrite Ht).
  by rewrite bool_decide_eq_true_2.
Qed.

Lemma Table_isEmpty_eq (h : heap) t tv :
  h !! t = Some tv → Table_isEmpty t h = (Ok (bool_decide (colNames tv = None)), h).
Proof. intros Ht. unfold Table_isEmpty. munfold. by rewrite Ht. Qed.

(** [AddTable] on a Grouping is [AddTable] on its view as a
    [groupedTable]. *)
Lemma Grouping_AddTable_view (h : heap) out og gid t tv :
  asGrouped h out = Some og →
  h !! t = Some tv → colNames tv ≠ None →
  match groupedTable_AddTable og gid (Some t) h with
  | (Ok og', _) => ∃ out', Grouping_AddTable out gid (Some t) h = (Ok out', h)
                           ∧ asGrouped h out' = Some og'
  | (Panicked e, _) => Grouping_AddTable out gid (Some t) h = (Panicked e, h)
  end.
Proof.
  intros Hog Ht Hne. destruct out as [t0|g0]; simpl in Hog.
  - destruct (h !! t0) as [tv0|] eqn:Ht0; simpl in Hog; [|done]. simplify_eq.
    unfold Grouping_AddTable, Table_AddTable.
    erewrite bind_Ok by by apply Table_isEmpty_eq.
    rewrite bool_decide_eq_false_2 by done.
    rewrite (groupedTable_AddTable_eq _ _ _ _ _ Ht Hne).
    destruct (decide (gid = RootGroupID)) as [->|Hgid].
    + (* the Table at the root replaces the receiver *)
      assert (Hev : evict (match colNames tv0 with
                           | Some _ => mkGrouped {[RootGroupID := t0]} [RootGroupID] (colNames tv0)
                           | None => mkGrouped ∅ [] None
                           end) RootGroupID
                    = mkGrouped ∅ [] (match colNames tv0 with
                                       | Some _ => colNames tv0 | None => None end)).
      { destruct (colNames tv0); [|done]. unfold evict. simpl. unfold evictStep.
        by rewrite decide_True. }
      rewrite Hev. unfold validate. simpl. eexists. split; [reflexivity|]. simpl. rewrite Ht. simpl.
      destruct (colNames tv) eqn:E; [|done]. unfold withGroup. simpl.
      by rewrite insert_empty, ?E.
    + destruct (colNames tv0) as [cn|] eqn:Hcn.
      * (* the receiver becomes the root group *)
        erewrite bind_Ok.
        2:{ rewrite (groupedTable_AddTable_eq _ _ _ _ _ Ht0) by congruence.
            unfold evict, validate. simpl. reflexivity. }
        unfold withGroup. simpl. rewrite insert_empty, Hcn.
        unfold bind. rewrite (groupedTable_AddTable_eq _ _ _ _ _ Ht Hne).
        destruct (validate h _ tv); [|done]. eexists. by split.
      * erewrite bind_Ok by by eapply groupedTable_AddTable_empty.
        unfold bind. rewrite (groupedTable_AddTable_eq _ _ _ _ _ Ht Hne).
        destruct (validate h _ tv); [|done]. eexists. by split.
  - simplify_eq. unfold Grouping_AddTable, bind.
    destruct (groupedTable_AddTable og gid (Some t) h) as [[og'|e] h'] eqn:Hadd.
    + rewrite (groupedTable_AddTable_eq _ _ _ _ _ Ht Hne) in Hadd.
      destruct (validate h _ tv); simplify_eq. eexists. by split.
    + rewrite (groupedTable_AddTable_eq _ _ _ _ _ Ht Hne) in Hadd.
      destruct (validate h _ tv); by simplify_eq.
Qed.

(** ** Observing a Grouping through its view *)

Lemma Grouping_Tables_view (h : heap) out og :
  asGrouped h out = Some og → Grouping_Tables out h = (Ok (groups og), h).
Proof.
  destruct out as [t|g]; simpl; [|by intros [= ->]].
  destruct (h !! t) as [tv|] eqn:Ht; simpl; [|done]. intros [= <-].
  unfold Table_Tables. erewrite bind_Ok by by apply Table_isEmpty_eq.
  destruct (colNames tv); by simpl.
Qed.

Lemma Grouping_Table_view (h : heap) out og gid :
  asGrouped h out = Some og → Grouping_Table out gid h = (Ok (tables og !! gid), h).
Proof.
  destruct out as [t|g]; simpl; [|by intros [= ->]].
  destruct (h !! t) as [tv|] eqn:Ht; simpl; [|done]. intros [= <-].
  unfold Table_Table. destruct (decide (gid = RootGroupID)) as [->|Hne].
  - erewrite bind_Ok by by apply Table_isEmpty_eq.
    destruct (colNames tv); simpl; [|done]. by rewrite lookup_singleton_eq.
  - destruct (colNames tv); simpl; [|done]. by rewrite lookup_singleton_ne.
Qed.

Lemma Grouping_Columns_view (h : heap) out og :
  asGrouped h out = Some og → Grouping_Columns out h = (Ok (gcolNames og), h).
Proof.
  destruct out as [t|g]; simpl; [|by intros [= ->]].
  destruct (h !! t) as [tv|] eqn:Ht; simpl; [|done]. intros [= <-].
  unfold Table_Columns. munfold. rewrite Ht. by destruct (colNames tv).
Qed.

Lemma asGrouped_agree (h h' : heap) out :
  (∀ t, out = GTable t → h' !! t = h !! t) → asGrouped h' out = asGrouped h out.
Proof. intros H. destruct out as [t|g]; simpl; [|done]. by rewrite (H t). Qed.

(** ** Tables that [SortBy] leaves alone *)

Lemma afterColumn_fold_id tv cs :
  (∀ col, col ∈ cs → is_Some (cols tv !! col)) → foldl afterColumn tv cs = tv.
Proof.
  induction cs as [|col cs IH]; intros Hcs; simpl; [done|].
  rewrite afterColumn_id by (apply Hcs; by left). apply IH.
  intros c Hc. apply Hcs. by right.
Qed.

Lemma sortTable_settled (h : heap) t cs r h' :
  heap_inv h → settled cs h t →
  sortTable (Some t) cs h = (Ok r, h') → r = Some t ∧ h' = h.
Proof.
  intros Hh (tv & Ht & Hcs & Hk) Hrun. rewrite sortTable_unfold in Hrun.
  apply bind_Ok_inv in Hrun as (sorters & h1 & Hmk & Hrun).
  destruct (makeSorters_fold _ _ _ _ _ _ _ Ht (Hh _ _ Ht) Hmk)
    as (tv1 & -> & -> & _ & _ & -> & _).
  rewrite Hk in Hrun. simpl in Hrun. unfold ret in Hrun. simplify_eq.
  split; [done|]. rewrite afterColumn_fold_id by done. by apply list_insert_id.
Qed.

Lemma sortTable_frozen (h : heap) n0 t tv cs r h' l :
  heap_inv h → h !! t = Some tv → t < n0 →
  sortTable (Some t) cs h = (Ok r, h') →
  frozen n0 cs h l → h' !! l = h !! l ∧ frozen n0 cs h' l.
Proof.
  intros Hh Ht Hn Hrun [Hl Hfr].
  assert (Hsame : h' !! l = h !! l).
  { destruct (decide (l = t)) as [->|Hne].
    - destruct Hfr as [?|Hs]; [lia|].
      by destruct (sortTable_settled _ _ _ _ _ Hh Hs Hrun) as [_ ->].
    - destruct (sortTable_spec _ _ _ _ _ _ Hh Ht Hrun) as (tv' & _ & _ & _ & _ & Hs & _).
      by apply Hs. }
  split; [done|].
  destruct (sortTable_spec _ _ _ _ _ _ Hh Ht Hrun) as (tv' & _ & _ & _ & Hlen & _).
  split; [lia|]. destruct Hfr as [?|(tvl & Htvl & Hs)]; [by left|right].
  exists tvl. split; [congruence|done].
Qed.

(** ** [AddTable] reads the added Table and the first group only *)

Lemma evict_tables_sub g gid k l :
  tables (evict g gid) !! k = Some l → tables g !! k = Some l.
Proof.
  unfold evict. rewrite evict_fold_tables. simpl. case_decide; [|done].
  by destruct (tables g !! k).
Qed.

Lemma validate_agree (h h2 : heap) ng tv :
  (∀ gid l, tables ng !! gid = Some l → h2 !! l = h !! l) →
  validate h2 ng tv = validate h ng tv.
Proof.
  intros Hag. unfold validate. destruct (groups ng) as [|gid0 ?]; [done|].
  destruct (names (gcolNames ng)); [done|].
  destruct (tables ng !! gid0) as [tBase|] eqn:Hb; [|done].
  by rewrite (Hag _ _ Hb).
Qed.

Lemma groupedTable_AddTable_agree (h h2 : heap) og gid t :
  h2 !! t = h !! t →
  (∀ gid2 l, tables og !! gid2 = Some l → h2 !! l = h !! l) →
  (groupedTable_AddTable og gid (Some t) h2).1 = (groupedTable_AddTable og gid (Some t) h).1.
Proof.
  intros Ht Hag. destruct (h !! t) as [tv|] eqn:Htv.
  - destruct (decide (colNames tv = None)) as [Hn|Hn].
    + rewrite (groupedTable_AddTable_empty _ _ _ _ _ Htv Hn).
      by rewrite (groupedTable_AddTable_empty _ _ _ _ tv) by congruence.
    + rewrite (groupedTable_AddTable_eq _ _ _ _ _ Htv Hn).
      rewrite (groupedTable_AddTable_eq _ _ _ _ tv) by congruence. simpl.
      rewrite (validate_agree h h2); [done|].
      intros gid2 l Hl. apply (Hag gid2). by eapply evict_tables_sub.
  - unfold groupedTable_AddTable. by rewrite !load_None.
Qed.

Lemma replay_agree (h h2 : heap) binds : ∀ og,
  (∀ b, b ∈ binds → h2 !! b.2 = h !! b.2) →
  (∀ gid l, tables og !! gid = Some l → h2 !! l = h !! l) →
  replay h2 og binds = replay h og binds.
Proof.
  induction binds as [|[gid t] binds IH]; intros og Hb Hog; simpl; [done|].
  rewrite (groupedTable_AddTable_agree h h2) by (try done; apply (Hb (gid, t)); by left).
  destruct (h !! t) as [tv|] eqn:Htv.
  - destruct (decide (colNames tv = None)) as [Hn|Hn].
    + rewrite (groupedTable_AddTable_empty _ _ _ _ _ Htv Hn). simpl.
      apply IH; [|done]. intros b Hin. apply Hb. by right.
    + rewrite (groupedTable_AddTable_eq _ _ _ _ _ Htv Hn). simpl.
      destruct (validate h (evict og gid) tv); [|done].
      apply IH; [intros b Hin; apply Hb; by right|].
      intros gid2 l. unfold withGroup. simpl. intros Hl.
      apply lookup_insert_Some in Hl as [[_ <-]|[_ Hl]].
      * apply (Hb (gid, t)). by left.
      * apply (Hog gid2). by eapply evict_tables_sub.
  - unfold groupedTable_AddTable. by rewrite load_None.
Qed.

(** ** The permuted Table *)

Lemma permuteStep_eq tv perm nt name :
  table_inv tv → Forall (λ i, i < len tv) perm → name ∈ names (colNames tv) →
  ∃ s s', columnView tv name = Some s ∧ MultiIndex s perm = Some s'
          ∧ sliceLen s' = length perm
          ∧ permuteStep tv perm nt name = withColumn nt name s' (length perm).
Proof.
  intros Hinv Hperm Hin. destruct (columnView_Some _ _ Hinv Hin) as (s & Hview & Hs).
  rewrite <- Hs in Hperm. destruct (MultiIndex_Some s perm Hperm) as (s' & Hs' & Hl & _).
  exists s, s'. split; [done|]. split; [done|]. split; [done|].
  unfold permuteStep. rewrite Hview. simpl. by rewrite Hs'.
Qed.

Lemma permuteStep_fold_spec tv perm l : ∀ acc,
  table_inv tv → Forall (λ i, i < len tv) perm →
  NoDup l → (∀ n, n ∈ l → n ∈ names (colNames tv) ∧ n ∉ names (colNames acc)) →
  let r := foldl (permuteStep tv perm) acc l in
  consts r = foldr delete (consts acc) l
  ∧ names (colNames r) = names (colNames acc) ++ l
  ∧ (l ≠ [] → colNames r = Some (names (colNames acc) ++ l) ∧ len r = length perm)
  ∧ ∀ k, cols r !! k = if decide (k ∈ l)
                       then columnView tv k ≫= (λ s, MultiIndex s perm)
                       else cols acc !! k.
Proof.
  intros acc Hinv Hperm. revert acc.
  induction l as [|name l IH]; intros acc Hnd Hl; simpl.
  - split; [done|]. split; [by rewrite app_nil_r|]. split; done.
  - apply NoDup_cons in Hnd as [Hname Hnd].
    destruct (Hl name) as [Hin Hnotin]; [by left|].
    destruct (permuteStep_eq tv perm acc name Hinv Hperm Hin)
      as (s & s' & Hview & Hs' & Hlen & Hstep).
    rewrite Hstep.
    assert (Hnames1 : names (colNames (withColumn acc name s' (length perm)))
                      = names (colNames acc) ++ [name]).
    { simpl. by rewrite otherNames_id. }
    destruct (IH (withColumn acc name s' (length perm)) Hnd) as (Hc & Hn & Hne & Hcols).
    { intros n Hn. destruct (Hl n) as [H1 H2]; [by right|]. split; [done|].
      rewrite Hnames1, elem_of_app, list_elem_of_singleton.
      intros [H|H]; [done|]. subst n. done. }
    split; [|split; [|split]].
    + rewrite Hc. simpl. clear. induction l as [|x l IH]; simpl; [done|].
      by rewrite IH, delete_delete.
    + rewrite Hn, Hnames1. by rewrite <- app_assoc.
    + intros _. destruct l as [|x l].
      * simpl. split; [by rewrite otherNames_id|done].
      * destruct Hne as [Hcn Hlen']; [done|]. split; [|done].
        rewrite Hcn, Hnames1. by rewrite <- app_assoc.
    + intros k. rewrite Hcols. simpl. destruct (decide (k = name)) as [->|Hk].
      * rewrite decide_False by done. rewrite decide_True by by left.
        rewrite lookup_insert_eq, Hview. simpl. by rewrite Hs'.
      * rewrite lookup_insert_ne, lookup_delete_ne by done.
        destruct (decide (k ∈ l)).
        -- rewrite decide_True; [done|]. by right.
        -- rewrite decide_False; [done|]. rewrite elem_of_cons. naive_solver.
Qed.

Section PermutedTable.
Context (tv : Table) (perm : list nat).
Context (Hinv : table_inv tv) (Hperm : Forall (λ i, i < len tv) perm).

Lemma permutedTable_spec :
  let r := permutedTable tv perm in
  consts r = ∅
  ∧ names (colNames r) = names (colNames tv)
  ∧ (colNames tv ≠ None → colNames r = colNames tv ∧ len r = length perm)
  ∧ ∀ k, cols r !! k = columnView tv k ≫= (λ s, MultiIndex s perm).
Proof.
  destruct (permuteStep_fold_spec tv perm (names (colNames tv)) emptyTable Hinv Hperm)
    as (Hc & Hn & Hne & Hcols).
  { apply Hinv. }
  { intros n Hn. split; [done|]. apply not_elem_of_nil. }
  fold (permutedTable tv perm) in Hc, Hn, Hne, Hcols. simpl in *.
  split; [|split; [|split]].
  - rewrite Hc. clear. induction (names (colNames tv)) as [|x l IH]; [done|].
    simpl. rewrite IH. apply delete_empty.
  - done.
  - intros Hcn. destruct (colNames tv) as [[|x l]|] eqn:E; [|clear Hcn|done].
    + by destruct (inv_nonempty _ Hinv).
    + by apply Hne.
  - intros k. rewrite Hcols. case_decide as Hk; [done|].
    rewrite lookup_empty. unfold columnView.
    destruct (cols tv !! k) eqn:Hck.
    { exfalso. apply Hk, (inv_names _ Hinv). left. by eexists. }
    destruct (consts tv !! k) eqn:Hkk; [|done].
    exfalso. apply Hk, (inv_names _ Hinv). right. by eexists.
Qed.

Lemma permutedTable_view k :
  columnView (permutedTable tv perm) k = columnView tv k ≫= (λ s, MultiIndex s perm).
Proof.
  destruct permutedTable_spec as (Hc & _ & _ & Hcols).
  unfold columnView at 1. rewrite Hcols, Hc, lookup_empty.
  by destruct (columnView tv k ≫= (λ s, MultiIndex s perm)).
Qed.
End PermutedTable.

Lemma permutedTable_cached tv tv' perm :
  cached tv tv' → permutedTable tv' perm = permutedTable tv perm.
Proof.
  intros Hc. unfold permutedTable. rewrite (cached_names _ _ Hc).
  by apply permuteStep_fold_cached.
Qed.

Lemma rowPerm_cached tv tv' cs : cached tv tv' → rowPerm tv' cs = rowPerm tv cs.
Proof.
  intros Hc. unfold rowPerm. by rewrite (cached_len _ _ Hc), (keptSorters_cached _ _ _ Hc).
Qed.

Lemma sortedAs_cached cs n0 tv tv' t t' h' :
  cached tv tv' → sortedAs cs n0 tv' t t' h' → sortedAs cs n0 tv t t' h'.
Proof.
  intros Hc. unfold sortedAs.
  by rewrite (keptSorters_cached _ _ _ Hc), (permutedTable_cached _ _ _ Hc),
    (rowPerm_cached _ _ _ Hc).
Qed.

Lemma sortable_cached tv tv' col : cached tv tv' → sortable tv' col → sortable tv col.
Proof.
  intros Hc (seq & sorter & Hv & Hs). exists seq, sorter. split; [|done].
  by rewrite <- (cached_view _ _ Hc).
Qed.

(** ** One iteration of [SortBy] *)

Lemma heap_ext_refl h : heap_ext h h.
Proof. split; [done|]. intros l tv Hl. exists tv. split; [done|apply cached_refl]. Qed.

Lemma heap_ext_trans h1 h2 h3 : heap_ext h1 h2 → heap_ext h2 h3 → heap_ext h1 h3.
Proof.
  intros [Hl1 H1] [Hl2 H2]. split; [lia|]. intros l tv Hl.
  destruct (H1 _ _ Hl) as (tv2 & Hl2' & Hc2). destruct (H2 _ _ Hl2') as (tv3 & Hl3 & Hc3).
  exists tv3. split; [done|]. by eapply cached_trans.
Qed.

Lemma Grouping_Table_ext g gid (h h1 : heap) t :
  heap_ext h h1 →
  Grouping_Table g gid h = (Ok (Some t), h) →
  Grouping_Table g gid h1 = (Ok (Some t), h1).
Proof.
  intros [_ Hext]. destruct g as [t0|g]; simpl.
  - unfold Table_Table. destruct (decide (gid = RootGroupID)); [|done].
    destruct (h !! t0) as [tv0|] eqn:Ht0.
    + destruct (Hext _ _ Ht0) as (tv1 & Ht1 & Hc).
      erewrite !bind_Ok by by apply Table_isEmpty_eq.
      rewrite (cached_names _ _ Hc). unfold ret.
      destruct (bool_decide (colNames tv0 = None)); [done|]. by intros [= ->].
    + unfold Table_isEmpty, bind, load. by rewrite Ht0.
  - unfold ret. by intros [= ->].
Qed.

Lemma input_ok_ext g n0 (h h1 : heap) gid :
  heap_ext h h1 → input_ok g n0 h gid → input_ok g n0 h1 gid.
Proof.
  intros Hext (t & tv & HT & Hlt & Ht & Hne).
  destruct (proj2 Hext _ _ Ht) as (tv1 & Ht1 & Hc).
  exists t, tv1. split; [by eapply Grouping_Table_ext|]. split; [done|]. split; [done|].
  by rewrite (cached_names _ _ Hc).
Qed.

Lemma groupResult_ext g cs n0 (h h1 h' : heap) b :
  heap_ext h h1 → input_ok g n0 h b.1 →
  groupResult g cs n0 h1 h' b → groupResult g cs n0 h h' b.
Proof.
  intros Hext (t & tv & HT & Hlt & Ht & Hne)
         (t1 & tv1 & HT1 & _ & Ht1 & _ & Hsortable & Hsorted & Hfr & Hne').
  pose proof (Grouping_Table_ext _ _ _ _ _ Hext HT) as HT1'.
  rewrite HT1 in HT1'. simplify_eq.
  destruct (proj2 Hext _ _ Ht) as (tv1' & Ht1' & Hc). simplify_eq.
  exists t, tv. split; [done|]. split; [done|]. split; [done|]. split; [done|].
  split; [intros col Hcol; eapply sortable_cached; eauto|].
  split; [by eapply sortedAs_cached|]. done.
Qed.

Lemma sortGroup_step g cs n0 gid out og (h : heap) out1 h1 :
  heap_inv h → n0 ≤ length h → input_ok g n0 h gid →
  asGrouped h out = Some og →
  (∀ t, out = GTable t → frozen n0 cs h t) →
  (∀ gid2 l, tables og !! gid2 = Some l → frozen n0 cs h l) →
  sortGroup g cs out gid h = (Ok out1, h1) →
  ∃ t' og1,
    groupResult g cs n0 h h1 (gid, t')
    ∧ heap_inv h1 ∧ heap_ext h h1
    ∧ (∀ l, frozen n0 cs h l → h1 !! l = h !! l ∧ frozen n0 cs h1 l)
    ∧ asGrouped h1 out1 = Some og1
    ∧ (groupedTable_AddTable og gid (Some t') h1).1 = Ok og1
    ∧ (∀ t, out1 = GTable t → frozen n0 cs h1 t)
    ∧ (∀ gid2 l, tables og1 !! gid2 = Some l → frozen n0 cs h1 l).
Proof.
  intros Hh Hn0 (t & tv & HT & Hlt & Ht & Hne) Hog Hfo Hfog Hrun.
  unfold sortGroup in Hrun. erewrite bind_Ok in Hrun by exact HT.
  apply bind_Ok_inv in Hrun as (r & h1' & Hsort & Hadd).
  destruct (sortTable_spec _ _ _ _ _ _ Hh Ht Hsort)
    as (tv' & Ht' & Hc & Hh1 & Hlen & Hsame & Hcols & Hres).
  pose proof (lookup_lt_Some _ _ _ Ht) as Htl.
  (* the Table bound to the group *)
  assert (∃ t' tvt, r = Some t' ∧ sortedAs cs n0 tv t t' h1' ∧ frozen n0 cs h1' t'
                    ∧ h1' !! t' = Some tvt ∧ colNames tvt ≠ None)
    as (t' & tvt & -> & Hsorted & Hfr' & Htvt & Hnet).
  { unfold sortedAs. destruct (keptSorters tv cs) as [|sorter sorters] eqn:Hk.
    - destruct Hres as [-> Hlen']. exists t, tv'. split; [done|]. split; [done|].
      split; [|split; [done|by rewrite (cached_names _ _ Hc)]].
      split; [lia|]. right. exists tv'. split; [done|]. split; [apply Hcols|].
      by rewrite (keptSorters_cached _ _ _ Hc).
    - destruct Hres as (nt & -> & Hnt & Hntv). eexists nt, _.
      split; [done|]. split; [split; [lia|done]|].
      split; [split; [by eapply lookup_lt_Some|left; lia]|]. split; [done|].
      destruct (permutedTable_spec tv (rowPerm tv cs) (Hh _ _ Ht) (rowPerm_bound tv cs))
        as (_ & _ & Hcn & _).
      destruct (Hcn Hne) as [-> _]. done. }
  assert (Hext : heap_ext h h1').
  { split; [done|]. intros l tvl Hl. destruct (decide (l = t)) as [->|Hlt'].
    - simplify_eq. by exists tv'.
    - exists tvl. split; [|apply cached_refl]. rewrite Hsame; [done| |done].
      by eapply lookup_lt_Some. }
  assert (Hfrozen : ∀ l, frozen n0 cs h l → h1' !! l = h !! l ∧ frozen n0 cs h1' l).
  { intros l Hl. by eapply sortTable_frozen. }
  assert (Hog1 : asGrouped h1' out = Some og).
  { rewrite <- Hog. apply asGrouped_agree. intros t0 ->. by apply Hfrozen, Hfo. }
  pose proof (Grouping_AddTable_view _ _ _ gid _ _ Hog1 Htvt Hnet) as Hview.
  pose proof (groupedTable_AddTable_eq h1' og gid _ _ Htvt Hnet) as Heq.
  destruct (groupedTable_AddTable og gid (Some t') h1') as [[og1|e] hx] eqn:Hgadd.
  2:{ rewrite Hview in Hadd. done. }
  destruct Hview as (out' & Hadd' & Hog'). rewrite Hadd' in Hadd. simplify_eq.
  destruct (validate h1 (evict og gid) tvt) eqn:Hval; simplify_eq.
  assert (Hfog1 : ∀ gid2 l, tables (withGroup (evict og gid) gid t' tvt) !! gid2 = Some l
                            → frozen n0 cs h1 l).
  { intros gid2 l. unfold withGroup. simpl. intros Hl.
    apply lookup_insert_Some in Hl as [[_ <-]|[_ Hl]]; [done|].
    apply Hfrozen, (Hfog gid2). by eapply evict_tables_sub. }
  exists t', (withGroup (evict og gid) gid t' tvt).
  split. { exists t, tv. repeat (split; [done|]). split; [apply Hcols|]. eauto. }
  split; [done|]. split; [done|]. split; [done|]. split; [done|].
  split; [by rewrite Hgadd|]. split; [|done].
  intros t0 ->. simpl in Hog'. destruct (h1 !! t0) as [tv0|] eqn:Ht0; simpl in Hog'; [|done].
  assert (Hl : tables (withGroup (evict og gid) gid t' tvt) !! gid = Some t').
  { unfold withGroup. simpl. apply lookup_insert_eq. }
  injection Hog' as Hog'. rewrite <- Hog' in Hl. destruct (colNames tv0); simpl in Hl.
  - apply lookup_singleton_Some in Hl as [_ ->]. done.
  - by rewrite lookup_empty in Hl.
Qed.

(** ** The loop of [SortBy] over the groups *)

Lemma groupResult_later g cs n0 (h h1 h' : heap) b :
  (∀ l, frozen n0 cs h1 l → h' !! l = h1 !! l ∧ frozen n0 cs h' l) →
  groupResult g cs n0 h h1 b → groupResult g cs n0 h h' b.
Proof.
  intros Hfr (t & tv & HT & Hlt & Ht & Hne & Hsortable & Hsorted & Hfrb & tv' & Htv' & Hne').
  destruct (Hfr _ Hfrb) as [Hsame Hfrb'].
  exists t, tv. repeat (split; [done|]). split.
  - unfold sortedAs in *. destruct (keptSorters tv cs); [done|].
    destruct Hsorted as [? ?]. split; [done|]. congruence.
  - split; [done|]. exists tv'. split; [congruence|done].
Qed.

Lemma sortGroups_trace g cs n0 gids : ∀ out og (h : heap) out' h',
  heap_inv h → n0 ≤ length h →
  (∀ gid, gid ∈ gids → input_ok g n0 h gid) →
  asGrouped h out = Some og →
  (∀ t, out = GTable t → frozen n0 cs h t) →
  (∀ gid l, tables og !! gid = Some l → frozen n0 cs h l) →
  foldM (sortGroup g cs) out gids h = (Ok out', h') →
  ∃ binds og',
    binds.*1 = gids ∧ asGrouped h' out' = Some og' ∧ replay h' og binds = Ok og'
    ∧ heap_inv h' ∧ heap_ext h h'
    ∧ (∀ l, frozen n0 cs h l → h' !! l = h !! l ∧ frozen n0 cs h' l)
    ∧ Forall (groupResult g cs n0 h h') binds.
Proof.
  induction gids as [|gid gids IH]; intros out og h out' h' Hh Hn0 Hin Hog Hfo Hfog Hrun.
  - simpl in Hrun. unfold ret in Hrun. simplify_eq. exists [], og.
    split; [done|]. split; [done|]. split; [done|]. split; [done|].
    split; [apply heap_ext_refl|]. split; [done|]. constructor.
  - simpl in Hrun. apply bind_Ok_inv in Hrun as (out1 & h1 & Hstep & Hrun).
    destruct (sortGroup_step _ _ _ _ _ _ _ _ _ Hh Hn0 (Hin gid ltac:(by left))
                Hog Hfo Hfog Hstep)
      as (t' & og1 & Hres & Hh1 & Hext1 & Hfr1 & Hog1 & Hadd1 & Hfo1 & Hfog1).
    assert (Hn1 : n0 ≤ length h1) by (destruct Hext1; lia).
    assert (Hin1 : ∀ gid', gid' ∈ gids → input_ok g n0 h1 gid').
    { intros gid' Hg. eapply input_ok_ext; [done|]. apply Hin. by right. }
    destruct (IH _ _ _ _ _ Hh1 Hn1 Hin1 Hog1 Hfo1 Hfog1 Hrun)
      as (binds & og' & Hb & Hog' & Hreplay & Hh' & Hext' & Hfr' & Hress).
    exists ((gid, t') :: binds), og'.
    split; [by rewrite fmap_cons, Hb|]. split; [done|]. split.
    { simpl.
      assert (Hfrt : frozen n0 cs h1 t').
      { destruct Hres as (? & ? & _ & _ & _ & _ & _ & _ & Hf & _). exact Hf. }
      rewrite (groupedTable_AddTable_agree h1 h').
      - by rewrite Hadd1.
      - by apply Hfr'.
      - intros gid2 l Hl. by apply Hfr', Hfr1, (Hfog gid2). }
    split; [done|]. split; [by eapply heap_ext_trans|]. split.
    { intros l Hl. destruct (Hfr1 _ Hl) as [Hs1 Hl1]. destruct (Hfr' _ Hl1) as [Hs' Hl'].
      split; [congruence|done]. }
    constructor.
    + by eapply groupResult_later.
    + apply Forall_forall. intros b Hbin. rewrite Forall_forall in Hress.
      eapply groupResult_ext; [exact Hext1| |by apply Hress].
      apply Hin. right. rewrite <- Hb. apply list_elem_of_fmap. by exists b.
Qed.

Lemma withGroup_wf og gid t tv :
  grouped_wf og → gid ∉ groups og → grouped_wf (withGroup og gid t tv).
Proof.
  intros [Hnd Hdom] Hgid. split; simpl.
  - apply NoDup_app. split; [done|]. split; [|apply NoDup_singleton].
    intros x Hx Hx'. apply list_elem_of_singleton in Hx'. by subst.
  - intros k. rewrite elem_of_app, list_elem_of_singleton, Hdom.
    destruct (decide (k = gid)) as [->|Hk].
    + rewrite lookup_insert_eq. naive_solver.
    + rewrite lookup_insert_ne by done. naive_solver.
Qed.

Lemma replay_spec (h : heap) binds : ∀ og og',
  grouped_wf og → NoDup (binds.*1) → (∀ b, b ∈ binds → b.1 ∉ groups og) →
  (∀ b, b ∈ binds → ∃ tv, h !! b.2 = Some tv ∧ colNames tv ≠ None) →
  replay h og binds = Ok og' →
  grouped_wf og' ∧ groups og' = groups og ++ binds.*1
  ∧ (∀ b, b ∈ binds → tables og' !! b.1 = Some b.2)
  ∧ (∀ gid, gid ∉ binds.*1 → tables og' !! gid = tables og !! gid).
Proof.
  induction binds as [|[gid t] binds IH]; intros og og' Hwf Hnd Hfresh Hne Hrun.
  - simpl in Hrun. simplify_eq. split; [done|]. split; [by rewrite app_nil_r|].
    split; [|done]. intros b Hb. by apply elem_of_nil in Hb.
  - simpl in Hrun. rewrite fmap_cons in Hnd. apply NoDup_cons in Hnd as [Hgid Hnd].
    destruct (Hne (gid, t)) as (tv & Ht & Hnet); [by left|]. simpl in Ht, Hnet.
    rewrite (groupedTable_AddTable_eq _ _ _ _ _ Ht Hnet) in Hrun. simpl in Hrun.
    assert (Hfr : gid ∉ groups og) by (apply (Hfresh (gid, t)); by left).
    rewrite (evict_eq _ _ Hwf), (withoutGroup_id _ _ Hwf Hfr) in Hrun.
    destruct (validate h og tv); [|done].
    destruct (IH (withGroup og gid t tv) og') as (Hwf' & Hg' & Hb' & Hother); try done.
    + by apply withGroup_wf.
    + intros b Hb. simpl. rewrite elem_of_app, list_elem_of_singleton. intros [Hin|Heq].
      * apply (Hfresh b); [by right|done].
      * apply Hgid. rewrite <- Heq. apply list_elem_of_fmap. by exists b.
    + intros b Hb. apply Hne. by right.
    + split; [done|]. split; [rewrite Hg'; simpl; by rewrite <- app_assoc|]. split.
      * intros b Hb. apply elem_of_cons in Hb as [->|Hb]; [|by apply Hb'].
        simpl. rewrite Hother by done. simpl. apply lookup_insert_eq.
      * intros gid' Hg. rewrite fmap_cons, not_elem_of_cons in Hg. destruct Hg as [Hg1 Hg2].
        rewrite Hother by done. simpl. by rewrite lookup_insert_ne.
Qed.

(** The groups of a well-formed Grouping. *)
Lemma grouping_wf_inputs (h : heap) n g :
  grouping_wf h n g →
  ∃ gids, Grouping_Tables g h = (Ok gids, h) ∧ NoDup gids
          ∧ ∀ gid, gid ∈ gids → input_ok g n h gid.
Proof.
  destruct g as [t|g]; simpl.
  - intros [Hlt [tv Ht]]. unfold Table_Tables.
    erewrite bind_Ok by by apply Table_isEmpty_eq.
    destruct (colNames tv) as [cn|] eqn:Hcn; simpl.
    + exists [RootGroupID]. split; [done|]. split; [apply NoDup_singleton|].
      intros gid Hgid. apply list_elem_of_singleton in Hgid as ->.
      exists t, tv. split; [|split; [done|split; [done|congruence]]].
      change (Table_Table t RootGroupID h = (Ok (Some t), h)).
      unfold Table_Table. destruct (decide (RootGroupID = RootGroupID)); [|done].
      erewrite bind_Ok by by apply Table_isEmpty_eq.
      by rewrite bool_decide_eq_false_2 by congruence.
    + exists []. split; [done|]. split; [constructor|].
      intros gid Hgid. by apply elem_of_nil in Hgid.
  - intros [[Hnd Hdom] Htab]. exists (groups g). split; [done|]. split; [done|].
    intros gid Hgid. apply Hdom in Hgid as [t Ht].
    destruct (Htab _ _ Ht) as (Hlt & tv & Htv & Hne).
    exists t, tv. split; [|done]. simpl. unfold ret. by rewrite Ht.
Qed.

Lemma grouping_wf_alloc (h : heap) n g tv :
  grouping_wf h n g → grouping_wf (h ++ [tv]) n g.
Proof.
  destruct g as [t|g]; simpl.
  - intros [Hlt [tv0 Ht]]. split; [done|]. exists tv0. by apply lookup_app_l_Some.
  - intros [Hwf Htab]. split; [done|]. intros gid t Ht.
    destruct (Htab _ _ Ht) as (Hlt & tv0 & Htv & Hne). split; [done|].
    exists tv0. split; [by apply lookup_app_l_Some|done].
Qed.

Lemma heap_ext_alloc (h : heap) tv : heap_ext h (h ++ [tv]).
Proof.
  split; [rewrite length_app; lia|]. intros l tvl Hl. exists tvl.
  split; [by apply lookup_app_l_Some|apply cached_refl].
Qed.

(** What a successful [SortBy] returns. *)
Lemma SortBy_spec (h : heap) g cs out h' :
  heap_inv h → grouping_wf h (length h) g →
  SortBy g cs h = (Ok out, h') →
  ∃ binds og,
    Grouping_Tables g h = (Ok (binds.*1), h) ∧ NoDup (binds.*1)
    ∧ asGrouped h' out = Some og ∧ grouped_wf og ∧ groups og = binds.*1
    ∧ (∀ b, b ∈ binds → tables og !! b.1 = Some b.2)
    ∧ replay h' (mkGrouped ∅ [] None) binds = Ok og
    ∧ heap_inv h' ∧ heap_ext h h'
    ∧ Forall (groupResult g cs (length h) h h') binds.
Proof.
  intros Hh Hwf Hrun. unfold SortBy in Hrun.
  erewrite bind_Ok in Hrun by reflexivity.
  set (h0 := h ++ [emptyTable]) in *.
  assert (Hh0 : heap_inv h0) by (apply heap_inv_alloc; [done|apply emptyTable_inv]).
  destruct (grouping_wf_inputs _ _ _ Hwf) as (gids & Hgids & Hnd & Hin).
  destruct (grouping_wf_inputs _ _ _ (grouping_wf_alloc _ _ _ emptyTable Hwf))
    as (gids0 & Hgids0 & _ & Hin0).
  fold h0 in Hgids0, Hin0.
  assert (gids0 = gids) as ->.
  { destruct g as [t|g0]; simpl in *.
    - destruct Hwf as [_ [tv Ht]]. unfold Table_Tables in *.
      erewrite bind_Ok in Hgids by by apply Table_isEmpty_eq.
      erewrite bind_Ok in Hgids0 by (apply Table_isEmpty_eq; by apply lookup_app_l_Some).
      destruct (bool_decide (colNames tv = None)); unfold ret in *; congruence.
    - unfold ret in *. congruence. }
  erewrite bind_Ok in Hrun by exact Hgids0.
  assert (He : h0 !! length h = Some emptyTable).
  { subst h0. rewrite lookup_app_r by lia. by rewrite Nat.sub_diag. }
  assert (Hl0 : length h0 = S (length h)).
  { subst h0. rewrite length_app. simpl. lia. }
  destruct (sortGroups_trace g cs (length h) gids (GTable (length h))
              (mkGrouped ∅ [] None) h0 out h' Hh0 ltac:(lia) Hin0)
    as (binds & og & Hb & Hog & Hreplay & Hh' & Hext & Hfr & Hres); [| | |exact Hrun|].
  { simpl. by rewrite He. }
  { intros t [= <-]. split; [lia|left; lia]. }
  { intros gid l. simpl. by rewrite lookup_empty. }
  assert (Hres' : Forall (groupResult g cs (length h) h h') binds).
  { apply Forall_forall. intros b Hbin. rewrite Forall_forall in Hres.
    eapply groupResult_ext; [apply heap_ext_alloc| |by apply Hres].
    apply Hin. rewrite <- Hb. apply list_elem_of_fmap. by exists b. }
  destruct (replay_spec h' binds (mkGrouped ∅ [] None) og) as (Hwf' & Hg & Htab & _);
    try done.
  { split; simpl; [constructor|]. intros gid. rewrite lookup_empty. split.
    - intros H. by apply elem_of_nil in H.
    - by intros [? ?]. }
  { by rewrite Hb. }
  { intros b _. simpl. apply not_elem_of_nil. }
  { intros b Hbin. rewrite Forall_forall in Hres.
    destruct (Hres b Hbin) as (_ & _ & _ & _ & _ & _ & _ & _ & _ & Hne). exact Hne. }
  simpl in Hg. exists binds, og. rewrite Hb.
  split; [done|]. split; [done|]. split; [done|]. split; [done|].
  split; [congruence|]. split; [done|]. split; [done|]. split; [done|].
  split; [|done]. eapply heap_ext_trans; [apply heap_ext_alloc|done].
Qed.

(** ** Facts for the claims on [SortBy] *)

Lemma multiIndex_replicate {A} (x : A) n (perm : list nat) :
  Forall (λ i, i < n) perm → multiIndex (replicate n x) perm = Some (replicate (length perm) x).
Proof.
  intros Hperm. unfold multiIndex. apply mapM_Some_2.
  induction Hperm as [|i perm Hi _ IH]; simpl; constructor; [|done].
  by apply lookup_replicate_2.
Qed.

Lemma MultiIndex_Repeat v n (perm : list nat) :
  Forall (λ i, i < n) perm → MultiIndex (Repeat v n) perm = Some (Repeat v (length perm)).
Proof. intros Hperm. destruct v; simpl; by rewrite multiIndex_replicate. Qed.

Lemma multiIndex_id {A} (l : list A) : multiIndex l (seq 0 (length l)) = Some l.
Proof.
  unfold multiIndex. apply mapM_Some_2. apply Forall2_same_length_lookup_2.
  - by rewrite length_seq.
  - intros i x y Hx Hy. apply lookup_seq in Hx as [-> _]. done.
Qed.

Lemma MultiIndex_id s : MultiIndex s (seq 0 (sliceLen s)) = Some s.
Proof. destruct s; simpl; by rewrite multiIndex_id. Qed.

Lemma keptSorters_unsorted tv cs : keptSorters tv cs ≠ [] ↔ unsorted tv cs.
Proof.
  unfold keptSorters, unsorted. split.
  - intros Hne. destruct (omap (keptSorter tv) cs) as [|sorter l] eqn:Ho; [done|].
    assert (Hin : sorter ∈ omap (keptSorter tv) cs) by (rewrite Ho; by left).
    apply list_elem_of_omap in Hin as (col & Hcol & Hk). unfold keptSorter in Hk.
    destruct (columnView tv col) as [seq|] eqn:Hv; [|done].
    destruct (Sorter seq) as [sorter'|] eqn:Hs; [|done].
    destruct (IsSorted sorter') eqn:Hi; [done|]. by exists col, seq, sorter'.
  - intros (col & seq & sorter & Hcol & Hv & Hs & Hi) Hnil.
    assert (Hin : sorter ∈ omap (keptSorter tv) cs).
    { apply list_elem_of_omap. exists col. split; [done|].
      unfold keptSorter. by rewrite Hv, Hs, Hi. }
    rewrite Hnil in Hin. by apply elem_of_nil in Hin.
Qed.

Lemma rowLess_false keys a b :
  Forall (λ key, sLess key a b = false ∧ sLess key b a = false) keys →
  rowLess keys a b = false.
Proof.
  induction 1 as [|key keys [Hab Hba] _ IH]; [done|]. simpl.
  destruct keys; [done|]. by rewrite Hab, Hba.
Qed.

Lemma nth_lookup_Some {A} (l : list A) i d x : l !! i = Some x → nth i l d = x.
Proof. intros H. by rewrite nth_lookup, H. Qed.

Lemma string_ltb_asym a b : String.ltb a b = true → String.ltb b a = false.
Proof.
  unfold String.ltb. rewrite (String.compare_antisym a b).
  by destruct (String.compare b a).
Qed.

Lemma string_ltb_irrefl a : String.ltb a a = false.
Proof.
  destruct (String.ltb a a) eqn:H; [|done]. by rewrite (string_ltb_asym _ _ H) in H.
Qed.

(** Rows with equal values are not less than each other. *)
Lemma Sorter_equal_rows s sorter i j :
  Sorter s = Ok sorter → i < sliceLen s → elems s !! i = elems s !! j →
  sLess sorter i j = false ∧ sLess sorter j i = false.
Proof.
  intros Hs Hi Heq. destruct s as [l|l|l]; simpl in *; [| |done]; simplify_eq; simpl.
  - rewrite !list_lookup_fmap in Heq. destruct (lookup_lt_is_Some_2 l i Hi) as [x Hx].
    rewrite Hx in Heq. simpl in Heq. destruct (l !! j) as [y|] eqn:Hy; [|done].
    simpl in Heq. simplify_eq.
    rewrite (nth_lookup_Some _ _ _ _ Hx), (nth_lookup_Some _ _ _ _ Hy).
    by rewrite Z.ltb_irrefl.
  - rewrite !list_lookup_fmap in Heq. destruct (lookup_lt_is_Some_2 l i Hi) as [x Hx].
    rewrite Hx in Heq. simpl in Heq. destruct (l !! j) as [y|] eqn:Hy; [|done].
    simpl in Heq. simplify_eq.
    rewrite (nth_lookup_Some _ _ _ _ Hx), (nth_lookup_Some _ _ _ _ Hy).
    by rewrite string_ltb_irrefl.
Qed.

Lemma Grouping_Table_in_Tables (h : heap) n g gid t gids :
  grouping_wf h n g →
  Grouping_Table g gid h = (Ok (Some t), h) →
  Grouping_Tables g h = (Ok gids, h) → gid ∈ gids.
Proof.
  destruct g as [t0|g]; simpl.
  - intros [_ [tv Ht]]. unfold Table_Table, Table_Tables.
    destruct (decide (gid = RootGroupID)) as [->|]; [|done].
    erewrite !bind_Ok by by apply Table_isEmpty_eq.
    destruct (bool_decide (colNames tv = None)); unfold ret; [done|].
    intros _ [= <-]. by left.
  - intros [[_ Hdom] _]. unfold ret. intros [= Ht] [= <-]. apply Hdom. by eexists.
Qed.

(** The Table [SortBy] returns for a group of its argument. *)
Lemma SortBy_group (h : heap) g cs out h' gid t tv :
  heap_inv h → grouping_wf h (length h) g →
  SortBy g cs h = (Ok out, h') →
  Grouping_Table g gid h = (Ok (Some t), h) → h !! t = Some tv →
  ∃ t' tv', Grouping_Table out gid h' = (Ok (Some t'), h')
            ∧ h' !! t' = Some tv'
            ∧ sortedAs cs (length h) tv t t' h'
            ∧ (∃ tv1, h' !! t = Some tv1 ∧ cached tv tv1)
            ∧ (∀ col, col ∈ cs → sortable tv col).
Proof.
  intros Hh Hwf Hrun HT Ht.
  destruct (SortBy_spec _ _ _ _ _ Hh Hwf Hrun)
    as (binds & og & Hgids & Hnd & Hog & Hwfog & Hg & Htab & _ & Hh' & Hext & Hres).
  pose proof (Grouping_Table_in_Tables _ _ _ _ _ _ Hwf HT Hgids) as Hin.
  apply list_elem_of_fmap in Hin as ([gid' t'] & -> & Hb).
  rewrite Forall_forall in Hres.
  destruct (Hres _ Hb) as (t0 & tv0 & HT0 & _ & Ht0 & _ & Hsortable & Hsorted & _ & tv' & Htv' & _).
  simpl in *. rewrite HT in HT0. simplify_eq.
  exists t', tv'. split.
  { rewrite (Grouping_Table_view _ _ _ _ Hog). pose proof (Htab _ Hb) as Hl.
    simpl in Hl. by rewrite Hl. }
  split; [done|]. split; [done|]. split; [|done]. by apply (proj2 Hext).
Qed.

(** C10. When some sort column of a group is not sorted, the Table that
    [SortBy] binds to the group holds no constant column: for a name
    that was a constant column of the group, [Const] returns no value and
    [false], and [Column] returns the constant repeated once per row, as
    it does on the group. *)
Theorem SortBy_materializes_constants h g cs out h' gid t tv name v :
  reachable h → grouping_wf h (length h) g →
  SortBy g cs h = (Ok out, h') →
  Grouping_Table g gid h = (Ok (Some t), h) → h !! t = Some tv →
  unsorted tv cs → consts tv !! name = Some v →
  ∃ t', Grouping_Table out gid h' = (Ok (Some t'), h')
        ∧ Table_Const t' name h' = (Ok (None, false), h')
        ∧ (Table_Column t name h).1 = Ok (Some (Repeat v (len tv)))
        ∧ (Table_Column t' name h').1 = Ok (Some (Repeat v (len tv))).
Proof.
  intros Hr Hwf Hrun HT Ht Huns Hv. pose proof (reachable_heap_inv _ Hr) as Hh.
  pose proof (Hh _ _ Ht) as Hinv.
  destruct (SortBy_group _ _ _ _ _ _ _ _ Hh Hwf Hrun HT Ht)
    as (t' & tv' & HT' & Ht' & Hsorted & _ & _).
  apply keptSorters_unsorted in Huns. unfold sortedAs in Hsorted.
  destruct (keptSorters tv cs) as [|sorter sorters] eqn:Hk; [done|].
  destruct Hsorted as [_ Hperm]. rewrite Ht' in Hperm. simplify_eq.
  assert (Hview : columnView tv name = Some (Repeat v (len tv))).
  { unfold columnView. destruct (cols tv !! name) as [c|] eqn:Hc.
    - by rewrite (inv_cache _ Hinv _ _ _ Hc Hv).
    - by rewrite Hv. }
  destruct (permutedTable_spec tv (rowPerm tv cs) Hinv (rowPerm_bound tv cs))
    as (Hconsts & _ & _ & _).
  exists t'. split; [done|]. split; [|split].
  - unfold Table_Const. munfold. rewrite Ht', Hconsts, lookup_empty.
    by rewrite bool_decide_eq_false_2 by by intros [? ?].
  - by rewrite (Table_Column_view _ _ _ _ Ht), Hview.
  - rewrite (Table_Column_view _ _ _ _ Ht').
    rewrite (permutedTable_view _ _ Hinv (rowPerm_bound tv cs)), Hview. simpl.
    rewrite (MultiIndex_Repeat _ _ _ (rowPerm_bound tv cs)).
    by rewrite rowPerm_length.
Qed.

Lemma SortBy_materializes_constants_witness :
  ∃ t', Grouping_Table (returned sortScenario) RootGroupID sortScenario.2
        = (Ok (Some t'), sortScenario.2)
        ∧ Table_Const t' "c" sortScenario.2 = (Ok (None, false), sortScenario.2)
        ∧ (Table_Column 2 "c" sortScenarioHeap).1 = Ok (Some (Repeat (VInt 7) 3))
        ∧ (Table_Column t' "c" sortScenario.2).1 = Ok (Some (Repeat (VInt 7) 3)).
Proof.
  apply (SortBy_materializes_constants sortScenarioHeap (GTable 2) ["k"]
           (returned sortScenario) sortScenario.2 RootGroupID 2
           (withConst (withColumn emptyTable "k" (SInt [3; 1; 2]%Z) 3) "c" (VInt 7))
           "c" (VInt 7)).
  - eexists. reflexivity.
  - split; [vm_compute; lia|]. eexists. reflexivity.
  - reflexivity.
  - reflexivity.
  - reflexivity.
  - exists "k", (SInt [3; 1; 2]%Z). eexists.
    split; [by left|]. split; [reflexivity|]. split; reflexivity.
  - reflexivity.
Defined.

(** C4. [SortBy] is stable: the rows of the Table bound to a group are
    the rows of the group in the order [perm], and two rows whose values in
    all sort columns are equal keep their order. *)
Theorem SortBy_stable h g cs out h' gid t tv :
  reachable h → grouping_wf h (length h) g →
  SortBy g cs h = (Ok out, h') →
  Grouping_Table g gid h = (Ok (Some t), h) → h !! t = Some tv →
  ∃ t' tv' perm,
    Grouping_Table out gid h' = (Ok (Some t'), h') ∧ h' !! t' = Some tv'
    ∧ perm ≡ₚ seq 0 (len tv)
    ∧ (∀ name, columnView tv' name = columnView tv name ≫= (λ s, MultiIndex s perm))
    ∧ ∀ i j, i < j < len tv →
        (∀ col s, col ∈ cs → columnView tv col = Some s → elems s !! i = elems s !! j) →
        before perm i j.
Proof.
  intros Hr Hwf Hrun HT Ht. pose proof (reachable_heap_inv _ Hr) as Hh.
  pose proof (Hh _ _ Ht) as Hinv.
  destruct (SortBy_group _ _ _ _ _ _ _ _ Hh Hwf Hrun HT Ht)
    as (t' & tv' & HT' & Ht' & Hsorted & (tv1 & Ht1 & Hc) & Hsortable).
  unfold sortedAs in Hsorted.
  destruct (keptSorters tv cs) as [|sorter sorters] eqn:Hk.
  - (* the group is passed through *)
    subst t'. rewrite Ht' in Ht1. injection Ht1 as <-. exists t, tv', (seq 0 (len tv)).
    split; [done|]. split; [done|]. split; [done|]. split.
    + intros name. rewrite (cached_view _ _ Hc).
      destruct (columnView tv name) as [s|] eqn:Hv; [|done]. simpl.
      by rewrite <- (columnView_len _ _ _ Hinv Hv), MultiIndex_id.
    + intros i j Hij _. exists i, j. split; [lia|].
      split; apply lookup_seq; lia.
  - (* the group is permuted *)
    destruct Hsorted as [_ Hperm]. rewrite Ht' in Hperm. simplify_eq.
    exists t', (permutedTable tv (rowPerm tv cs)), (rowPerm tv cs).
    split; [done|]. split; [done|]. split; [apply rowPerm_perm|]. split.
    + intros name. apply permutedTable_view; [done|apply rowPerm_bound].
    + intros i j Hij Heq. unfold rowPerm, sortPerm. simpl.
      apply (Stable_stable _ _ i j); [lia|apply lookup_seq; lia|apply lookup_seq; lia|].
      apply rowLess_false. rewrite Hk. apply Forall_forall. intros key Hkey.
      rewrite <- Hk in Hkey. apply list_elem_of_omap in Hkey as (col & Hcol & Hkept).
      unfold keptSorter in Hkept. destruct (columnView tv col) as [s|] eqn:Hv; [|done].
      destruct (Sorter s) as [sorter'|] eqn:Hs; [|done].
      destruct (IsSorted sorter'); simplify_eq.
      pose proof (columnView_len _ _ _ Hinv Hv) as Hlen.
      destruct (Sorter_equal_rows s key i j Hs ltac:(lia) (Heq _ _ Hcol Hv)) as [H1 H2].
      by split.
Qed.

Lemma SortBy_stable_witness :
  let tv := withColumn (withColumn emptyTable "k" (SInt [2; 1; 2; 1]%Z) 4)
                       "v" (SString ["a"; "b"; "c"; "d"]) 4 in
  ∃ t' tv' perm,
    Grouping_Table (returned tiedScenario) RootGroupID tiedScenario.2
    = (Ok (Some t'), tiedScenario.2)
    ∧ tiedScenario.2 !! t' = Some tv'
    ∧ perm ≡ₚ seq 0 (len tv)
    ∧ (∀ name, columnView tv' name = columnView tv name ≫= (λ s, MultiIndex s perm))
    ∧ ∀ i j, i < j < len tv →
        (∀ col s, col ∈ ["k"] → columnView tv col = Some s →
                  elems s !! i = elems s !! j) →
        before perm i j.
Proof.
  apply (SortBy_stable tiedScenarioHeap (GTable 2) ["k"]
           (returned tiedScenario) tiedScenario.2 RootGroupID 2
           (withColumn (withColumn emptyTable "k" (SInt [2; 1; 2; 1]%Z) 4)
                       "v" (SString ["a"; "b"; "c"; "d"]) 4)).
  - eexists. reflexivity.
  - split; [vm_compute; lia|]. eexists. reflexivity.
  - reflexivity.
  - reflexivity.
  - reflexivity.
Defined.

(** * Further properties of the Table methods *)

(** [Add] returns its receiver or a new address; it never writes to a
    Table of the store. *)
Lemma Table_Add_store (h : heap) t name data :
  (Table_Add t name data h).2 = h ∨ ∃ nt, (Table_Add t name data h).2 = h ++ [nt].
Proof.
  unfold Table_Add. munfold. destruct (h !! t) as [tv|]; [|by left].
  destruct data as [|v|s]; simpl.
  - repeat case_bool_decide; eauto.
  - by left.
  - repeat case_bool_decide; eauto.
Qed.

Lemma Table_AddConst_store (h : heap) t name v :
  (Table_AddConst t name v h).2 = h ∨ ∃ nt, (Table_AddConst t name v h).2 = h ++ [nt].
Proof.
  unfold Table_AddConst. munfold. destruct (h !! t) as [tv|]; [|by left]. eauto.
Qed.

(** X1. [Add] and [AddConst] leave every Table of the store as it is,
    whether they return or panic. *)
Theorem Add_leaves_tables (h : heap) t name data val l tv :
  h !! l = Some tv →
  (Table_Add t name data h).2 !! l = Some tv
  ∧ (Table_AddConst t name val h).2 !! l = Some tv.
Proof.
  intros Hl. split.
  - destruct (Table_Add_store h t name data) as [->|[nt ->]]; [done|].
    by apply lookup_app_l_Some.
  - destruct (Table_AddConst_store h t name val) as [->|[nt ->]]; [done|].
    by apply lookup_app_l_Some.
Qed.

Lemma Add_leaves_tables_witness :
  (Table_Add 2 "k" (ASlice (SInt [1; 2; 3]%Z)) sortScenarioHeap).2 !! 2
  = Some (withConst (withColumn emptyTable "k" (SInt [3; 1; 2]%Z) 3) "c" (VInt 7))
  ∧ (Table_AddConst 2 "k" (VInt 0) sortScenarioHeap).2 !! 2
    = Some (withConst (withColumn emptyTable "k" (SInt [3; 1; 2]%Z) 3) "c" (VInt 7)).
Proof. apply (Add_leaves_tables sortScenarioHeap 2 "k"). reflexivity. Defined.

Lemma columnView_const tv name v :
  table_inv tv → consts tv !! name = Some v →
  columnView tv name = Some (Repeat v (len tv)).
Proof.
  intros Hinv Hv. unfold columnView. destruct (cols tv !! name) as [c|] eqn:Hc.
  - by rewrite (inv_cache _ Hinv _ _ _ Hc Hv).
  - by rewrite Hv.
Qed.

Lemma columnView_None tv name :
  table_inv tv → columnView tv name = None ↔ name ∉ names (colNames tv).
Proof.
  intros Hinv. rewrite (inv_names _ Hinv). unfold columnView.
  destruct (cols tv !! name) as [c|] eqn:Hc.
  - split; [done|]. intros H. exfalso. apply H. left. by eexists.
  - destruct (consts tv !! name) as [v|] eqn:Hv; simpl.
    + split; [done|]. intros H. exfalso. apply H. right. by eexists.
    + split; [|done]. intros _ [[? ?]|[? ?]]; done.
Qed.

Lemma Table_Const_eq (h : heap) t tv name :
  h !! t = Some tv →
  Table_Const t name h
  = (Ok (consts tv !! name, bool_decide (is_Some (consts tv !! name))), h).
Proof. intros Ht. unfold Table_Const. munfold. by rewrite Ht. Qed.

Lemma Table_Len_eq (h : heap) t tv : h !! t = Some tv → Table_Len t h = (Ok (len tv), h).
Proof. intros Ht. unfold Table_Len. munfold. by rewrite Ht. Qed.

Lemma Table_Columns_eq (h : heap) t tv :
  h !! t = Some tv → Table_Columns t h = (Ok (colNames tv), h).
Proof. intros Ht. unfold Table_Columns. munfold. by rewrite Ht. Qed.

(** X2. [Column] on a constant column returns the constant repeated
    [Len] times; a second read returns the same slice and writes
    nothing; the read changes no other Table and nothing that [Len],
    [Columns] or [Const] return. *)
Theorem Column_of_constant h t tv name v :
  reachable h → h !! t = Some tv → consts tv !! name = Some v →
  ∃ h1, Table_Column t name h = (Ok (Some (Repeat v (len tv))), h1)
        ∧ Table_Column t name h1 = (Ok (Some (Repeat v (len tv))), h1)
        ∧ (∀ l, l ≠ t → h1 !! l = h !! l)
        ∧ Table_Len t h1 = (Ok (len tv), h1)
        ∧ Table_Columns t h1 = (Ok (colNames tv), h1)
        ∧ Table_Const t name h1 = (Ok (Some v, true), h1).
Proof.
  intros Hr Ht Hv. pose proof (reachable_heap_inv _ Hr _ _ Ht) as Hinv.
  pose proof (lookup_lt_Some _ _ _ Ht) as Hlt.
  pose proof (afterColumn_cached tv name) as Hc.
  set (tv1 := afterColumn tv name) in *.
  assert (Ht1 : <[t := tv1]> h !! t = Some tv1) by by apply list_lookup_insert_eq.
  exists (<[t := tv1]> h). split; [|split; [|split; [|split; [|split]]]].
  - by rewrite (Table_Column_eq _ _ _ _ Ht), (columnView_const _ _ _ Hinv Hv).
  - rewrite (Table_Column_eq _ _ _ _ Ht1), (cached_view _ _ Hc),
      (columnView_const _ _ _ Hinv Hv).
    rewrite afterColumn_id, list_insert_insert_eq; [done|].
    eexists. apply afterColumn_cols. by apply columnView_const.
  - intros l Hl. by rewrite list_lookup_insert_ne.
  - by rewrite (Table_Len_eq _ _ _ Ht1), (cached_len _ _ Hc).
  - by rewrite (Table_Columns_eq _ _ _ Ht1), (cached_names _ _ Hc).
  - rewrite (Table_Const_eq _ _ _ _ Ht1), (cached_consts _ _ Hc), Hv.
    by rewrite bool_decide_eq_true_2.
Qed.

Lemma Column_of_constant_witness :
  ∃ h1, Table_Column 2 "c" sortScenarioHeap = (Ok (Some (Repeat (VInt 7) 3)), h1)
        ∧ Table_Column 2 "c" h1 = (Ok (Some (Repeat (VInt 7) 3)), h1)
        ∧ (∀ l, l ≠ 2 → h1 !! l = sortScenarioHeap !! l)
        ∧ Table_Len 2 h1 = (Ok 3, h1)
        ∧ Table_Columns 2 h1 = (Ok (Some ["k"; "c"]), h1)
        ∧ Table_Const 2 "c" h1 = (Ok (Some (VInt 7), true), h1).
Proof.
  apply (Column_of_constant sortScenarioHeap 2
           (withConst (withColumn emptyTable "k" (SInt [3; 1; 2]%Z) 3) "c" (VInt 7))
           "c" (VInt 7)).
  - eexists. reflexivity.
  - reflexivity.
  - reflexivity.
Defined.

(** X3. [Column] returns nil, and [MustColumn] panics with the unknown
    column, exactly for the names that are not in [Columns]; for a name
    that is, both return the same slice, of [Len] elements. *)
Theorem Column_known_names h t tv name :
  reachable h → h !! t = Some tv →
  (name ∉ names (colNames tv) →
     Table_Column t name h = (Ok None, h)
     ∧ Table_MustColumn t name h = (Panicked (UnknownColumn name), h))
  ∧ (name ∈ names (colNames tv) →
     ∃ s h1, Table_Column t name h = (Ok (Some s), h1)
             ∧ Table_MustColumn t name h = (Ok s, h1)
             ∧ sliceLen s = len tv).
Proof.
  intros Hr Ht. pose proof (reachable_heap_inv _ Hr _ _ Ht) as Hinv.
  rewrite (Table_Column_eq _ _ _ _ Ht), (Table_MustColumn_eq _ _ _ _ Ht). split.
  - intros Hn. pose proof (proj2 (columnView_None _ _ Hinv) Hn) as Hv. rewrite Hv.
    assert (afterColumn tv name = tv) as ->.
    { unfold afterColumn, columnView in *. destruct (cols tv !! name); [done|].
      by destruct (consts tv !! name). }
    by rewrite list_insert_id.
  - intros Hn. destruct (columnView_Some _ _ Hinv Hn) as (s & Hv & Hs).
    rewrite Hv. by exists s, (<[t := afterColumn tv name]> h).
Qed.

Lemma Column_known_names_witness :
  ("k" ∉ names (Some ["k"; "c"]) →
     Table_Column 2 "k" sortScenarioHeap = (Ok None, sortScenarioHeap)
     ∧ Table_MustColumn 2 "k" sortScenarioHeap
       = (Panicked (UnknownColumn "k"), sortScenarioHeap))
  ∧ ("k" ∈ names (Some ["k"; "c"]) →
     ∃ s h1, Table_Column 2 "k" sortScenarioHeap = (Ok (Some s), h1)
             ∧ Table_MustColumn 2 "k" sortScenarioHeap = (Ok s, h1)
             ∧ sliceLen s = 3).
Proof.
  apply (Column_known_names sortScenarioHeap 2
           (withConst (withColumn emptyTable "k" (SInt [3; 1; 2]%Z) 3) "c" (VInt 7)) "k").
  - eexists. reflexivity.
  - reflexivity.
Defined.

Lemma lookup_alloc (h : heap) (tv : Table) : (h ++ [tv]) !! length h = Some tv.
Proof. rewrite lookup_app_r by lia. by rewrite Nat.sub_diag. Qed.

(** The Table a successful [Add] of a slice returns. *)
Lemma Table_Add_slice_Ok (h : heap) t tv name s t' h' :
  h !! t = Some tv → table_inv tv →
  Table_Add t name (ASlice s) h = (Ok t', h') →
  t' = length h ∧ h' = h ++ [withColumn tv name s (sliceLen s)]
  ∧ table_inv (withColumn tv name s (sliceLen s)).
Proof.
  intros Ht Hinv. rewrite (Table_Add_slice _ _ _ _ _ Ht Hinv).
  destruct (decide (delete name (cols tv) = ∅)) as [He|He].
  - intros [= <- <-]. split; [done|]. split; [done|]. apply withColumn_inv; naive_solver.
  - destruct (decide (len tv = sliceLen s)) as [Hl|Hl]; [|done].
    intros [= <- <-]. rewrite Hl. split; [done|]. split; [done|].
    apply withColumn_inv; naive_solver.
Qed.

(** X4. After a successful [Add(name, s)], [Column(name)] returns [s],
    [Const(name)] returns nothing, [Len] is the length of [s], [name] is
    the last of [Columns] behind the other names in their order, and the
    other columns are what they were: the slices of [cols] and the
    constants. *)
Theorem Add_then_read h t tv name s t' h' :
  reachable h → h !! t = Some tv →
  Table_Add t name (ASlice s) h = (Ok t', h') →
  Table_Column t' name h' = (Ok (Some s), h')
  ∧ Table_Const t' name h' = (Ok (None, false), h')
  ∧ Table_Len t' h' = (Ok (sliceLen s), h')
  ∧ Table_Columns t' h' = (Ok (Some (otherNames tv name ++ [name])), h')
  ∧ (∀ name2 c, name2 ≠ name → cols tv !! name2 = Some c →
                Table_Column t' name2 h' = (Ok (Some c), h'))
  ∧ (∀ name2, name2 ≠ name → (Table_Const t' name2 h').1 = (Table_Const t name2 h).1).
Proof.
  intros Hr Ht Hadd. pose proof (reachable_heap_inv _ Hr _ _ Ht) as Hinv.
  destruct (Table_Add_slice_Ok _ _ _ _ _ _ _ Ht Hinv Hadd) as (-> & -> & Hinv').
  set (nt := withColumn tv name s (sliceLen s)) in *.
  pose proof (lookup_alloc h nt) as Hnt.
  assert (Hcol : ∀ n c, cols nt !! n = Some c →
                        Table_Column (length h) n (h ++ [nt]) = (Ok (Some c), h ++ [nt])).
  { intros n c Hc. rewrite (Table_Column_eq _ _ _ _ Hnt). unfold columnView. rewrite Hc.
    rewrite afterColumn_id by by eexists. by rewrite list_insert_id. }
  split; [|split; [|split; [|split; [|split]]]].
  - apply Hcol. apply lookup_insert_eq.
  - rewrite (Table_Const_eq _ _ _ _ Hnt). simpl. rewrite lookup_delete_eq.
    by rewrite bool_decide_eq_false_2 by by intros [? ?].
  - by rewrite (Table_Len_eq _ _ _ Hnt).
  - by rewrite (Table_Columns_eq _ _ _ Hnt).
  - intros name2 c Hne Hc. apply Hcol. simpl.
    by rewrite lookup_insert_ne, lookup_delete_ne.
  - intros name2 Hne. rewrite (Table_Const_eq _ _ _ _ Hnt), (Table_Const_eq _ _ _ _ Ht).
    simpl. by rewrite lookup_delete_ne.
Qed.

Lemma Add_then_read_witness :
  let tv := withConst (withColumn emptyTable "k" (SInt [3; 1; 2]%Z) 3) "c" (VInt 7) in
  let h' := sortScenarioHeap ++ [withColumn tv "y" (SInt [4; 5; 6]%Z) 3] in
  Table_Column 3 "y" h' = (Ok (Some (SInt [4; 5; 6]%Z)), h')
  ∧ Table_Const 3 "y" h' = (Ok (None, false), h')
  ∧ Table_Len 3 h' = (Ok (sliceLen (SInt [4; 5; 6]%Z)), h')
  ∧ Table_Columns 3 h' = (Ok (Some (otherNames tv "y" ++ ["y"])), h')
  ∧ (∀ name2 c, name2 ≠ "y" → cols tv !! name2 = Some c →
                Table_Column 3 name2 h' = (Ok (Some c), h'))
  ∧ (∀ name2, name2 ≠ "y" →
              (Table_Const 3 name2 h').1 = (Table_Const 2 name2 sortScenarioHeap).1).
Proof.
  apply (Add_then_read sortScenarioHeap 2).
  - eexists. reflexivity.
  - reflexivity.
  - reflexivity.
Defined.

Lemma columnView_withConst_ne tv name v name2 :
  name2 ≠ name → columnView (withConst tv name v) name2 = columnView tv name2.
Proof.
  intros Hne. unfold columnView. simpl.
  by rewrite lookup_delete_ne, lookup_insert_ne, lookup_delete_ne.
Qed.

(** X5. [AddConst(name, v)] always returns a Table: [Const(name)] is [v],
    [Column(name)] is [v] repeated [Len] times, [Len] is the receiver's,
    [name] is the last of [Columns], and every other column reads as in
    the receiver. *)
Theorem AddConst_then_read h t tv name v :
  reachable h → h !! t = Some tv →
  ∃ t' h', Table_AddConst t name v h = (Ok t', h')
    ∧ Table_Const t' name h' = (Ok (Some v, true), h')
    ∧ (Table_Column t' name h').1 = Ok (Some (Repeat v (len tv)))
    ∧ Table_Len t' h' = (Ok (len tv), h')
    ∧ Table_Columns t' h' = (Ok (Some (otherNames tv name ++ [name])), h')
    ∧ (∀ name2, name2 ≠ name →
         (Table_Column t' name2 h').1 = (Table_Column t name2 h).1
         ∧ (Table_Const t' name2 h').1 = (Table_Const t name2 h).1).
Proof.
  intros Hr Ht. pose proof (reachable_heap_inv _ Hr _ _ Ht) as Hinv.
  rewrite (Table_AddConst_spec _ _ _ _ _ Ht Hinv).
  set (nt := withConst tv name v). pose proof (lookup_alloc h nt) as Hnt.
  exists (length h), (h ++ [nt]). split; [done|]. split; [|split; [|split; [|split]]].
  - rewrite (Table_Const_eq _ _ _ _ Hnt). simpl. rewrite lookup_insert_eq.
    by rewrite bool_decide_eq_true_2.
  - rewrite (Table_Column_view _ _ _ _ Hnt). unfold columnView. simpl.
    by rewrite lookup_delete_eq, lookup_insert_eq.
  - by rewrite (Table_Len_eq _ _ _ Hnt).
  - by rewrite (Table_Columns_eq _ _ _ Hnt).
  - intros name2 Hne. split.
    + rewrite (Table_Column_view _ _ _ _ Hnt), (Table_Column_view _ _ _ _ Ht).
      subst nt. by rewrite columnView_withConst_ne.
    + rewrite (Table_Const_eq _ _ _ _ Hnt), (Table_Const_eq _ _ _ _ Ht). simpl.
      by rewrite lookup_insert_ne, lookup_delete_ne.
Qed.

Lemma AddConst_then_read_witness :
  ∃ t' h', Table_AddConst 2 "k" (VString "a") sortScenarioHeap = (Ok t', h')
    ∧ Table_Const t' "k" h' = (Ok (Some (VString "a"), true), h')
    ∧ (Table_Column t' "k" h').1 = Ok (Some (Repeat (VString "a") 3))
    ∧ Table_Len t' h' = (Ok 3, h')
    ∧ Table_Columns t' h'
      = (Ok (Some (otherNames (withConst (withColumn emptyTable "k" (SInt [3; 1; 2]%Z) 3)
                                         "c" (VInt 7)) "k" ++ ["k"])), h')
    ∧ (∀ name2, name2 ≠ "k" →
         (Table_Column t' name2 h').1 = (Table_Column 2 name2 sortScenarioHeap).1
         ∧ (Table_Const t' name2 h').1 = (Table_Const 2 name2 sortScenarioHeap).1).
Proof.
  apply (AddConst_then_read sortScenarioHeap 2
           (withConst (withColumn emptyTable "k" (SInt [3; 1; 2]%Z) 3) "c" (VInt 7))).
  - eexists. reflexivity.
  - reflexivity.
Defined.

Lemma columnView_withoutColumn tv name name2 :
  columnView (withoutColumn tv name) name2
  = if decide (name2 = name) then None else columnView tv name2.
Proof.
  unfold columnView. simpl. case_decide as H.
  - subst. by rewrite !lookup_delete_eq.
  - by rewrite !lookup_delete_ne.
Qed.

Lemma otherNames_nil_single tv name :
  table_inv tv → name ∈ names (colNames tv) →
  otherNames tv name = [] ↔ length (names (colNames tv)) = 1.
Proof.
  intros Hinv Hin. split.
  - intros He. destruct (decide (length (names (colNames tv)) = 1)) as [|Hne]; [done|].
    by destruct (otherNames_nonempty _ _ Hinv Hin Hne).
  - intros Hlen. destruct (names (colNames tv)) as [|a [|b l]] eqn:Hn; try done.
    apply list_elem_of_singleton in Hin as ->. unfold otherNames. rewrite Hn.
    by rewrite filter_cons_False, filter_nil by naive_solver.
Qed.

(** X6. [Add(name, nil)] returns the receiver itself when [name] is not a
    column. Otherwise it returns a Table in which [Column(name)] is nil
    and [Const(name)] is nothing; that Table is the empty Table exactly
    when [name] was the only column, and else keeps the other names in
    order, the row count and what every other column reads as. *)
Theorem Add_nil_removes h t tv name :
  reachable h → h !! t = Some tv →
  (name ∉ names (colNames tv) → Table_Add t name ANil h = (Ok t, h))
  ∧ (name ∈ names (colNames tv) →
      ∃ t' h', Table_Add t name ANil h = (Ok t', h')
        ∧ Table_Column t' name h' = (Ok None, h')
        ∧ Table_Const t' name h' = (Ok (None, false), h')
        ∧ Table_isEmpty t' h' = (Ok (bool_decide (otherNames tv name = [])), h')
        ∧ (otherNames tv name ≠ [] →
             Table_Columns t' h' = (Ok (Some (otherNames tv name)), h')
             ∧ Table_Len t' h' = (Ok (len tv), h')
             ∧ ∀ name2, name2 ≠ name →
                 (Table_Column t' name2 h').1 = (Table_Column t name2 h).1
                 ∧ (Table_Const t' name2 h').1 = (Table_Const t name2 h).1)).
Proof.
  intros Hr Ht. pose proof (reachable_heap_inv _ Hr _ _ Ht) as Hinv.
  rewrite (Table_Add_nil _ _ _ _ Ht Hinv). split; intros Hin.
  - by rewrite decide_False.
  - rewrite decide_True by done.
    destruct (decide (length (names (colNames tv)) = 1)) as [Hlen|Hlen].
    + pose proof (proj2 (otherNames_nil_single _ _ Hinv Hin) Hlen) as He.
      pose proof (lookup_alloc h emptyTable) as Hnt.
      exists (length h), (h ++ [emptyTable]). split; [done|].
      split; [by rewrite (Table_Column_spec _ _ _ _ Hnt)|].
      split; [by rewrite (Table_Const_eq _ _ _ _ Hnt)|].
      split; [|done]. rewrite (Table_isEmpty_eq _ _ _ Hnt).
      by rewrite bool_decide_eq_true_2, bool_decide_eq_true_2.
    + assert (He : otherNames tv name ≠ []).
      { intros He. by apply Hlen, (otherNames_nil_single _ _ Hinv Hin). }
      set (nt := withoutColumn tv name). pose proof (lookup_alloc h nt) as Hnt.
      exists (length h), (h ++ [nt]). split; [done|].
      split. { rewrite (Table_Column_spec _ _ _ _ Hnt). simpl. by rewrite !lookup_delete_eq. }
      split. { rewrite (Table_Const_eq _ _ _ _ Hnt). simpl. rewrite lookup_delete_eq.
               by rewrite bool_decide_eq_false_2 by by intros [? ?]. }
      split. { rewrite (Table_isEmpty_eq _ _ _ Hnt). simpl.
               by rewrite bool_decide_eq_false_2. }
      intros _. split; [by rewrite (Table_Columns_eq _ _ _ Hnt)|].
      split; [by rewrite (Table_Len_eq _ _ _ Hnt)|].
      intros name2 Hne. split.
      * rewrite (Table_Column_view _ _ _ _ Hnt), (Table_Column_view _ _ _ _ Ht).
        subst nt. rewrite columnView_withoutColumn. by rewrite decide_False.
      * rewrite (Table_Const_eq _ _ _ _ Hnt), (Table_Const_eq _ _ _ _ Ht). simpl.
        by rewrite lookup_delete_ne.
Qed.

Lemma Add_nil_removes_witness :
  let tv := withConst (withColumn emptyTable "k" (SInt [3; 1; 2]%Z) 3) "c" (VInt 7) in
  ("k" ∉ names (colNames tv) → Table_Add 2 "k" ANil sortScenarioHeap = (Ok 2, sortScenarioHeap))
  ∧ ("k" ∈ names (colNames tv) →
      ∃ t' h', Table_Add 2 "k" ANil sortScenarioHeap = (Ok t', h')
        ∧ Table_Column t' "k" h' = (Ok None, h')
        ∧ Table_Const t' "k" h' = (Ok (None, false), h')
        ∧ Table_isEmpty t' h' = (Ok (bool_decide (otherNames tv "k" = [])), h')
        ∧ (otherNames tv "k" ≠ [] →
             Table_Columns t' h' = (Ok (Some (otherNames tv "k")), h')
             ∧ Table_Len t' h' = (Ok (len tv), h')
             ∧ ∀ name2, name2 ≠ "k" →
                 (Table_Column t' name2 h').1 = (Table_Column 2 name2 sortScenarioHeap).1
                 ∧ (Table_Const t' name2 h').1 = (Table_Const 2 name2 sortScenarioHeap).1)).
Proof.
  apply (Add_nil_removes sortScenarioHeap 2).
  - eexists. reflexivity.
  - reflexivity.
Defined.

(** X8. A Table of the store is the root group of itself unless it is the
    zero value: only the zero value has no groups, and a Table with
    columns, even of no rows, is bound to the root group id and to no
    other. *)
Theorem Table_is_root_group h t tv :
  reachable h → h !! t = Some tv →
  (tv = emptyTable →
     Table_Tables t h = (Ok [], h) ∧ ∀ gid, Table_Table t gid h = (Ok None, h))
  ∧ (tv ≠ emptyTable →
       Table_Tables t h = (Ok [RootGroupID], h)
       ∧ Table_Table t RootGroupID h = (Ok (Some t), h)
       ∧ ∀ gid, gid ≠ RootGroupID → Table_Table t gid h = (Ok None, h)).
Proof.
  intros Hr Ht. pose proof (reachable_heap_inv _ Hr _ _ Ht) as Hinv.
  unfold Table_Tables, Table_Table. split.
  - intros ->. erewrite bind_Ok by by apply Table_isEmpty_eq. split; [done|].
    intros gid. destruct (decide (gid = RootGroupID)); [|done].
    by erewrite bind_Ok by by apply Table_isEmpty_eq.
  - intros Hne. assert (Hcn : colNames tv ≠ None).
    { intros Hn. by apply Hne, names_nil_emptyTable. }
    erewrite bind_Ok by by apply Table_isEmpty_eq.
    rewrite bool_decide_eq_false_2 by done. split; [done|]. split.
    + destruct (decide (RootGroupID = RootGroupID)); [|done].
      erewrite bind_Ok by by apply Table_isEmpty_eq.
      by rewrite bool_decide_eq_false_2.
    + intros gid Hgid. by rewrite decide_False.
Qed.

Lemma Table_is_root_group_witness :
  let tv := withColumn emptyTable "x" (SInt []) 0 in
  let h := [emptyTable; tv] in
  (tv = emptyTable →
     Table_Tables 1 h = (Ok [], h) ∧ ∀ gid, Table_Table 1 gid h = (Ok None, h))
  ∧ (tv ≠ emptyTable →
       Table_Tables 1 h = (Ok [RootGroupID], h)
       ∧ Table_Table 1 RootGroupID h = (Ok (Some 1), h)
       ∧ ∀ gid, gid ≠ RootGroupID → Table_Table 1 gid h = (Ok None, h)).
Proof.
  apply (Table_is_root_group
           (foldl (λ h op, execOp op h) [] [OpNew; OpAdd 0 "x" (ASlice (SInt []))]) 1).
  - eexists. reflexivity.
  - reflexivity.
Defined.

(** * Further properties of Groupings *)

Lemma groupedTable_AddTable_nil (h : heap) g gid :
  grouped_wf g →
  groupedTable_AddTable g gid None h
  = (Ok (mkGrouped (delete gid (tables g)) (filter (λ gid2, gid ≠ gid2) (groups g))
                   (match filter (λ gid2, gid ≠ gid2) (groups g) with
                    | [] => None
                    | _ => gcolNames g
                    end)), h).
Proof.
  intros Hwf. unfold groupedTable_AddTable. rewrite (evict_eq _ _ Hwf). simpl.
  unfold withoutGroup.
  destruct (filter (λ gid2, gid ≠ gid2) (groups g)) as [|x l]; done.
Qed.

(** X9. [AddTable(gid, nil)] on a [groupedTable] removes group [gid]: it
    never panics and never touches the store; the other group ids keep
    their order and their Tables; [Table(gid)] is nil afterwards; the
    column names are reset to nil exactly when no group is left. *)
Theorem AddTable_nil_removes (h : heap) g gid :
  grouped_wf g →
  ∃ g', groupedTable_AddTable g gid None h = (Ok g', h)
        ∧ grouped_wf g'
        ∧ groups g' = filter (λ gid2, gid ≠ gid2) (groups g)
        ∧ tables g' !! gid = None
        ∧ (∀ gid2, gid2 ≠ gid → tables g' !! gid2 = tables g !! gid2)
        ∧ gcolNames g' = (if decide (groups g' = []) then None else gcolNames g).
Proof.
  intros Hwf. rewrite (groupedTable_AddTable_nil _ _ _ Hwf). eexists. split; [done|].
  simpl. split; [|split; [done|split; [apply lookup_delete_eq|split]]].
  - destruct (withoutGroup_wf g gid Hwf) as [Hnd Hdom]. split; [done|]. exact Hdom.
  - intros gid2 Hne. by apply lookup_delete_ne.
  - by destruct (filter (λ gid2, gid ≠ gid2) (groups g)).
Qed.

Lemma AddTable_nil_removes_witness :
  ∃ g', groupedTable_AddTable groupScenario ["a"] None groupScenarioHeap
        = (Ok g', groupScenarioHeap)
        ∧ grouped_wf g'
        ∧ groups g' = filter (λ gid2, ["a"] ≠ gid2) (groups groupScenario)
        ∧ tables g' !! ["a"] = None
        ∧ (∀ gid2, gid2 ≠ ["a"] → tables g' !! gid2 = tables groupScenario !! gid2)
        ∧ gcolNames g' = (if decide (groups g' = []) then None else gcolNames groupScenario).
Proof.
  apply (AddTable_nil_removes groupScenarioHeap groupScenario ["a"]).
  split; [apply NoDup_singleton|]. intros gid. simpl.
  rewrite list_elem_of_singleton. split.
  - intros ->. by rewrite lookup_singleton_eq.
  - intros [t Ht]. by apply lookup_singleton_Some in Ht as [-> _].
Defined.

Lemma withGroup_after_evict_wf g gid t tv :
  grouped_wf g → grouped_wf (withGroup (withoutGroup g gid) gid t tv).
Proof.
  intros Hwf. apply withGroup_wf; [by apply withoutGroup_wf|]. simpl.
  rewrite list_elem_of_filter. naive_solver.
Qed.

(** X10. [AddTable(gid, t)] on a [groupedTable] never writes to the
    store. With an empty Table it returns the receiver. With a Table that
    has columns, if it returns, [gid] is bound to [t] and is the last
    group id, behind the other ids in their order (an existing binding of
    [gid] is evicted first); the other groups keep their Tables; the
    column names are those of [t] if no other group is left and else the
    receiver's; and group ids are still listed once and are the keys of
    the bindings. *)
Theorem AddTable_binds (h : heap) g gid t tv :
  grouped_wf g → h !! t = Some tv →
  (groupedTable_AddTable g gid (Some t) h).2 = h
  ∧ (colNames tv = None → groupedTable_AddTable g gid (Some t) h = (Ok g, h))
  ∧ (colNames tv ≠ None → ∀ g', (groupedTable_AddTable g gid (Some t) h).1 = Ok g' →
       grouped_wf g'
       ∧ groups g' = filter (λ gid2, gid ≠ gid2) (groups g) ++ [gid]
       ∧ tables g' !! gid = Some t
       ∧ (∀ gid2, gid2 ≠ gid → tables g' !! gid2 = tables g !! gid2)
       ∧ gcolNames g' = (match filter (λ gid2, gid ≠ gid2) (groups g) with
                         | [] => colNames tv
                         | _ => gcolNames g
                         end)).
Proof.
  intros Hwf Ht. destruct (decide (colNames tv = None)) as [Hn|Hn].
  - rewrite (groupedTable_AddTable_empty _ _ _ _ _ Ht Hn). done.
  - rewrite (groupedTable_AddTable_eq _ _ _ _ _ Ht Hn), (evict_eq _ _ Hwf).
    split; [done|]. split; [done|]. intros _ g' Hg'. simpl in Hg'.
    destruct (validate h (withoutGroup g gid) tv); [|done]. injection Hg' as <-.
    split; [by apply withGroup_after_evict_wf|]. split; [done|].
    split; [apply lookup_insert_eq|]. split; [|done].
    intros gid2 Hne. simpl. by rewrite lookup_insert_ne, lookup_delete_ne.
Qed.

Lemma AddTable_binds_witness :
  let tv := withColumn emptyTable "x" (SInt [3]%Z) 1 in
  (groupedTable_AddTable groupScenario ["b"] (Some 2) groupScenarioHeap).2
  = groupScenarioHeap
  ∧ (colNames tv = None →
     groupedTable_AddTable groupScenario ["b"] (Some 2) groupScenarioHeap
     = (Ok groupScenario, groupScenarioHeap))
  ∧ (colNames tv ≠ None →
     ∀ g', (groupedTable_AddTable groupScenario ["b"] (Some 2) groupScenarioHeap).1 = Ok g' →
       grouped_wf g'
       ∧ groups g' = filter (λ gid2, ["b"] ≠ gid2) (groups groupScenario) ++ [["b"]]
       ∧ tables g' !! ["b"] = Some 2
       ∧ (∀ gid2, gid2 ≠ ["b"] → tables g' !! gid2 = tables groupScenario !! gid2)
       ∧ gcolNames g' = (match filter (λ gid2, ["b"] ≠ gid2) (groups groupScenario) with
                         | [] => colNames tv
                         | _ => gcolNames groupScenario
                         end)).
Proof.
  apply (AddTable_binds groupScenarioHeap groupScenario ["b"] 2).
  - split; [apply NoDup_singleton|]. intros gid. simpl.
    rewrite list_elem_of_singleton. split.
    + intros ->. by rewrite lookup_singleton_eq.
    + intros [t Ht]. by apply lookup_singleton_Some in Ht as [-> _].
  - reflexivity.
Defined.

Lemma checkColumns_Ok tBase t schema :
  checkColumns tBase t schema = Ok tt
  ↔ ∀ col, col ∈ schema → ∃ ty, addedType t col = Ok ty ∧ baseType tBase col = Some ty.
Proof.
  induction schema as [|c schema IH]; simpl.
  - split; [|done]. intros _ col Hcol. by apply elem_of_nil in Hcol.
  - destruct (addedType t c) as [t1|e] eqn:Ha.
    + destruct (decide (baseType tBase c = Some t1)) as [Hb|Hb].
      * rewrite IH. split.
        -- intros H col Hcol. apply elem_of_cons in Hcol as [->|Hcol]; [|by apply H].
           exists t1. by rewrite Ha.
        -- intros H col Hcol. apply H. by apply elem_of_cons; right.
      * split; [done|]. intros H. destruct (H c) as (ty & Hty & Hty').
        { by apply elem_of_cons; left. }
        rewrite Ha in Hty. by injection Hty as <-.
    + split; [done|]. intros H. destruct (H c) as (ty & Hty & _).
      { by apply elem_of_cons; left. }
      by rewrite Ha in Hty.
Qed.

Lemma checkColumns_first tBase t pre col post :
  (∀ c, c ∈ pre → ∃ ty, addedType t c = Ok ty ∧ baseType tBase c = Some ty) →
  checkColumns tBase t (pre ++ col :: post) = checkColumns tBase t (col :: post).
Proof.
  induction pre as [|c pre IH]; [done|]. intros H. simpl.
  destruct (H c) as (ty & Hty & Hty'); [by apply elem_of_cons; left|].
  rewrite Hty, decide_True by done. apply IH.
  intros c' Hc'. apply H. by apply elem_of_cons; right.
Qed.

Lemma checkExtra_Ok t schema :
  checkExtra t schema = Ok tt
  ↔ size (cols t) = length schema ∨ ∀ col, is_Some (cols t !! col) → col ∈ schema.
Proof.
  unfold checkExtra. case_bool_decide as Hs.
  - destruct (filter _ _) as [|c l] eqn:Hf.
    + split; [|done]. intros _. right. intros col [s Hcol].
      destruct (decide (col ∈ schema)) as [|Hn]; [done|]. exfalso.
      assert (Hin : col ∈ filter (λ col, col ∉ (list_to_set schema : gset string))
                                 (map_to_list (cols t)).*1).
      { apply list_elem_of_filter. split; [by rewrite elem_of_list_to_set|].
        apply list_elem_of_fmap. exists (col, s). split; [done|].
        by apply elem_of_map_to_list. }
      rewrite Hf in Hin. by apply elem_of_nil in Hin.
    + split; [done|]. intros [H|H]; [done|]. exfalso.
      assert (Hin : c ∈ filter (λ col, col ∉ (list_to_set schema : gset string))
                               (map_to_list (cols t)).*1).
      { rewrite Hf. by apply elem_of_cons; left. }
      apply list_elem_of_filter in Hin as [Hn Hin]. apply Hn.
      apply elem_of_list_to_set, H.
      apply list_elem_of_fmap in Hin as ([c' s] & -> & Hin).
      apply elem_of_map_to_list in Hin. by exists s.
  - split; [|done]. intros _. left.
    destruct (decide (size (cols t) = length schema)); [done|]. by destruct Hs.
Qed.

Lemma validate_first (h : heap) g gid gid0 rest tBase tbv tv :
  filter (λ gid2, gid ≠ gid2) (groups g) = gid0 :: rest →
  tables g !! gid0 = Some tBase → h !! tBase = Some tbv →
  validate h (withoutGroup g gid) tv
  = match checkColumns tbv tv (names (gcolNames g)) with
    | Panicked e => Panicked e
    | Ok _ => checkExtra tv (names (gcolNames g))
    end.
Proof.
  intros Hf Hb Htb. unfold validate. simpl. rewrite Hf.
  assert (Hne : gid ≠ gid0).
  { assert (Hin : gid0 ∈ filter (λ gid2, gid ≠ gid2) (groups g)).
    { rewrite Hf. by apply elem_of_cons; left. }
    by apply list_elem_of_filter in Hin as [? _]. }
  rewrite lookup_delete_ne, Hb, Htb by done.
  by destruct (names (gcolNames g)).
Qed.

(** X11. The checks of [groupedTable.AddTable] when another group is left
    after the eviction. The call returns exactly when every column name of
    the Grouping names a column or constant of the added Table whose type
    is the type of that column in the first group, and the added Table
    has as many sequence columns as the Grouping has names or all of its
    sequence columns are among these names. Otherwise the panic is about
    the first name of the Grouping that the added Table lacks or has at
    another type. *)
Theorem AddTable_validation (h : heap) g gid t tv gid0 rest tBase tbv :
  grouped_wf g → h !! t = Some tv → colNames tv ≠ None →
  filter (λ gid2, gid ≠ gid2) (groups g) = gid0 :: rest →
  tables g !! gid0 = Some tBase → h !! tBase = Some tbv →
  let schema := names (gcolNames g) in
  let matches col := ∃ ty, addedType tv col = Ok ty ∧ baseType tbv col = Some ty in
  ((∃ g', (groupedTable_AddTable g gid (Some t) h).1 = Ok g')
   ↔ (∀ col, col ∈ schema → matches col)
     ∧ (size (cols tv) = length schema
        ∨ ∀ col, is_Some (cols tv !! col) → col ∈ schema))
  ∧ (∀ pre col post, schema = pre ++ col :: post → (∀ c, c ∈ pre → matches c) →
       (cols tv !! col = None → consts tv !! col = None →
        (groupedTable_AddTable g gid (Some t) h).1 = Panicked (MissingColumn col))
       ∧ (∀ ty, addedType tv col = Ok ty → baseType tbv col ≠ Some ty →
          (groupedTable_AddTable g gid (Some t) h).1
          = Panicked (TypeMismatch col (baseType tbv col) (Some ty)))).
Proof.
  intros Hwf Ht Hne Hf Hb Htb schema matches.
  rewrite (groupedTable_AddTable_eq _ _ _ _ _ Ht Hne), (evict_eq _ _ Hwf).
  rewrite (validate_first _ _ _ _ _ _ _ _ Hf Hb Htb). fold schema. simpl. split.
  - subst matches. cbv beta. rewrite <- checkColumns_Ok, <- checkExtra_Ok. split.
    + intros [g' Hg']. destruct (checkColumns tbv tv schema) as [[]|]; [|done].
      split; [done|]. by destruct (checkExtra tv schema) as [[]|].
    + intros [-> ->]. by eexists.
  - intros pre col post Hs Hpre. rewrite Hs, (checkColumns_first _ _ _ _ _ Hpre).
    simpl. split.
    + intros Hc Hk. unfold addedType. by rewrite Hc, Hk.
    + intros ty Hty Hbt. rewrite Hty, decide_False; done.
Qed.

Lemma AddTable_validation_witness :
  let g := groupScenario in
  let h := groupScenarioHeap in
  let tv := withColumn emptyTable "x" (SInt [3]%Z) 1 in
  let tbv := withColumn emptyTable "x" (SInt [1; 2]%Z) 2 in
  let schema := names (gcolNames g) in
  let matches col := ∃ ty, addedType tv col = Ok ty ∧ baseType tbv col = Some ty in
  ((∃ g', (groupedTable_AddTable g ["b"] (Some 2) h).1 = Ok g')
   ↔ (∀ col, col ∈ schema → matches col)
     ∧ (size (cols tv) = length schema
        ∨ ∀ col, is_Some (cols tv !! col) → col ∈ schema))
  ∧ (∀ pre col post, schema = pre ++ col :: post → (∀ c, c ∈ pre → matches c) →
       (cols tv !! col = None → consts tv !! col = None →
        (groupedTable_AddTable g ["b"] (Some 2) h).1 = Panicked (MissingColumn col))
       ∧ (∀ ty, addedType tv col = Ok ty → baseType tbv col ≠ Some ty →
          (groupedTable_AddTable g ["b"] (Some 2) h).1
          = Panicked (TypeMismatch col (baseType tbv col) (Some ty)))).
Proof.
  apply (AddTable_validation groupScenarioHeap groupScenario ["b"] 2 _ ["a"] [] 1).
  - split; [apply NoDup_singleton|]. intros gid. simpl.
    rewrite list_elem_of_singleton. split.
    + intros ->. by rewrite lookup_singleton_eq.
    + intros [t Ht]. by apply lookup_singleton_Some in Ht as [-> _].
  - reflexivity.
  - done.
  - reflexivity.
  - reflexivity.
  - reflexivity.
Defined.

Lemma asGrouped_Table_wf (h : heap) t og :
  asGrouped h (GTable t) = Some og →
  grouped_wf og ∧ (∀ gid, gid ∈ groups og → gid = RootGroupID)
  ∧ (groups og = [] → gcolNames og = None).
Proof.
  simpl. destruct (h !! t) as [tv|]; simpl; [|done]. intros [= <-].
  destruct (colNames tv); simpl.
  - split; [split; [apply NoDup_singleton|]|split; [|done]].
    + intros gid. simpl. rewrite list_elem_of_singleton. split.
      * intros ->. by rewrite lookup_singleton_eq.
      * intros [l0 Hl]. by apply lookup_singleton_Some in Hl as [-> _].
    + intros gid Hgid. by apply list_elem_of_singleton in Hgid.
  - split; [split; [constructor|]|split; [|done]].
    + intros gid. simpl. rewrite lookup_empty. split; [by intros ?%elem_of_nil|by intros [? ?]].
    + intros gid Hgid. by apply elem_of_nil in Hgid.
Qed.

(** X12. A Table is a Grouping with one group, itself at the root, or
    with no group if it is empty: [AddTable] on a Table returns or panics
    as [AddTable] does on the [groupedTable] of that one group, and what
    it returns lists the same group ids, Tables and column names. The
    store stays as it is, except for the new empty Table that stands for
    the Grouping without groups when nil is added at the root. *)
Theorem Table_AddTable_as_group (h : heap) t0 og gid t :
  asGrouped h (GTable t0) = Some og →
  (∀ l, t = Some l → is_Some (h !! l)) →
  match (groupedTable_AddTable og gid t h).1 with
  | Ok og' =>
      ∃ out' h', Table_AddTable t0 gid t h = (Ok out', h')
                 ∧ (h' = h ∨ h' = h ++ [emptyTable])
                 ∧ Grouping_Tables out' h' = (Ok (groups og'), h')
                 ∧ (∀ gid2, Grouping_Table out' gid2 h' = (Ok (tables og' !! gid2), h'))
                 ∧ Grouping_Columns out' h' = (Ok (gcolNames og'), h')
  | Panicked e => Table_AddTable t0 gid t h = (Panicked e, h)
  end.
Proof.
  intros Hog Ht. destruct (asGrouped_Table_wf _ _ _ Hog) as (Hwf & Hroot & Hnil).
  destruct t as [l|].
  - destruct (Ht l eq_refl) as [tv Hl].
    destruct (decide (colNames tv = None)) as [Hn|Hn].
    + rewrite (groupedTable_AddTable_empty _ _ _ _ _ Hl Hn). simpl.
      exists (GTable t0), h. split.
      { unfold Table_AddTable. erewrite bind_Ok by by apply Table_isEmpty_eq.
        by rewrite bool_decide_eq_true_2. }
      split; [by left|]. split; [by apply Grouping_Tables_view|].
      split; [|by apply Grouping_Columns_view].
      intros gid2. by apply Grouping_Table_view.
    + pose proof (Grouping_AddTable_view h (GTable t0) og gid l tv Hog Hl Hn) as Hv.
      destruct (groupedTable_AddTable og gid (Some l) h) as [[og'|e] h1]; simpl; [|done].
      destruct Hv as (out' & Hadd & Hog'). exists out', h. split; [done|].
      split; [by left|]. split; [by apply Grouping_Tables_view|].
      split; [|by apply Grouping_Columns_view].
      intros gid2. by apply Grouping_Table_view.
  - rewrite (groupedTable_AddTable_nil _ _ _ Hwf). simpl. unfold Table_AddTable.
    destruct (decide (gid = RootGroupID)) as [->|Hgid].
    + exists (GTable (length h)), (h ++ [emptyTable]). split; [done|]. split; [by right|].
      assert (Hf : filter (λ gid2, RootGroupID ≠ gid2) (groups og) = []).
      { destruct (filter _ _) as [|x f] eqn:Hf; [done|].
        assert (Hin : x ∈ filter (λ gid2, RootGroupID ≠ gid2) (groups og)).
        { rewrite Hf. by apply elem_of_cons; left. }
        apply list_elem_of_filter in Hin as [Hne Hin]. by rewrite (Hroot _ Hin) in Hne. }
      rewrite Hf.
      assert (He : asGrouped (h ++ [emptyTable]) (GTable (length h))
                   = Some (mkGrouped ∅ [] None)).
      { simpl. by rewrite lookup_app_r, Nat.sub_diag by lia. }
      split; [by rewrite (Grouping_Tables_view _ _ _ He)|].
      split; [|by rewrite (Grouping_Columns_view _ _ _ He)].
      intros gid2. rewrite (Grouping_Table_view _ _ _ _ He). simpl.
      rewrite lookup_empty. destruct (decide (gid2 = RootGroupID)) as [->|Hne].
      * by rewrite lookup_delete_eq.
      * rewrite lookup_delete_ne by done.
        destruct (tables og !! gid2) eqn:Hl; [|done].
        exfalso. apply Hne, Hroot, Hwf. by eexists.
    + exists (GTable t0), h. split; [done|]. split; [by left|].
      assert (Hnot : gid ∉ groups og) by (intros Hin; by apply Hroot in Hin).
      pose proof (withoutGroup_id _ _ Hwf Hnot) as Hid. unfold withoutGroup in Hid.
      assert (Hd : delete gid (tables og) = tables og) by by rewrite <- Hid at 2.
      assert (Hf : filter (λ gid2, gid ≠ gid2) (groups og) = groups og)
        by by rewrite <- Hid at 2.
      rewrite Hd, Hf.
      split; [by apply Grouping_Tables_view|].
      split; [intros gid2; by apply Grouping_Table_view|].
      rewrite (Grouping_Columns_view _ _ _ Hog).
      destruct (groups og) eqn:Hg; [|done]. by rewrite Hnil.
Qed.

Lemma Table_AddTable_as_group_witness :
  match (groupedTable_AddTable (mkGrouped {[RootGroupID := 1]} [RootGroupID] (Some ["x"]))
           ["b"] (Some 2) groupScenarioHeap).1 with
  | Ok og' =>
      ∃ out' h', Table_AddTable 1 ["b"] (Some 2) groupScenarioHeap = (Ok out', h')
                 ∧ (h' = groupScenarioHeap ∨ h' = groupScenarioHeap ++ [emptyTable])
                 ∧ Grouping_Tables out' h' = (Ok (groups og'), h')
                 ∧ (∀ gid2, Grouping_Table out' gid2 h' = (Ok (tables og' !! gid2), h'))
                 ∧ Grouping_Columns out' h' = (Ok (gcolNames og'), h')
  | Panicked e => Table_AddTable 1 ["b"] (Some 2) groupScenarioHeap = (Panicked e, groupScenarioHeap)
  end.
Proof.
  apply (Table_AddTable_as_group groupScenarioHeap 1 _ ["b"] (Some 2)).
  - reflexivity.
  - intros l [= <-]. by eexists.
Defined.

Lemma grouped_wf_nil g : grouped_wf g → groups g = [] → tables g = ∅.
Proof.
  intros [_ Hdom] Hg. apply map_eq. intros gid. rewrite lookup_empty.
  destruct (tables g !! gid) eqn:Hl; [|done].
  assert (Hin : gid ∈ groups g) by (apply Hdom; by eexists).
  rewrite Hg in Hin. by apply elem_of_nil in Hin.
Qed.

(** X13. [addTableUpdate(gid, t)] never panics on a Table in the store
    and checks nothing: afterwards [gid] is bound to [t], the other
    groups are bound as before, and group ids are still listed once and
    are the keys of the bindings. A group id that is bound already keeps
    its place in the order of the groups. For a group id that is new and
    a Table with columns it leaves the [groupedTable] that [AddTable]
    returns whenever [AddTable] accepts [t]; for the empty Table the two
    differ: [AddTable] returns the receiver, [addTableUpdate] binds [gid]
    as the last group. *)
Theorem addTableUpdate_binds (h : heap) g gid t tv :
  grouped_wf g → h !! t = Some tv →
  ∃ g', groupedTable_addTableUpdate g gid t h = (Ok g', h)
        ∧ grouped_wf g'
        ∧ tables g' !! gid = Some t
        ∧ (∀ gid2, gid2 ≠ gid → tables g' !! gid2 = tables g !! gid2)
        ∧ (gid ∈ groups g → groups g' = groups g ∧ gcolNames g' = gcolNames g)
        ∧ (gid ∉ groups g →
           groups g' = groups g ++ [gid]
           ∧ ∀ g2, (groupedTable_AddTable g gid (Some t) h).1 = Ok g2 →
                   (colNames tv ≠ None → g2 = g')
                   ∧ (colNames tv = None → g2 = g ∧ g2 ≠ g')).
Proof.
  intros Hwf Ht. unfold groupedTable_addTableUpdate.
  destruct (groups g) as [|gid0 gids] eqn:Hg.
  - erewrite bind_Ok by by apply Table_Columns_eq. eexists. split; [done|]. simpl.
    split; [|split; [apply lookup_singleton_eq|split; [|split]]].
    + split; [apply NoDup_singleton|]. intros k. simpl.
      rewrite list_elem_of_singleton. split.
      * intros ->. by rewrite lookup_singleton_eq.
      * intros [l Hl]. by apply lookup_singleton_Some in Hl as [-> _].
    + intros gid2 Hne. rewrite lookup_singleton_ne by done.
      by rewrite (grouped_wf_nil _ Hwf Hg), lookup_empty.
    + by intros ?%elem_of_nil.
    + intros _. split; [done|]. intros g2 Hg2. split.
      * intros Hne.
        rewrite (groupedTable_AddTable_eq _ _ _ _ _ Ht Hne), (evict_eq _ _ Hwf) in Hg2.
        unfold validate, withGroup in Hg2. simpl in Hg2. rewrite Hg in Hg2. simpl in Hg2.
        injection Hg2 as <-. rewrite (grouped_wf_nil _ Hwf Hg), delete_empty.
        by rewrite insert_empty.
      * intros Hn. rewrite (groupedTable_AddTable_empty _ _ _ _ _ Ht Hn) in Hg2.
        injection Hg2 as <-. split; [done|]. intros Heq.
        apply (f_equal groups) in Heq. simpl in Heq. by rewrite Hg in Heq.
  - rewrite <- Hg. eexists. split; [done|]. simpl.
    split; [|split; [apply lookup_insert_eq|split; [|split]]].
    + destruct (tables g !! gid) as [l|] eqn:Hl.
      * destruct Hwf as [Hnd Hdom]. split; [done|]. intros k. simpl. rewrite Hdom.
        destruct (decide (k = gid)) as [->|Hk].
        -- rewrite lookup_insert_eq, Hl. split; intros _; by eexists.
        -- by rewrite lookup_insert_ne.
      * assert (Hnot : gid ∉ groups g).
        { intros Hin. apply Hwf in Hin as [? Hin]. by rewrite Hl in Hin. }
        pose proof (withGroup_wf g gid t tv Hwf Hnot) as Hw.
        destruct Hw as [Hnd Hdom]. split; [exact Hnd|exact Hdom].
    + intros gid2 Hne. by rewrite lookup_insert_ne.
    + intros Hin. apply Hwf in Hin as [l Hl]. by rewrite Hl.
    + intros Hnot.
      assert (Hl : tables g !! gid = None).
      { destruct (tables g !! gid) as [l|] eqn:Hl; [|done].
        exfalso. apply Hnot, Hwf. by eexists. }
      rewrite Hl. split; [done|]. intros g2 Hg2. split.
      * intros Hne.
        rewrite (groupedTable_AddTable_eq _ _ _ _ _ Ht Hne), (evict_eq _ _ Hwf) in Hg2.
        rewrite (withoutGroup_id _ _ Hwf Hnot) in Hg2.
        destruct (validate h g tv); [|done]. simpl in Hg2. injection Hg2 as <-.
        unfold withGroup. by rewrite Hg.
      * intros Hn. rewrite (groupedTable_AddTable_empty _ _ _ _ _ Ht Hn) in Hg2.
        injection Hg2 as <-. split; [done|]. intros Heq.
        apply (f_equal (λ x, length (groups x))) in Heq. simpl in Heq.
        rewrite length_app in Heq. simpl in Heq. lia.
Qed.

Lemma addTableUpdate_binds_witness :
  (let tv := withColumn emptyTable "x" (SInt [3]%Z) 1 in
   ∃ g', groupedTable_addTableUpdate groupScenario ["b"] 2 groupScenarioHeap
         = (Ok g', groupScenarioHeap)
         ∧ grouped_wf g'
         ∧ tables g' !! ["b"] = Some 2
         ∧ (∀ gid2, gid2 ≠ ["b"] → tables g' !! gid2 = tables groupScenario !! gid2)
         ∧ (["b"] ∈ groups groupScenario →
            groups g' = groups groupScenario ∧ gcolNames g' = gcolNames groupScenario)
         ∧ (["b"] ∉ groups groupScenario →
            groups g' = groups groupScenario ++ [["b"]]
            ∧ ∀ g2, (groupedTable_AddTable groupScenario ["b"] (Some 2) groupScenarioHeap).1
                    = Ok g2 →
                    (colNames tv ≠ None → g2 = g')
                    ∧ (colNames tv = None → g2 = groupScenario ∧ g2 ≠ g')))
  ∧ (let tv := emptyTable in
     ∃ g', groupedTable_addTableUpdate groupScenario ["b"] 0 groupScenarioHeap
           = (Ok g', groupScenarioHeap)
           ∧ grouped_wf g'
           ∧ tables g' !! ["b"] = Some 0
           ∧ (∀ gid2, gid2 ≠ ["b"] → tables g' !! gid2 = tables groupScenario !! gid2)
           ∧ (["b"] ∈ groups groupScenario →
              groups g' = groups groupScenario ∧ gcolNames g' = gcolNames groupScenario)
           ∧ (["b"] ∉ groups groupScenario →
              groups g' = groups groupScenario ++ [["b"]]
              ∧ ∀ g2, (groupedTable_AddTable groupScenario ["b"] (Some 0) groupScenarioHeap).1
                      = Ok g2 →
                      (colNames tv ≠ None → g2 = g')
                      ∧ (colNames tv = None → g2 = groupScenario ∧ g2 ≠ g'))).
Proof.
  assert (Hwf : grouped_wf groupScenario).
  { split; [apply NoDup_singleton|]. intros gid. simpl.
    rewrite list_elem_of_singleton. split.
    - intros ->. by rewrite lookup_singleton_eq.
    - intros [t Ht]. by apply lookup_singleton_Some in Ht as [-> _]. }
  split.
  - apply (addTableUpdate_binds groupScenarioHeap groupScenario ["b"] 2); [exact Hwf|].
    reflexivity.
  - apply (addTableUpdate_binds groupScenarioHeap groupScenario ["b"] 0); [exact Hwf|].
    reflexivity.
Defined.

(** * Further properties of [SortBy] *)



(** X17. [SortBy] changes nothing a client can read from the Tables that
    were there before the call: [Len], [Columns], [Column] and [Const] of
    each of them return what they returned before; and the Tables of the
    store still satisfy the invariant of Tables. *)
Theorem SortBy_keeps_tables h g cs out h' l tv :
  reachable h → grouping_wf h (length h) g →
  SortBy g cs h = (Ok out, h') →
  h !! l = Some tv →
  heap_inv h'
  ∧ (Table_Len l h').1 = (Table_Len l h).1
  ∧ (Table_Columns l h').1 = (Table_Columns l h).1
  ∧ (∀ name, (Table_Column l name h').1 = (Table_Column l name h).1)
  ∧ (∀ name, (Table_Const l name h').1 = (Table_Const l name h).1).
Proof.
  intros Hr Hwf Hrun Hl. pose proof (reachable_heap_inv _ Hr) as Hh.
  destruct (SortBy_spec _ _ _ _ _ Hh Hwf Hrun)
    as (binds & og & _ & _ & _ & _ & _ & _ & _ & Hh' & Hext & _).
  destruct (proj2 Hext _ _ Hl) as (tv1 & Hl1 & Hc).
  split; [done|]. split; [|split; [|split]].
  - by rewrite (Table_Len_eq _ _ _ Hl1), (Table_Len_eq _ _ _ Hl), (cached_len _ _ Hc).
  - by rewrite (Table_Columns_eq _ _ _ Hl1), (Table_Columns_eq _ _ _ Hl), (cached_names _ _ Hc).
  - intros name.
    by rewrite (Table_Column_view _ _ _ _ Hl1), (Table_Column_view _ _ _ _ Hl),
      (cached_view _ _ Hc).
  - intros name.
    by rewrite (Table_Const_eq _ _ _ _ Hl1), (Table_Const_eq _ _ _ _ Hl), (cached_consts _ _ Hc).
Qed.

Lemma SortBy_keeps_tables_witness :
  heap_inv sortScenario.2
  ∧ (Table_Len 2 sortScenario.2).1 = (Table_Len 2 sortScenarioHeap).1
  ∧ (Table_Columns 2 sortScenario.2).1 = (Table_Columns 2 sortScenarioHeap).1
  ∧ (∀ name, (Table_Column 2 name sortScenario.2).1 = (Table_Column 2 name sortScenarioHeap).1)
  ∧ (∀ name, (Table_Const 2 name sortScenario.2).1 = (Table_Const 2 name sortScenarioHeap).1).
Proof.
  apply (SortBy_keeps_tables sortScenarioHeap (GTable 2) ["k"] (returned sortScenario)
           sortScenario.2 2
           (withConst (withColumn emptyTable "k" (SInt [3; 1; 2]%Z) 3) "c" (VInt 7))).
  - eexists. reflexivity.
  - split; [vm_compute; lia|]. eexists. reflexivity.
  - reflexivity.
  - reflexivity.
Defined.

Lemma Grouping_Table_notin_Tables (h : heap) n g gid gids :
  grouping_wf h n g →
  Grouping_Table g gid h = (Ok None, h) →
  Grouping_Tables g h = (Ok gids, h) → gid ∉ gids.
Proof.
  destruct g as [t0|g]; simpl.
  - intros [_ [tv Ht]]. unfold Table_Table, Table_Tables.
    erewrite bind_Ok by by apply Table_isEmpty_eq.
    destruct (decide (gid = RootGroupID)) as [->|Hne].
    + erewrite bind_Ok by by apply Table_isEmpty_eq.
      destruct (bool_decide (colNames tv = None)); unfold ret; [|done].
      intros _ [= <-]. apply not_elem_of_nil.
    + destruct (bool_decide (colNames tv = None)); unfold ret; intros _ [= <-].
      * apply not_elem_of_nil.
      * by intros ?%list_elem_of_singleton.
  - intros [[_ Hdom] _]. unfold ret. intros [= Hl] [= <-] Hin.
    apply Hdom in Hin as [? Hin]. by rewrite Hl in Hin.
Qed.

Lemma replay_colNames (h : heap) binds : ∀ og og',
  grouped_wf og → groups og ≠ [] → NoDup (binds.*1) →
  (∀ b, b ∈ binds → b.1 ∉ groups og) →
  (∀ b, b ∈ binds → ∃ tv, h !! b.2 = Some tv ∧ colNames tv ≠ None) →
  replay h og binds = Ok og' → gcolNames og' = gcolNames og.
Proof.
  induction binds as [|[gid t] binds IH]; intros og og' Hwf Hg Hnd Hfresh Hne Hrun.
  - simpl in Hrun. by simplify_eq.
  - simpl in Hrun. rewrite fmap_cons in Hnd. apply NoDup_cons in Hnd as [Hgid Hnd].
    destruct (Hne (gid, t)) as (tv & Ht & Hnet); [by left|]. simpl in Ht, Hnet.
    rewrite (groupedTable_AddTable_eq _ _ _ _ _ Ht Hnet) in Hrun. simpl in Hrun.
    assert (Hfr : gid ∉ groups og) by (apply (Hfresh (gid, t)); by left).
    rewrite (evict_eq _ _ Hwf), (withoutGroup_id _ _ Hwf Hfr) in Hrun.
    destruct (validate h og tv); [|done].
    rewrite (IH (withGroup og gid t tv) og'); try done.
    + unfold withGroup. simpl. by destruct (groups og).
    + by apply withGroup_wf.
    + simpl. by destruct (groups og).
    + intros b Hb. simpl. rewrite elem_of_app, list_elem_of_singleton. intros [Hin|Heq].
      * apply (Hfresh b); [by right|done].
      * apply Hgid. rewrite <- Heq. apply list_elem_of_fmap. by exists b.
    + intros b Hb. apply Hne. by right.
Qed.

(** The Table bound to a group has the column names and the row count
    of the group. *)
Lemma groupResult_shape g cs (h h' : heap) b :
  heap_inv h → heap_ext h h' → groupResult g cs (length h) h h' b →
  ∃ t tv tv', Grouping_Table g b.1 h = (Ok (Some t), h) ∧ h !! t = Some tv
              ∧ h' !! b.2 = Some tv' ∧ colNames tv' ≠ None
              ∧ colNames tv' = colNames tv ∧ len tv' = len tv.
Proof.
  intros Hh Hext (t & tv & HT & _ & Ht & Hne & _ & Hsorted & _ & tv' & Htv' & Hne').
  exists t, tv, tv'. split; [done|]. split; [done|]. split; [done|]. split; [done|].
  unfold sortedAs in Hsorted. destruct (keptSorters tv cs) as [|s l].
  - rewrite Hsorted in Htv'. destruct (proj2 Hext _ _ Ht) as (tv1 & Ht1 & Hc).
    rewrite Htv' in Ht1. injection Ht1 as <-.
    split; [apply (cached_names _ _ Hc)|apply (cached_len _ _ Hc)].
  - destruct Hsorted as [_ Hp]. rewrite Htv' in Hp. injection Hp as ->.
    destruct (permutedTable_spec tv (rowPerm tv cs) (Hh _ _ Ht) (rowPerm_bound tv cs))
      as (_ & _ & Hs & _).
    destruct (Hs Hne) as [Hn Hl]. split; [done|]. by rewrite Hl, rowPerm_length.
Qed.

(** X16. [SortBy] keeps the shape of the Grouping: the result has the
    group ids of the argument in the same order and no Table for any
    other id; the Table of each group has the column names, in order, and
    the row count of the group it was sorted from; and the column names
    of the result are those of the first group, or nil without groups. *)
Theorem SortBy_keeps_shape h g cs out h' :
  reachable h → grouping_wf h (length h) g →
  SortBy g cs h = (Ok out, h') →
  (Grouping_Tables out h').1 = (Grouping_Tables g h).1
  ∧ (∀ gid t tv, Grouping_Table g gid h = (Ok (Some t), h) → h !! t = Some tv →
       ∃ t', Grouping_Table out gid h' = (Ok (Some t'), h')
             ∧ Table_Columns t' h' = (Ok (colNames tv), h')
             ∧ Table_Len t' h' = (Ok (len tv), h'))
  ∧ (∀ gid, Grouping_Table g gid h = (Ok None, h) →
       Grouping_Table out gid h' = (Ok None, h'))
  ∧ (Grouping_Tables g h = (Ok [], h) → Grouping_Columns out h' = (Ok None, h'))
  ∧ (∀ gid0 gids t0 tv0,
       Grouping_Tables g h = (Ok (gid0 :: gids), h) →
       Grouping_Table g gid0 h = (Ok (Some t0), h) → h !! t0 = Some tv0 →
       Grouping_Columns out h' = (Ok (colNames tv0), h')).
Proof.
  intros Hr Hwf Hrun. pose proof (reachable_heap_inv _ Hr) as Hh.
  destruct (SortBy_spec _ _ _ _ _ Hh Hwf Hrun)
    as (binds & og & Hgids & Hnd & Hog & Hwfog & Hg & Htab & Hreplay & Hh' & Hext & Hres).
  rewrite Forall_forall in Hres.
  split; [by rewrite (Grouping_Tables_view _ _ _ Hog), Hgids, Hg|].
  split; [|split; [|split]].
  - intros gid t tv HT Ht.
    pose proof (Grouping_Table_in_Tables _ _ _ _ _ _ Hwf HT Hgids) as Hin.
    apply list_elem_of_fmap in Hin as ([gid' t'] & -> & Hb).
    destruct (groupResult_shape _ _ _ _ _ Hh Hext (Hres _ Hb))
      as (t1 & tv1 & tv' & HT1 & Ht1 & Htv' & _ & Hn & Hl).
    simpl in *. rewrite HT in HT1. simplify_eq. exists t'. split.
    { rewrite (Grouping_Table_view _ _ _ _ Hog). pose proof (Htab _ Hb) as Hlk.
      simpl in Hlk. by rewrite Hlk. }
    split.
    + by rewrite (Table_Columns_eq _ _ _ Htv'), Hn.
    + by rewrite (Table_Len_eq _ _ _ Htv'), Hl.
  - intros gid HT. rewrite (Grouping_Table_view _ _ _ _ Hog).
    pose proof (Grouping_Table_notin_Tables _ _ _ _ _ Hwf HT Hgids) as Hnot.
    rewrite <- Hg in Hnot. destruct (tables og !! gid) eqn:Hl; [|done].
    exfalso. apply Hnot, Hwfog. by eexists.
  - intros Hnil. rewrite Hgids in Hnil. injection Hnil as Hnil.
    destruct binds; [|done]. simpl in Hreplay. injection Hreplay as <-.
    by rewrite (Grouping_Columns_view _ _ _ Hog).
  - intros gid0 gids t0 tv0 HG HT Ht. rewrite Hgids in HG. injection HG as HG.
    destruct binds as [|[gid' t'] binds]; [done|]. rewrite fmap_cons in HG, Hnd.
    injection HG as -> _. apply NoDup_cons in Hnd as [Hfresh Hnd].
    destruct (groupResult_shape _ _ _ _ _ Hh Hext (Hres (gid0, t') ltac:(by left)))
      as (t1 & tv1 & tv' & HT1 & Ht1 & Htv' & Hne' & Hn & _).
    simpl in *. rewrite HT in HT1. simplify_eq.
    rewrite (Grouping_Columns_view _ _ _ Hog).
    rewrite (groupedTable_AddTable_eq _ _ _ _ _ Htv' Hne') in Hreplay.
    simpl in Hreplay.
    change (evict (mkGrouped ∅ [] None) gid0) with (mkGrouped ∅ [] None) in Hreplay.
    assert (Hcn : gcolNames og
                  = gcolNames (withGroup (mkGrouped ∅ [] None) gid0 t' tv'));
      [|by rewrite Hcn, <- Hn].
    apply (replay_colNames h' binds); [| | | | |exact Hreplay].
    + apply (withGroup_wf (mkGrouped ∅ [] None)); [|apply not_elem_of_nil].
      split; [constructor|]. intros k. simpl. rewrite lookup_empty.
      split; [by intros ?%elem_of_nil|by intros [? ?]].
    + done.
    + done.
    + intros b Hb. simpl. rewrite list_elem_of_singleton. intros Heq. apply Hfresh.
      rewrite <- Heq. apply list_elem_of_fmap. by exists b.
    + intros b Hb.
      destruct (groupResult_shape _ _ _ _ _ Hh Hext (Hres b ltac:(by right)))
        as (_ & _ & tvb & _ & _ & Htvb & Hneb & _). by exists tvb.
Qed.

Lemma SortBy_keeps_shape_witness :
  let g := GTable 2 in
  let h := sortScenarioHeap in
  let out := returned sortScenario in
  let h' := sortScenario.2 in
  (Grouping_Tables out h').1 = (Grouping_Tables g h).1
  ∧ (∀ gid t tv, Grouping_Table g gid h = (Ok (Some t), h) → h !! t = Some tv →
       ∃ t', Grouping_Table out gid h' = (Ok (Some t'), h')
             ∧ Table_Columns t' h' = (Ok (colNames tv), h')
             ∧ Table_Len t' h' = (Ok (len tv), h'))
  ∧ (∀ gid, Grouping_Table g gid h = (Ok None, h) →
       Grouping_Table out gid h' = (Ok None, h'))
  ∧ (Grouping_Tables g h = (Ok [], h) → Grouping_Columns out h' = (Ok None, h'))
  ∧ (∀ gid0 gids t0 tv0,
       Grouping_Tables g h = (Ok (gid0 :: gids), h) →
       Grouping_Table g gid0 h = (Ok (Some t0), h) → h !! t0 = Some tv0 →
       Grouping_Columns out h' = (Ok (colNames tv0), h')).
Proof.
  apply (SortBy_keeps_shape sortScenarioHeap (GTable 2) ["k"] (returned sortScenario)
           sortScenario.2).
  - eexists. reflexivity.
  - split; [vm_compute; lia|]. eexists. reflexivity.
  - reflexivity.
Defined.

Lemma Grouping_Tables_ext g (h h1 : heap) gids :
  heap_ext h h1 →
  Grouping_Tables g h = (Ok gids, h) → Grouping_Tables g h1 = (Ok gids, h1).
Proof.
  intros [_ Hext]. destruct g as [t0|g]; simpl.
  - unfold Table_Tables. destruct (h !! t0) as [tv0|] eqn:Ht0.
    + destruct (Hext _ _ Ht0) as (tv1 & Ht1 & Hc).
      erewrite !bind_Ok by by apply Table_isEmpty_eq.
      rewrite (cached_names _ _ Hc). unfold ret.
      destruct (bool_decide (colNames tv0 = None)); by intros [= <-].
    + unfold Table_isEmpty, bind, load. by rewrite Ht0.
  - unfold ret. by intros [= ->].
Qed.

(** The first sort column that does not exist or has no order stops the
    loop that creates the sorters. *)
Lemma makeSorters_panic t pre col post e : ∀ acc (h : heap) tv,
  h !! t = Some tv → table_inv tv →
  (∀ c, c ∈ pre → sortable tv c) →
  match columnView tv col with
  | None => UnknownColumn col = e
  | Some seq => Sorter seq = Panicked e
  end →
  (foldM (sorterStep t) acc (pre ++ col :: post) h).1 = Panicked e.
Proof.
  induction pre as [|c pre IH]; intros acc h tv Ht Hinv Hpre Hcol; simpl.
  - unfold bind. rewrite (sorterStep_eq _ _ _ _ _ Ht).
    destruct (columnView tv col) as [seq|]; [|by subst]. by rewrite Hcol.
  - destruct (Hpre c) as (seq & sorter & Hview & Hsorter); [by left|].
    erewrite bind_Ok; [|rewrite (sorterStep_eq _ _ _ _ _ Ht), Hview, Hsorter; reflexivity].
    pose proof (afterColumn_cached tv c) as Hc.
    apply (IH _ _ (afterColumn tv c)).
    + apply list_lookup_insert_eq. by eapply lookup_lt_Some.
    + by apply afterColumn_inv.
    + intros c' Hc'. destruct (Hpre c') as (seq' & sorter' & Hv' & Hs'); [by right|].
      exists seq', sorter'. split; [|done]. by rewrite (cached_view _ _ Hc).
    + by rewrite (cached_view _ _ Hc).
Qed.

Lemma bind_Panicked_1 {A B} (m : M A) (k : A → M B) h e :
  (m h).1 = Panicked e → (bind m k h).1 = Panicked e.
Proof. unfold bind. destruct (m h) as [[a|e'] h1]; simpl; [done|]. by intros [= ->]. Qed.

(** X18. [SortBy] panics in the first group at the first sort column
    that the group does not have ("unknown column") or whose elements
    have no order (a type error), when the sort columns before it exist
    and have an order: it sorts no group and returns nothing. *)
Theorem SortBy_panics h g cs gid gids t tv pre col post :
  reachable h →
  Grouping_Tables g h = (Ok (gid :: gids), h) →
  Grouping_Table g gid h = (Ok (Some t), h) → h !! t = Some tv →
  cs = pre ++ col :: post → (∀ c, c ∈ pre → sortable tv c) →
  (col ∉ names (colNames tv) → (SortBy g cs h).1 = Panicked (UnknownColumn col))
  ∧ (∀ s, columnView tv col = Some s → elemType s = TBool →
          (SortBy g cs h).1 = Panicked (NotOrderable TBool)).
Proof.
  intros Hr HG HT Ht -> Hpre. pose proof (reachable_heap_inv _ Hr) as Hh.
  pose proof (Hh _ _ Ht) as Hinv.
  assert (Hrun : ∀ e,
    match columnView tv col with
    | None => UnknownColumn col = e
    | Some seq => Sorter seq = Panicked e
    end → (SortBy g (pre ++ col :: post) h).1 = Panicked e).
  { intros e He. unfold SortBy. erewrite bind_Ok by reflexivity.
    pose proof (heap_ext_alloc h emptyTable) as Hext.
    erewrite bind_Ok by by apply (Grouping_Tables_ext _ _ _ _ Hext HG).
    simpl. apply bind_Panicked_1. unfold sortGroup.
    erewrite bind_Ok by by apply (Grouping_Table_ext _ _ _ _ _ Hext HT).
    apply bind_Panicked_1. rewrite sortTable_unfold. apply bind_Panicked_1.
    apply (makeSorters_panic _ _ _ _ _ _ _ tv); [by apply lookup_app_l_Some|done..]. }
  split.
  - intros Hcol. apply Hrun. by rewrite (proj2 (columnView_None _ _ Hinv) Hcol).
  - intros s Hs Hty. apply Hrun. rewrite Hs. by destruct s.
Qed.

Lemma SortBy_panics_witness :
  let tv := withConst (withColumn emptyTable "k" (SInt [3; 1; 2]%Z) 3) "c" (VInt 7) in
  ("z" ∉ names (colNames tv) →
   (SortBy (GTable 2) ["k"; "z"] sortScenarioHeap).1 = Panicked (UnknownColumn "z"))
  ∧ (∀ s, columnView tv "z" = Some s → elemType s = TBool →
          (SortBy (GTable 2) ["k"; "z"] sortScenarioHeap).1 = Panicked (NotOrderable TBool)).
Proof.
  apply (SortBy_panics sortScenarioHeap (GTable 2) ["k"; "z"] RootGroupID [] 2 _
           ["k"] "z" []).
  - eexists. reflexivity.
  - reflexivity.
  - reflexivity.
  - reflexivity.
  - reflexivity.
  - intros c Hc. apply list_elem_of_singleton in Hc as ->.
    eexists _, _. split; reflexivity.
Defined.

(** X19. [SortBy] of a Grouping without groups, such as the empty
    Table, reads no column: whatever the sort columns are, it returns a
    new empty Table and leaves the Tables of the store as they are. *)
Theorem SortBy_no_groups h g cs :
  Grouping_Tables g h = (Ok [], h) →
  SortBy g cs h = (Ok (GTable (length h)), h ++ [emptyTable]).
Proof.
  intros HG. unfold SortBy. erewrite bind_Ok by reflexivity.
  by erewrite bind_Ok by by apply (Grouping_Tables_ext _ _ _ _ (heap_ext_alloc h emptyTable) HG).
Qed.

Lemma SortBy_no_groups_witness :
  SortBy (GTable 0) ["z"] sortScenarioHeap
  = (Ok (GTable (length sortScenarioHeap)), sortScenarioHeap ++ [emptyTable]).
Proof. apply (SortBy_no_groups sortScenarioHeap (GTable 0) ["z"]). reflexivity. Defined.

(** ** The order of the rows after [SortBy] *)

Lemma Sorter_less s sorter a b x y :
  Sorter s = Ok sorter → elems s !! a = Some x → elems s !! b = Some y →
  sLess sorter a b = valueLess x y.
Proof.
  intros Hs Ha Hb. destruct s as [l|l|l]; simpl in *; [| |done]; simplify_eq; simpl;
    rewrite list_lookup_fmap in Ha, Hb;
    destruct (l !! a) as [x'|] eqn:Hx; [|done| |done];
    destruct (l !! b) as [y'|] eqn:Hy; [|done| |done]; simpl in *; simplify_eq;
    by rewrite (nth_lookup_Some _ _ _ _ Hx), (nth_lookup_Some _ _ _ _ Hy).
Qed.

Lemma Sorter_asym s sorter a b :
  Sorter s = Ok sorter → sLess sorter a b = true → sLess sorter b a = false.
Proof.
  intros Hs. destruct s as [l|l|l]; simpl in *; [| |done]; simplify_eq; simpl.
  - intros H. apply Z.ltb_lt in H. apply Z.ltb_ge. lia.
  - apply string_ltb_asym.
Qed.

Lemma Sorter_len s sorter : Sorter s = Ok sorter → sLen sorter = sliceLen s.
Proof. intros Hs. destruct s as [l|l|l]; simpl in *; by simplify_eq. Qed.

Lemma rowLess_asym keys a b :
  Forall (λ key, ∀ a b, sLess key a b = true → sLess key b a = false) keys →
  rowLess keys a b = true → rowLess keys b a = false.
Proof.
  induction 1 as [|key keys Hkey _ IH]; [done|]. simpl. destruct keys as [|key2 keys].
  - apply Hkey.
  - destruct (sLess key a b) eqn:Hab.
    + intros _. by rewrite (Hkey _ _ Hab).
    + destruct (sLess key b a); [done|]. apply IH.
Qed.

Lemma keptSorter_Some tv col key :
  keptSorter tv col = Some key →
  ∃ s, columnView tv col = Some s ∧ Sorter s = Ok key ∧ IsSorted key = false.
Proof.
  unfold keptSorter. destruct (columnView tv col) as [s|]; [|done].
  destruct (Sorter s) as [sorter|] eqn:Hs; [|done].
  destruct (IsSorted sorter) eqn:Hi; [done|]. intros [= <-]. by exists s.
Qed.

Lemma keptSorters_asym tv cs :
  Forall (λ key, ∀ a b, sLess key a b = true → sLess key b a = false) (keptSorters tv cs).
Proof.
  apply Forall_forall. intros key Hkey. apply list_elem_of_omap in Hkey as (col & _ & Hk).
  apply keptSorter_Some in Hk as (s & _ & Hs & _). intros a b. by apply (Sorter_asym s).
Qed.

(** [permSort.Less] on two rows is the tuple order of their values in
    the columns whose sorters are kept. *)
Lemma rowLess_tupleLess tv cs a b : ∀ ra rb,
  rowAt tv (keptNames tv cs) a ra → rowAt tv (keptNames tv cs) b rb →
  rowLess (keptSorters tv cs) a b = tupleLess ra rb.
Proof.
  unfold keptNames, keptSorters, rowAt.
  induction cs as [|col cs IH]; intros ra rb Ha Hb.
  - apply Forall2_nil_inv_l in Ha as ->. done.
  - rewrite filter_cons in Ha, Hb. csimpl.
    destruct (keptSorter tv col) as [key|] eqn:Hk.
    + rewrite decide_True in Ha, Hb by by eexists.
      apply Forall2_cons_inv_l in Ha as (x & ra' & (sa & Hva & Hxa) & Ha & ->).
      apply Forall2_cons_inv_l in Hb as (y & rb' & (sb & Hvb & Hyb) & Hb & ->).
      apply keptSorter_Some in Hk as (s & Hv & Hs & _).
      rewrite Hv in Hva, Hvb. simplify_eq.
      specialize (IH _ _ Ha Hb). simpl.
      rewrite <- (Sorter_less _ _ _ _ _ _ Hs Hxa Hyb), <- (Sorter_less _ _ _ _ _ _ Hs Hyb Hxa).
      destruct (omap (keptSorter tv) cs) as [|key2 keys] eqn:Hom.
      * destruct (sLess key a b); [done|]. rewrite <- IH. by destruct (sLess key b a).
      * by rewrite IH.
    + rewrite decide_False in Ha, Hb by by intros [? ?]. by apply IH.
Qed.

(** A row of the permuted Table is the row of the group at the index
    that the permutation holds at its position. *)
Lemma rowAt_permuted tv perm names p a r :
  table_inv tv → Forall (λ i, i < len tv) perm → perm !! p = Some a →
  rowAt (permutedTable tv perm) names p r → rowAt tv names a r.
Proof.
  intros Hinv Hperm Hp. unfold rowAt. intros H. eapply Forall2_impl; [exact H|].
  clear H. intros col x (s' & Hv' & Hx). rewrite (permutedTable_view _ _ Hinv Hperm) in Hv'.
  destruct (columnView tv col) as [s|] eqn:Hv; [|done]. simpl in Hv'.
  exists s. split; [done|].
  destruct (MultiIndex_Some s perm) as (s2 & Hs2 & _ & _ & Hel).
  { by rewrite (columnView_len _ _ _ Hinv Hv). }
  rewrite Hs2 in Hv'. injection Hv' as <-. by rewrite <- (Hel _ _ Hp).
Qed.

Lemma rowOf_rowAt tv names columns i r :
  mapM (columnView tv) names = Some columns → rowOf columns i = Some r →
  rowAt tv names i r.
Proof.
  unfold rowOf, rowAt. rewrite !mapM_Some. revert columns r.
  induction names as [|col names IH]; intros columns r Hc Hr.
  - apply Forall2_nil_inv_l in Hc as ->. apply Forall2_nil_inv_l in Hr as ->. constructor.
  - apply Forall2_cons_inv_l in Hc as (s & columns' & Hs & Hc & ->).
    apply Forall2_cons_inv_l in Hr as (x & r' & Hx & Hr & ->).
    constructor; [by exists s|by apply (IH columns')].
Qed.

Lemma keptNames_columns tv tv' cs :
  (∀ col, col ∈ cs → is_Some (columnView tv' col)) →
  ∃ columns, mapM (columnView tv') (keptNames tv cs) = Some columns.
Proof.
  intros Hcs. unfold keptNames.
  assert (H : Forall (λ col, is_Some (columnView tv' col))
                     (filter (λ col, is_Some (keptSorter tv col)) cs)).
  { apply Forall_forall. intros col Hcol. apply list_elem_of_filter in Hcol as [_ Hcol].
    by apply Hcs. }
  revert H. generalize (filter (λ col, is_Some (keptSorter tv col)) cs). intros l H.
  induction H as [|col l [s Hs] _ [columns IH]]; [by exists []|].
  exists (s :: columns). apply mapM_Some. constructor; [done|]. by apply mapM_Some.
Qed.

(** X20. What [SortBy] sorts by: in the Table bound to a group, the rows
    are in the tuple order of those sort columns that were not sorted
    already in the group, in the order given (each row is not less than
    the row before it). Sort columns that are sorted already do not take
    part in the comparison. *)
Theorem SortBy_sorts_by_unsorted_columns h g cs out h' gid t tv :
  reachable h → grouping_wf h (length h) g →
  SortBy g cs h = (Ok out, h') →
  Grouping_Table g gid h = (Ok (Some t), h) → h !! t = Some tv →
  ∃ t' tv' columns,
    Grouping_Table out gid h' = (Ok (Some t'), h') ∧ h' !! t' = Some tv'
    ∧ mapM (columnView tv') (keptNames tv cs) = Some columns
    ∧ rowsSorted columns.
Proof.
  intros Hr Hwf Hrun HT Ht. pose proof (reachable_heap_inv _ Hr) as Hh.
  pose proof (Hh _ _ Ht) as Hinv.
  destruct (SortBy_group _ _ _ _ _ _ _ _ Hh Hwf Hrun HT Ht)
    as (t' & tv' & HT' & Ht' & Hsorted & (tv1 & Ht1 & Hc) & Hsortable).
  assert (Hview : ∀ col, col ∈ cs → is_Some (columnView tv' col)).
  { intros col Hcol. destruct (Hsortable _ Hcol) as (s & sorter & Hv & Hs).
    unfold sortedAs in Hsorted. destruct (keptSorters tv cs).
    - subst t'. rewrite Ht' in Ht1. injection Ht1 as <-.
      rewrite (cached_view _ _ Hc), Hv. by eexists.
    - destruct Hsorted as [_ Hp]. rewrite Ht' in Hp. injection Hp as ->.
      rewrite (permutedTable_view _ _ Hinv (rowPerm_bound tv cs)), Hv. simpl.
      destruct (MultiIndex_Some s (rowPerm tv cs)) as (s2 & -> & _).
      { rewrite (columnView_len _ _ _ Hinv Hv). apply rowPerm_bound. }
      by eexists. }
  destruct (keptNames_columns tv tv' cs Hview) as [columns Hcolumns].
  exists t', tv', columns. split; [done|]. split; [done|]. split; [done|].
  intros p ra rb Ha Hb.
  pose proof (rowOf_rowAt _ _ _ _ _ Hcolumns Ha) as Hra.
  pose proof (rowOf_rowAt _ _ _ _ _ Hcolumns Hb) as Hrb.
  unfold sortedAs in Hsorted. destruct (keptSorters tv cs) as [|key keys] eqn:Hk.
  - (* no sorter is kept: there is no column to compare *)
    assert (Hn : keptNames tv cs = []).
    { unfold keptNames, keptSorters in *. clear -Hk.
      induction cs as [|col cs IH]; [done|]. rewrite filter_cons. csimpl in Hk.
      destruct (keptSorter tv col); [done|].
      rewrite decide_False by by intros [? ?]. by apply IH. }
    rewrite Hn in Hrb. by apply Forall2_nil_inv_l in Hrb as ->.
  - destruct Hsorted as [_ Hp]. rewrite Ht' in Hp. injection Hp as ->.
    pose proof (rowPerm_bound tv cs) as Hbound.
    assert (Hnames : keptNames tv cs ≠ []).
    { unfold keptNames, keptSorters in *. clear -Hk. intros Hn.
      induction cs as [|col cs IH]; [done|]. rewrite filter_cons in Hn. csimpl in Hk.
      destruct (keptSorter tv col); [by rewrite decide_True in Hn by by eexists|].
      rewrite decide_False in Hn by by intros [? ?]. by apply IH. }
    assert (Hlt : S p < length (rowPerm tv cs)).
    { destruct (keptNames tv cs) as [|col names] eqn:Hn; [done|].
      apply Forall2_cons_inv_l in Hrb as (y & rb' & (s' & Hv' & Hy) & _).
      rewrite (permutedTable_view _ _ Hinv Hbound) in Hv'.
      destruct (columnView tv col) as [s|] eqn:Hv; [|done]. simpl in Hv'.
      destruct (MultiIndex_Some s (rowPerm tv cs)) as (s2 & Hs2 & Hl2 & _).
      { by rewrite (columnView_len _ _ _ Hinv Hv). }
      rewrite Hs2 in Hv'. injection Hv' as <-.
      apply lookup_lt_Some in Hy. by rewrite length_elems, Hl2 in Hy. }
    destruct (lookup_lt_is_Some_2 (rowPerm tv cs) p ltac:(lia)) as [a Hpa].
    destruct (lookup_lt_is_Some_2 (rowPerm tv cs) (S p) Hlt) as [b Hpb].
    rewrite <- (rowLess_tupleLess tv cs b a);
      [|by eapply rowAt_permuted|by eapply rowAt_permuted].
    unfold rowPerm, sortPerm in Hpa, Hpb. simpl in Hpa, Hpb.
    apply (Stable_sorted _ _ _ _ _ (λ a b, rowLess_asym _ a b (keptSorters_asym tv cs))
             Hpa Hpb).
Qed.

Lemma SortBy_sorts_by_unsorted_columns_witness :
  ∃ t' tv' columns,
    Grouping_Table (returned sortScenario) RootGroupID sortScenario.2
    = (Ok (Some t'), sortScenario.2)
    ∧ sortScenario.2 !! t' = Some tv'
    ∧ mapM (columnView tv')
           (keptNames (withConst (withColumn emptyTable "k" (SInt [3; 1; 2]%Z) 3) "c" (VInt 7))
                      ["k"])
      = Some columns
    ∧ rowsSorted columns.
Proof.
  apply (SortBy_sorts_by_unsorted_columns sortScenarioHeap (GTable 2) ["k"]
           (returned sortScenario) sortScenario.2 RootGroupID 2).
  - eexists. reflexivity.
  - split; [vm_compute; lia|]. eexists. reflexivity.
  - reflexivity.
  - reflexivity.
  - reflexivity.
Defined.

Lemma Sorter_MultiIndex s sorter (perm : list nat) s' :
  Sorter s = Ok sorter → MultiIndex s perm = Some s' → ∃ sorter', Sorter s' = Ok sorter'.
Proof.
  intros Hs Hm. destruct s as [l|l|l]; simpl in *; [| |done];
    destruct (multiIndex l perm) as [l'|]; simpl in Hm; [|done| |done];
    injection Hm as <-; by eexists.
Qed.

Lemma IsSorted_true sorter :
  (∀ i, S i < sLen sorter → sLess sorter (S i) i = false) → IsSorted sorter = true.
Proof.
  intros H. unfold IsSorted. apply forallb_forall. intros i Hi.
  apply in_seq in Hi. rewrite H by lia. done.
Qed.

(** The column that was the only sort key is sorted in the permuted
    Table. *)
Lemma permutedTable_key_sorted tv k s0 sorter0 :
  table_inv tv → columnView tv k = Some s0 → Sorter s0 = Ok sorter0 →
  IsSorted sorter0 = false →
  ∃ s2 sorter2,
    columnView (permutedTable tv (rowPerm tv [k])) k = Some s2
    ∧ Sorter s2 = Ok sorter2 ∧ IsSorted sorter2 = true.
Proof.
  intros Hinv Hv Hs Hi. pose proof (rowPerm_bound tv [k]) as Hbound.
  assert (Hperm : rowPerm tv [k]
                  = Stable (rowLess (keptSorters tv [k])) (seq 0 (len tv))) by done.
  rewrite (keptSorters_cons _ _ _ _ _ Hv Hs), Hi in Hperm.
  destruct (MultiIndex_Some s0 (rowPerm tv [k])) as (s2 & Hs2 & Hl2 & _ & Hel).
  { by rewrite (columnView_len _ _ _ Hinv Hv). }
  destruct (Sorter_MultiIndex _ _ _ _ Hs Hs2) as [sorter2 Hsorter2].
  exists s2, sorter2. split; [|split; [done|]].
  - rewrite (permutedTable_view _ _ Hinv Hbound), Hv. simpl. by rewrite Hs2.
  - apply IsSorted_true. intros i Hlt.
    rewrite (Sorter_len _ _ Hsorter2), Hl2 in Hlt.
    destruct (lookup_lt_is_Some_2 (rowPerm tv [k]) i ltac:(lia)) as [a Hpa].
    destruct (lookup_lt_is_Some_2 (rowPerm tv [k]) (S i) Hlt) as [b Hpb].
    assert (Ha : a < length (elems s0)).
    { rewrite length_elems, (columnView_len _ _ _ Hinv Hv).
      by apply (Forall_lookup_1 _ _ _ _ Hbound Hpa). }
    assert (Hb : b < length (elems s0)).
    { rewrite length_elems, (columnView_len _ _ _ Hinv Hv).
      by apply (Forall_lookup_1 _ _ _ _ Hbound Hpb). }
    destruct (lookup_lt_is_Some_2 _ _ Ha) as [x Hx].
    destruct (lookup_lt_is_Some_2 _ _ Hb) as [y Hy].
    rewrite (Sorter_less s2 sorter2 (S i) i y x Hsorter2)
      by (by rewrite (Hel _ _ Hpb) || by rewrite (Hel _ _ Hpa)).
    rewrite <- (Sorter_less s0 sorter0 b a y x Hs Hy Hx).
    rewrite Hperm in Hpa, Hpb. simpl in Hpa, Hpb.
    apply (Stable_sorted (sLess sorter0) _ _ _ _ (λ a b, Sorter_asym _ _ a b Hs) Hpa Hpb).
Qed.

(** X15. After [SortBy] by one column, that column is sorted in the
    Table of every group, as [sort.IsSorted] tests it on the column's
    sorter: sorting the result by the same column again would pass every
    group through. *)
Theorem SortBy_single_column_sorted h g k out h' gid t tv :
  reachable h → grouping_wf h (length h) g →
  SortBy g [k] h = (Ok out, h') →
  Grouping_Table g gid h = (Ok (Some t), h) → h !! t = Some tv →
  ∃ t' s sorter,
    Grouping_Table out gid h' = (Ok (Some t'), h')
    ∧ (Table_Column t' k h').1 = Ok (Some s)
    ∧ Sorter s = Ok sorter ∧ IsSorted sorter = true.
Proof.
  intros Hr Hwf Hrun HT Ht. pose proof (reachable_heap_inv _ Hr) as Hh.
  pose proof (Hh _ _ Ht) as Hinv.
  destruct (SortBy_group _ _ _ _ _ _ _ _ Hh Hwf Hrun HT Ht)
    as (t' & tv' & HT' & Ht' & Hsorted & (tv1 & Ht1 & Hc) & Hsortable).
  destruct (Hsortable k ltac:(by left)) as (s0 & sorter0 & Hv & Hs).
  unfold sortedAs in Hsorted. rewrite (keptSorters_cons _ _ _ _ _ Hv Hs) in Hsorted.
  destruct (IsSorted sorter0) eqn:Hi; simpl in Hsorted.
  - subst t'. rewrite Ht' in Ht1. injection Ht1 as <-. exists t, s0, sorter0.
    split; [done|]. split; [|done].
    by rewrite (Table_Column_view _ _ _ _ Ht'), (cached_view _ _ Hc), Hv.
  - destruct Hsorted as [_ Hp]. rewrite Ht' in Hp. injection Hp as ->.
    destruct (permutedTable_key_sorted _ _ _ _ Hinv Hv Hs Hi)
      as (s2 & sorter2 & Hv2 & Hs2 & Hi2).
    exists t', s2, sorter2. split; [done|]. split; [|done].
    by rewrite (Table_Column_view _ _ _ _ Ht'), Hv2.
Qed.

Lemma SortBy_single_column_sorted_witness :
  ∃ t' s sorter,
    Grouping_Table (returned sortScenario) RootGroupID sortScenario.2
    = (Ok (Some t'), sortScenario.2)
    ∧ (Table_Column t' "k" sortScenario.2).1 = Ok (Some s)
    ∧ Sorter s = Ok sorter ∧ IsSorted sorter = true.
Proof.
  apply (SortBy_single_column_sorted sortScenarioHeap (GTable 2) "k"
           (returned sortScenario) sortScenario.2 RootGroupID 2
           (withConst (withColumn emptyTable "k" (SInt [3; 1; 2]%Z) 3) "c" (VInt 7))).
  - eexists. reflexivity.
  - split; [vm_compute; lia|]. eexists. reflexivity.
  - reflexivity.
  - reflexivity.
  - reflexivity.
Defined.

(** * [permSort] under insertion sort *)

Lemma insertBack_length {A} (less : A → A → bool) x (l : list A) :
  length (insertBack less x l) = S (length l).
Proof. induction l as [|y l IH]; simpl; [done|]. destruct (less x y); simpl; by rewrite ?IH. Qed.

(** With a key, and on rows that are in the slices of all keys,
    [permSort.Less] does not panic. *)
Lemma keysLess_ok ks a b :
  ks ≠ [] → inKeys ks a → inKeys ks b → keysLess ks a b = Ok (rowLess ks a b).
Proof.
  unfold inKeys. intros Hne Ha. revert Hne.
  induction Ha as [|key ks Hka Ha IH]; intros Hne Hb; [done|].
  apply Forall_cons in Hb as [Hkb Hb].
  assert (Hab : keyLess key a b = Ok (sLess key a b))
    by (unfold keyLess; by rewrite bool_decide_eq_true_2).
  assert (Hba : keyLess key b a = Ok (sLess key b a))
    by (unfold keyLess; by rewrite bool_decide_eq_true_2).
  destruct ks as [|key2 ks]; [done|].
  change (keysLess (key :: key2 :: ks) a b)
    with (match keyLess key a b with
          | Panicked e => Panicked e
          | Ok true => Ok true
          | Ok false =>
              match keyLess key b a with
              | Panicked e => Panicked e
              | Ok true => Ok false
              | Ok false => keysLess (key2 :: ks) a b
              end
          end).
  change (rowLess (key :: key2 :: ks) a b)
    with (if sLess key a b then true
          else if sLess key b a then false else rowLess (key2 :: ks) a b).
  rewrite Hab, Hba. destruct (sLess key a b); [done|].
  destruct (sLess key b a); [done|]. by apply IH.
Qed.

Lemma permSort_Less_ok l ks i j a b :
  ks ≠ [] → l !! i = Some a → l !! j = Some b → inKeys ks a → inKeys ks b →
  permSort_Less (mkPermSort l ks) i j = Ok (rowLess ks a b).
Proof.
  intros Hne Hi Hj Ha Hb. unfold permSort_Less. simpl. rewrite Hi, Hj.
  destruct ks; [done|]. by apply keysLess_ok.
Qed.

(** Without keys [permSort.Less] panics, whatever the positions. *)
Lemma permSort_Less_no_keys l i j :
  permSort_Less (mkPermSort l []) i j = Panicked IndexOutOfRange.
Proof. done. Qed.

Lemma insertBack_inKeys ks x (l : list nat) :
  inKeys ks x → Forall (inKeys ks) l → Forall (inKeys ks) (insertBack (rowLess ks) x l).
Proof.
  intros Hx Hl. apply Forall_forall. intros y Hy.
  rewrite insertBack_perm in Hy. apply elem_of_cons in Hy as [->|Hy]; [done|].
  by apply (proj1 (Forall_forall _ _) Hl).
Qed.

(** The inner loop moves the element at [length pre] into the sorted
    part [pre] as [insertBack] does. *)
Lemma sift_spec ks x : ∀ pre rest,
  ks ≠ [] → inKeys ks x → Forall (inKeys ks) pre →
  sift (mkPermSort (pre ++ x :: rest) ks) 0 (length pre)
  = Ok (mkPermSort (reverse (insertBack (rowLess ks) x (reverse pre)) ++ rest) ks).
Proof.
  induction pre as [|y pre IH] using rev_ind; intros rest Hne Hx Hpre; [done|].
  apply Forall_app in Hpre as [Hpre Hy]. rewrite Forall_singleton in Hy.
  rewrite length_app, Nat.add_1_r, reverse_snoc.
  assert (Hl : (pre ++ [y]) ++ x :: rest = pre ++ y :: x :: rest)
    by by rewrite <- app_assoc.
  rewrite Hl.
  assert (Hj : (pre ++ y :: x :: rest) !! length pre = Some y)
    by by rewrite lookup_app_r, Nat.sub_diag by lia.
  assert (HSj : (pre ++ y :: x :: rest) !! S (length pre) = Some x).
  { rewrite lookup_app_r by lia. by replace (S (length pre) - length pre) with 1 by lia. }
  change (sift (mkPermSort (pre ++ y :: x :: rest) ks) 0 (S (length pre)))
    with (match permSort_Less (mkPermSort (pre ++ y :: x :: rest) ks)
                  (S (length pre)) (length pre) with
          | Panicked e => Panicked e
          | Ok true =>
              match permSort_Swap (mkPermSort (pre ++ y :: x :: rest) ks)
                      (S (length pre)) (length pre) with
              | Ok s' => sift s' 0 (length pre)
              | Panicked e => Panicked e
              end
          | Ok false => Ok (mkPermSort (pre ++ y :: x :: rest) ks)
          end).
  rewrite (permSort_Less_ok _ _ _ _ _ _ Hne HSj Hj Hx Hy).
  simpl insertBack. destruct (rowLess ks x y) eqn:Hless.
  - unfold permSort_Swap. simpl perm. simpl keys. rewrite Hj, HSj.
    assert (Hsw : <[length pre := x]> (<[S (length pre) := y]> (pre ++ y :: x :: rest))
                  = pre ++ x :: y :: rest).
    { rewrite insert_app_r_alt, insert_app_r_alt by lia.
      rewrite Nat.sub_diag. by replace (S (length pre) - length pre) with 1 by lia. }
    rewrite Hsw, (IH _ Hne Hx Hpre), reverse_cons. by rewrite <- app_assoc.
  - rewrite !reverse_cons, reverse_involutive. by rewrite <- !app_assoc.
Qed.

Lemma insertionSort_fold ks : ∀ rest done,
  ks ≠ [] → Forall (inKeys ks) done → Forall (inKeys ks) rest →
  foldl (λ r i, match r with
                | Ok s => sift s 0 i
                | Panicked e => Panicked e
                end)
        (Ok (mkPermSort (reverse done ++ rest) ks))
        (seq (length done) (length rest))
  = Ok (mkPermSort (reverse (foldl (λ done x, insertBack (rowLess ks) x done) done rest)) ks).
Proof.
  induction rest as [|x rest IH]; intros done Hne Hdone Hrest; simpl.
  - by rewrite app_nil_r.
  - apply Forall_cons in Hrest as [Hx Hrest].
    assert (Hrev : Forall (inKeys ks) (reverse done)) by by rewrite Forall_reverse.
    pose proof (sift_spec ks x (reverse done) rest Hne Hx Hrev) as Hs.
    rewrite length_reverse, reverse_involutive in Hs. rewrite Hs.
    specialize (IH (insertBack (rowLess ks) x done) Hne
                   (insertBack_inKeys _ _ _ Hx Hdone) Hrest).
    by rewrite insertBack_length in IH.
Qed.

(** X21. The insertion sort of package [sort], run through [Len],
    [Less] and [Swap] on a [permSort] that has a key and whose rows are
    in the slices of all its keys (as [SortBy] builds it), does not panic
    and leaves in [perm] the rows in the order [sortPerm] gives: each row
    is inserted behind the rows that are not greater in the order of the
    keys; the keys are not changed. *)
Theorem permSort_insertionSort (s : permSort) :
  keys s ≠ [] →
  Forall (λ a, Forall (λ key, a < sLen key) (keys s)) (perm s) →
  insertionSort s 0 (permSort_Len s) = Ok (mkPermSort (sortPerm s) (keys s)).
Proof.
  destruct s as [l ks]. unfold insertionSort, permSort_Len, sortPerm, Stable. simpl.
  intros Hne Hl. destruct l as [|x l]; [done|]. simpl. rewrite Nat.sub_0_r.
  apply Forall_cons in Hl as [Hx Hl].
  apply (insertionSort_fold ks l [x] Hne); [by rewrite Forall_singleton|done].
Qed.

Lemma permSort_insertionSort_witness :
  let s := mkPermSort [0; 1; 2; 3]
                      [mkSorter 4 (λ i j, Z.ltb (nth i [2; 1; 2; 1]%Z 0%Z)
                                                (nth j [2; 1; 2; 1]%Z 0%Z))] in
  insertionSort s 0 (permSort_Len s) = Ok (mkPermSort (sortPerm s) (keys s)).
Proof.
  apply (permSort_insertionSort
           (mkPermSort [0; 1; 2; 3]
                       [mkSorter 4 (λ i j, Z.ltb (nth i [2; 1; 2; 1]%Z 0%Z)
                                                 (nth j [2; 1; 2; 1]%Z 0%Z))])).
  - done.
  - repeat constructor; simpl; lia.
Defined.

Lemma insert_head_perm {A} (l : list A) j b x :
  l !! j = Some b → b :: <[j := x]> l ≡ₚ x :: l.
Proof.
  intros Hj. rewrite (insert_take_drop l j x) by by eapply lookup_lt_Some.
  rewrite <- (take_drop_middle l j b Hj) at 3.
  rewrite <- !Permutation_middle. apply Permutation_swap.
Qed.

Lemma list_swap_perm {A} (l : list A) : ∀ i j a b,
  l !! i = Some a → l !! j = Some b → <[j := a]> (<[i := b]> l) ≡ₚ l.
Proof.
  induction l as [|x l IH]; intros [|i] [|j] a b Ha Hb; simpl in *; simplify_eq; try done.
  - by apply insert_head_perm.
  - by apply insert_head_perm.
  - constructor. by apply IH.
Qed.

(** X22. [Swap(i, j)] of a [permSort], for two positions below [Len],
    exchanges the rows at the two positions and nothing else: [Len], the
    keys and the other positions stay, [perm] holds the same rows, [Less]
    on the exchanged positions answers as it did with the positions
    exchanged, and a second [Swap(i, j)] restores the receiver. *)
Theorem permSort_Swap_exchanges s i j :
  i < permSort_Len s → j < permSort_Len s →
  ∃ s', permSort_Swap s i j = Ok s'
        ∧ permSort_Len s' = permSort_Len s ∧ keys s' = keys s ∧ perm s' ≡ₚ perm s
        ∧ permSort_Less s' i j = permSort_Less s j i
        ∧ permSort_Less s' j i = permSort_Less s i j
        ∧ (∀ k, k ≠ i → k ≠ j → perm s' !! k = perm s !! k)
        ∧ permSort_Swap s' i j = Ok s.
Proof.
  destruct s as [l ks]. unfold permSort_Len, permSort_Swap, permSort_Less. simpl.
  intros Hi Hj.
  destruct (lookup_lt_is_Some_2 l i Hi) as [a Ha].
  destruct (lookup_lt_is_Some_2 l j Hj) as [b Hb]. rewrite Ha, Hb.
  eexists. split; [done|]. simpl.
  assert (Hj' : <[j := a]> (<[i := b]> l) !! j = Some a).
  { apply list_lookup_insert_eq. by rewrite length_insert. }
  assert (Hi' : <[j := a]> (<[i := b]> l) !! i = Some b).
  { destruct (decide (i = j)) as [->|Hne].
    - rewrite Hj'. congruence.
    - rewrite list_lookup_insert_ne by done. by apply list_lookup_insert_eq. }
  split; [by rewrite !length_insert|]. split; [done|].
  split; [by apply list_swap_perm|].
  rewrite Hi', Hj'.
  split; [done|]. split; [done|]. split.
  - intros k Hki Hkj. by rewrite !list_lookup_insert_ne by done.
  - f_equal. f_equal.
    destruct (decide (i = j)) as [->|Hne].
    + rewrite !list_insert_insert_eq. apply list_insert_id. congruence.
    + rewrite (list_insert_insert_ne _ j i) by done.
      rewrite list_insert_insert_eq, (list_insert_insert_ne _ i j) by done.
      rewrite list_insert_insert_eq, (list_insert_id _ _ _ Ha).
      by apply list_insert_id.
Qed.

Lemma permSort_Swap_exchanges_witness :
  let s := mkPermSort [0; 1; 2] [mkSorter 3 (λ i j, i <? j)] in
  ∃ s', permSort_Swap s 0 2 = Ok s'
        ∧ permSort_Len s' = permSort_Len s ∧ keys s' = keys s ∧ perm s' ≡ₚ perm s
        ∧ permSort_Less s' 0 2 = permSort_Less s 2 0
        ∧ permSort_Less s' 2 0 = permSort_Less s 0 2
        ∧ (∀ k, k ≠ 0 → k ≠ 2 → perm s' !! k = perm s !! k)
        ∧ permSort_Swap s' 0 2 = Ok s.
Proof.
  apply (permSort_Swap_exchanges (mkPermSort [0; 1; 2] [mkSorter 3 (λ i j, i <? j)]) 0 2);
    unfold permSort_Len; simpl; lia.
Defined.

(** ** Sorting twice *)

(** [SortBy] over groups whose sort columns are cached and sorted: every
    group is passed through and nothing is written. *)
Lemma sortGroups_settled out cs (h : heap) binds : ∀ acc og og',
  heap_inv h → asGrouped h acc = Some og →
  (∀ b, b ∈ binds →
        Grouping_Table out b.1 h = (Ok (Some b.2), h) ∧ settled cs h b.2
        ∧ ∃ tv, h !! b.2 = Some tv ∧ colNames tv ≠ None
                ∧ ∀ col, col ∈ cs → sortable tv col) →
  replay h og binds = Ok og' →
  ∃ acc', foldM (sortGroup out cs) acc (binds.*1) h = (Ok acc', h)
          ∧ asGrouped h acc' = Some og'.
Proof.
  induction binds as [|[gid t] binds IH]; intros acc og og' Hh Hog Hb Hreplay.
  - simpl in *. injection Hreplay as <-. by exists acc.
  - destruct (Hb (gid, t)) as (HT & Hset & tv & Ht & Hne & Hsortable); [by left|].
    simpl in HT, Hset, Ht. rewrite fmap_cons. simpl.
    assert (Hsort : sortTable (Some t) cs h = (Ok (Some t), h)).
    { destruct (sortTable_ok _ _ _ _ Hh Ht Hsortable) as (r & h1 & Hrun).
      by destruct (sortTable_settled _ _ _ _ _ Hh Hset Hrun) as [-> ->]. }
    simpl in Hreplay.
    pose proof (Grouping_AddTable_view h acc og gid t tv Hog Ht Hne) as Hv.
    destruct (groupedTable_AddTable og gid (Some t) h) as [[og1|e] h1]; simpl in Hreplay;
      [|done].
    destruct Hv as (acc1 & Hadd & Hog1).
    destruct (IH acc1 og1 og' Hh Hog1) as (acc' & Hrun & Hog'); [|done|].
    { intros b Hin. apply Hb. by right. }
    exists acc'. split; [|done].
    erewrite bind_Ok; [exact Hrun|]. unfold sortGroup.
    erewrite bind_Ok by exact HT. by erewrite bind_Ok by exact Hsort.
Qed.

(** The Table that [SortBy] by one column binds to a group has that
    column cached and sorted. *)
Lemma groupResult_settled g k (h h' : heap) b :
  heap_inv h → heap_ext h h' → groupResult g [k] (length h) h h' b →
  settled [k] h' b.2
  ∧ ∃ tv', h' !! b.2 = Some tv' ∧ colNames tv' ≠ None
           ∧ ∀ col, col ∈ [k] → sortable tv' col.
Proof.
  intros Hh Hext (t & tv & HT & Hlt & Ht & Hne & Hsortable & Hsorted & Hfr & tv' & Htv' & Hne').
  pose proof (Hh _ _ Ht) as Hinv.
  destruct (Hsortable k ltac:(by left)) as (s0 & sorter0 & Hv & Hs).
  unfold sortedAs in Hsorted. rewrite (keptSorters_cons _ _ _ _ _ Hv Hs) in Hsorted.
  destruct (IsSorted sorter0) eqn:Hi; simpl in Hsorted.
  - rewrite Hsorted in *. split.
    + destruct Hfr as [_ [Hge|Hset]]; [lia|done].
    + exists tv'. split; [done|]. split; [done|].
      intros col Hcol. apply list_elem_of_singleton in Hcol as ->.
      destruct (proj2 Hext _ _ Ht) as (tv1 & Ht1 & Hc). rewrite Htv' in Ht1.
      injection Ht1 as <-. exists s0, sorter0. split; [|done].
      by rewrite (cached_view _ _ Hc).
  - destruct Hsorted as [_ Hp]. rewrite Htv' in Hp. injection Hp as ->.
    destruct (permutedTable_key_sorted _ _ _ _ Hinv Hv Hs Hi)
      as (s2 & sorter2 & Hv2 & Hs2 & Hi2).
    destruct (permutedTable_spec tv (rowPerm tv [k]) Hinv (rowPerm_bound tv [k]))
      as (Hconsts & _ & _ & _).
    split.
    + eexists. split; [exact Htv'|]. split.
      * intros col Hcol. apply list_elem_of_singleton in Hcol as ->.
        unfold columnView in Hv2. rewrite Hconsts, lookup_empty in Hv2.
        destruct (cols (permutedTable tv (rowPerm tv [k])) !! k); [by eexists|done].
      * by rewrite (keptSorters_cons _ _ _ _ _ Hv2 Hs2), Hi2.
    + eexists. split; [exact Htv'|]. split; [done|].
      intros col Hcol. apply list_elem_of_singleton in Hcol as ->. by exists s2, sorter2.
Qed.

(** X23. [SortBy] by one column is idempotent: sorting its result by the
    same column again returns, writes nothing but the new empty Table it
    starts from, and the Grouping it returns has the same group ids,
    binds the very same Tables and has the same column names. *)
Theorem SortBy_idempotent h g k out h' :
  reachable h → grouping_wf h (length h) g →
  SortBy g [k] h = (Ok out, h') →
  ∃ out2,
    SortBy out [k] h' = (Ok out2, h' ++ [emptyTable])
    ∧ (Grouping_Tables out2 (h' ++ [emptyTable])).1 = (Grouping_Tables out h').1
    ∧ (∀ gid, (Grouping_Table out2 gid (h' ++ [emptyTable])).1
              = (Grouping_Table out gid h').1)
    ∧ (Grouping_Columns out2 (h' ++ [emptyTable])).1 = (Grouping_Columns out h').1.
Proof.
  intros Hr Hwf Hrun. pose proof (reachable_heap_inv _ Hr) as Hh.
  destruct (SortBy_spec _ _ _ _ _ Hh Hwf Hrun)
    as (binds & og & _ & _ & Hog & _ & Hg & Htab & Hreplay & Hh' & Hext & Hres).
  rewrite Forall_forall in Hres.
  set (h2 := h' ++ [emptyTable]).
  assert (Hh2 : heap_inv h2) by (apply heap_inv_alloc; [done|apply emptyTable_inv]).
  assert (Hog2 : asGrouped h2 out = Some og).
  { rewrite <- Hog. apply asGrouped_agree. intros t ->. simpl in Hog.
    destruct (h' !! t) as [tv|] eqn:Ht; [|done]. by apply lookup_app_l_Some. }
  assert (Hsame : ∀ b, b ∈ binds → h2 !! b.2 = h' !! b.2).
  { intros b Hb. destruct (groupResult_settled _ _ _ _ _ Hh Hext (Hres _ Hb))
      as (_ & tv' & Htv' & _). rewrite Htv'. by apply lookup_app_l_Some. }
  destruct (sortGroups_settled out [k] h2 binds (GTable (length h'))
              (mkGrouped ∅ [] None) og Hh2) as (out2 & Hrun2 & Hout2).
  { simpl. unfold h2. by rewrite lookup_alloc. }
  { intros b Hb.
    destruct (groupResult_settled _ _ _ _ _ Hh Hext (Hres _ Hb))
      as ((tvs & Htvs & Hcs & Hk) & tv' & Htv' & Hne' & Hsortable).
    split; [|split].
    - rewrite (Grouping_Table_view _ _ _ _ Hog2). by rewrite (Htab _ Hb).
    - exists tvs. split; [by apply lookup_app_l_Some|done].
    - exists tv'. split; [by apply lookup_app_l_Some|done]. }
  { rewrite <- Hreplay. apply replay_agree; [done|]. intros gid l. simpl.
    by rewrite lookup_empty. }
  exists out2. split; [|split; [|split]].
  - unfold SortBy. erewrite bind_Ok by reflexivity. fold h2.
    erewrite bind_Ok by by apply (Grouping_Tables_view _ _ _ Hog2). by rewrite Hg.
  - by rewrite (Grouping_Tables_view _ _ _ Hout2), (Grouping_Tables_view _ _ _ Hog).
  - intros gid.
    by rewrite (Grouping_Table_view _ _ _ _ Hout2), (Grouping_Table_view _ _ _ _ Hog).
  - by rewrite (Grouping_Columns_view _ _ _ Hout2), (Grouping_Columns_view _ _ _ Hog).
Qed.

Lemma SortBy_idempotent_witness :
  ∃ out2,
    SortBy (returned sortScenario) ["k"] sortScenario.2
    = (Ok out2, sortScenario.2 ++ [emptyTable])
    ∧ (Grouping_Tables out2 (sortScenario.2 ++ [emptyTable])).1
      = (Grouping_Tables (returned sortScenario) sortScenario.2).1
    ∧ (∀ gid, (Grouping_Table out2 gid (sortScenario.2 ++ [emptyTable])).1
              = (Grouping_Table (returned sortScenario) gid sortScenario.2).1)
    ∧ (Grouping_Columns out2 (sortScenario.2 ++ [emptyTable])).1
      = (Grouping_Columns (returned sortScenario) sortScenario.2).1.
Proof.
  apply (SortBy_idempotent sortScenarioHeap (GTable 2) "k" (returned sortScenario)
           sortScenario.2).
  - eexists. reflexivity.
  - split; [vm_compute; lia|]. eexists. reflexivity.
  - reflexivity.
Defined.

(** * When [Add] panics *)

Lemma delete_cols_empty (tv : Table) name :
  delete name (cols tv) = ∅ ↔ ∀ other, other ≠ name → cols tv !! other = None.
Proof.
  split.
  - intros He other Hne. rewrite <- (lookup_delete_ne (cols tv) name other) by done.
    by rewrite He, lookup_empty.
  - intros H. apply map_eq. intros k. rewrite lookup_empty.
    destruct (decide (k = name)) as [->|Hne]; [apply lookup_delete_eq|].
    rewrite lookup_delete_ne by done. by apply H.
Qed.

(** X24. [Add] on a Table built by the methods panics in two cases
    only. Data that is not a slice gives the type error of
    [reflectSlice]. A slice gives the length panic exactly when the map of
    sequence columns holds a name other than [name] (a sequence column,
    or a constant whose expansion [Column] has cached) and the row count
    differs from the length of the slice. [Add] of nil always returns. *)
Theorem Add_panics_exactly h t tv name data :
  reachable h → h !! t = Some tv →
  match data with
  | ANil => ∃ t', (Table_Add t name data h).1 = Ok t'
  | AValue v => (Table_Add t name data h).1 = Panicked (NotASlice (Some (typeOf v)))
  | ASlice s =>
      ((∃ t', (Table_Add t name data h).1 = Ok t')
       ↔ (∀ other, other ≠ name → cols tv !! other = None) ∨ len tv = sliceLen s)
      ∧ ((Table_Add t name data h).1 = Panicked (LengthMismatch name (sliceLen s) (len tv))
         ↔ (∃ other, other ≠ name ∧ is_Some (cols tv !! other)) ∧ len tv ≠ sliceLen s)
  end.
Proof.
  intros Hr Ht. pose proof (reachable_heap_inv _ Hr _ _ Ht) as Hinv.
  destruct data as [|v|s].
  - rewrite (Table_Add_nil _ _ _ _ Ht Hinv). repeat case_decide; by eexists.
  - by rewrite (Table_Add_value _ _ _ _ _ Ht).
  - rewrite (Table_Add_slice _ _ _ _ _ Ht Hinv).
    destruct (decide (delete name (cols tv) = ∅)) as [He|He].
    + pose proof (proj1 (delete_cols_empty _ _) He) as Hnone. simpl. split.
      * split; [by left|by eexists].
      * split; [done|]. intros [(other & Hne & [c Hc]) _]. by rewrite Hnone in Hc.
    + assert (Hother : ∃ other, other ≠ name ∧ is_Some (cols tv !! other)).
      { destruct (map_choose _ He) as (other & c & Hc).
        apply lookup_delete_Some in Hc as [Hne Hc]. exists other. split; [done|by eexists]. }
      assert (Hnot : ¬ ∀ other, other ≠ name → cols tv !! other = None).
      { intros H. by apply He, delete_cols_empty. }
      destruct (decide (len tv = sliceLen s)) as [Hl|Hl]; simpl; split.
      * split; [by right|by eexists].
      * split; [done|]. by intros [_ ?].
      * split; [by intros [? ?]|]. by intros [?|?].
      * done.
Qed.

Lemma Add_panics_exactly_witness :
  let tv := withConst (withColumn emptyTable "k" (SInt [3; 1; 2]%Z) 3) "c" (VInt 7) in
  let s := SInt [1; 2]%Z in
  ((∃ t', (Table_Add 2 "x" (ASlice s) sortScenarioHeap).1 = Ok t')
   ↔ (∀ other, other ≠ "x" → cols tv !! other = None) ∨ len tv = sliceLen s)
  ∧ ((Table_Add 2 "x" (ASlice s) sortScenarioHeap).1
     = Panicked (LengthMismatch "x" (sliceLen s) (len tv))
     ↔ (∃ other, other ≠ "x" ∧ is_Some (cols tv !! other)) ∧ len tv ≠ sliceLen s).
Proof.
  apply (Add_panics_exactly sortScenarioHeap 2 _ "x" (ASlice (SInt [1; 2]%Z))).
  - eexists. reflexivity.
  - reflexivity.
Defined.

(** * The claim on groups that [SortBy] passes through *)



